(** * vingo: a shallow embedding of the template engine

    The development follows the three parts of [vingo/eval.go]:
    the expression evaluator ([lookup], [evalCondition], [compareValues], ...),
    the tokenizer and parser ([tokenize], [compileTokens], [parseIf], ...)
    and the public API with its compiled-template cache ([Render],
    [getOrCompile]).

    Go strings are modelled as byte strings ([string] of the Standard
    Library).  The white space of [strings.TrimSpace] and [strings.Fields] is
    that of [unicode.IsSpace], read from the bytes as the UTF-8 decoder of
    the library reads it; the classes [\s], [\w] and [.] of [regexp] are
    those of RE2. *)

From Stdlib Require Import ZArith Ascii String List Bool Lia.
From Stdlib Require Import Floats Uint63 DecimalString.
From stdpp Require Import base gmap strings list.

Local Open Scope Z_scope.
Local Open Scope nat_scope.

(** ** Package [strings] *)

Module Strings.

(** [unicode.IsSpace] on the ASCII range, the table [asciiSpace] of the
    package: tab, line feed, vertical tab, form feed, carriage return and
    space. *)
Definition isSpace (a : ascii) : bool :=
  let n := nat_of_ascii a in
  (n =? 9) || (n =? 10) || (n =? 11) || (n =? 12) || (n =? 13) || (n =? 32).

(** [unicode.IsSpace] beyond ASCII holds of U+0085, U+00A0, U+1680, U+2000
    to U+200A, U+2028, U+2029, U+202F, U+205F and U+3000.  In UTF-8 the
    first two take two bytes (C2 85, C2 A0) and the others three (E1 9A 80;
    E2 80 80 to E2 80 8A, E2 80 A8, E2 80 A9, E2 80 AF; E2 81 9F;
    E3 80 80). *)
Definition isSpace2 (a b : ascii) : bool :=
  let x := nat_of_ascii a in
  let y := nat_of_ascii b in
  (x =? 194) && ((y =? 133) || (y =? 160)).

Definition isSpace3 (a b c : ascii) : bool :=
  let x := nat_of_ascii a in
  let y := nat_of_ascii b in
  let z := nat_of_ascii c in
  ((x =? 225) && (y =? 154) && (z =? 128))
  || ((x =? 226) && (y =? 128)
      && (((128 <=? z) && (z <=? 138))
          || (z =? 168) || (z =? 169) || (z =? 175)))
  || ((x =? 226) && (y =? 129) && (z =? 159))
  || ((x =? 227) && (y =? 128) && (z =? 128)).

(** The rune that [utf8.DecodeRuneInString] reads at the head of [s] is
    white space: [spaceWidth s] is its width in bytes, and [0] when the
    head is no white space.  A rune is white space exactly when its bytes
    are one of the encodings above: bytes that are no valid encoding decode
    to U+FFFD, of width 1, which is no white space. *)
Definition spaceWidth (s : string) : nat :=
  match s with
  | String a s1 =>
      if isSpace a then 1
      else
        match s1 with
        | String b s2 =>
            if isSpace2 a b then 2
            else
              match s2 with
              | String c _ => if isSpace3 a b c then 3 else 0
              | EmptyString => 0
              end
        | EmptyString => 0
        end
  | EmptyString => 0
  end.

(** The same for the rune that [utf8.DecodeLastRuneInString] reads at the
    end of a string, given here by its bytes from the last one backwards:
    the decoder steps back to the nearest byte that starts a rune, so it
    finds a white-space rune exactly when the string ends with one of the
    encodings. *)
Definition spaceWidthLast (r : string) : nat :=
  match r with
  | String a r1 =>
      if isSpace a then 1
      else
        match r1 with
        | String b r2 =>
            if isSpace2 b a then 2
            else
              match r2 with
              | String c _ => if isSpace3 c b a then 3 else 0
              | EmptyString => 0
              end
        | EmptyString => 0
        end
  | EmptyString => 0
  end.

Fixpoint HasPrefix (s prefix : string) : bool :=
  match prefix, s with
  | EmptyString, _ => true
  | String p prefix', String a s' =>
      if Ascii.eqb a p then HasPrefix s' prefix' else false
  | String _ _, EmptyString => false
  end.

Fixpoint drop (n : nat) (s : string) : string :=
  match n, s with
  | 0, _ => s
  | S n', String _ s' => drop n' s'
  | S _, EmptyString => EmptyString
  end.

Fixpoint take (n : nat) (s : string) : string :=
  match n, s with
  | 0, _ => EmptyString
  | S n', String a s' => String a (take n' s')
  | S _, EmptyString => EmptyString
  end.

Fixpoint rev_onto (s acc : string) : string :=
  match s with
  | EmptyString => acc
  | String a s' => rev_onto s' (String a acc)
  end.

Definition rev (s : string) : string := rev_onto s EmptyString.

Definition HasSuffix (s suffix : string) : bool :=
  HasPrefix (rev s) (rev suffix).

(** Dropping the white-space runes at the head of a string, [width]
    giving the width of the one it starts with; [skip] counts the bytes of
    the current rune that are still to be dropped. *)
Fixpoint trimGo (width : string -> nat) (skip : nat) (s : string) : string :=
  match s with
  | String _ s' =>
      match skip with
      | S k => trimGo width k s'
      | 0 =>
          match width s with
          | S k => trimGo width k s'
          | 0 => s
          end
      end
  | EmptyString => EmptyString
  end.

(** [strings.TrimLeftFunc(s, unicode.IsSpace)] *)
Definition TrimLeft (s : string) : string := trimGo spaceWidth 0 s.

(** [strings.TrimRightFunc(s, unicode.IsSpace)] *)
Definition TrimRight (s : string) : string :=
  rev (trimGo spaceWidthLast 0 (rev s)).

(** [strings.TrimSpace]: the ASCII fast path of the library and its
    fallback compute [TrimRightFunc(TrimLeftFunc(s, IsSpace), IsSpace)]. *)
Definition TrimSpace (s : string) : string := TrimRight (TrimLeft s).

(** [cut sep s] is [strings.Index] together with the two slices that
    [genSplit] takes around the first occurrence of [sep]. *)
Fixpoint cut (sep s : string) : option (string * string) :=
  if HasPrefix s sep then Some (EmptyString, drop (String.length sep) s)
  else match s with
       | EmptyString => None
       | String a s' =>
           match cut sep s' with
           | Some (b, r) => Some (String a b, r)
           | None => None
           end
       end.

Definition Contains (s sep : string) : bool :=
  match cut sep s with Some _ => true | None => false end.

(** [genSplit] of the Go library with [n] the number of cuts still
    allowed (the library's [n-1]); the separator is not empty. *)
Fixpoint genSplit (n : nat) (s sep : string) : list string :=
  match n with
  | 0 => [s]
  | S n' =>
      match cut sep s with
      | None => [s]
      | Some (b, r) => b :: genSplit n' r sep
      end
  end.

(** [strings.Split(s, sep)]: the number of cuts is the number of
    occurrences of [sep], which the length of [s] bounds
    ([StringFacts.genSplit_fuel]). *)
Definition Split (s sep : string) : list string :=
  genSplit (String.length s) s sep.

(** [strings.SplitN(s, sep, 2)]: at most one cut. *)
Definition SplitN2 (s sep : string) : list string :=
  genSplit 1 s sep.

(** [strings.Fields]: the maximal runs of bytes between white-space
    runes.  [cur] is the field being read, if any, last byte first, and
    [skip] counts the bytes of a white-space rune that are still to be
    passed.  A rune that is no white space is read byte by byte: no
    white-space rune starts at a byte inside another rune, since such a
    byte is a continuation byte. *)
Fixpoint fieldsGo (skip : nat) (cur : option string) (s : string)
  : list string :=
  match s with
  | EmptyString =>
      match cur with Some w => [rev w] | None => [] end
  | String a s' =>
      match skip with
      | S k => fieldsGo k cur s'
      | 0 =>
          match spaceWidth s with
          | S k =>
              match cur with
              | Some w => rev w :: fieldsGo k None s'
              | None => fieldsGo k None s'
              end
          | 0 =>
              match cur with
              | Some w => fieldsGo 0 (Some (String a w)) s'
              | None => fieldsGo 0 (Some (String a EmptyString)) s'
              end
          end
      end
  end.

Definition Fields (s : string) : list string := fieldsGo 0 None s.

(** Byte-wise lexicographic order, the order of Go's [<] on strings. *)
Fixpoint ltb (s t : string) : bool :=
  match s, t with
  | _, EmptyString => false
  | EmptyString, String _ _ => true
  | String a s', String b t' =>
      if Ascii.eqb a b then ltb s' t'
      else nat_of_ascii a <? nat_of_ascii b
  end.

End Strings.

(** ** Package [regexp]

    Regular expressions with Go's leftmost-first semantics: the matcher
    returns every way to match a prefix of the remaining input, in the order
    in which a backtracking matcher tries them, and the first one that lets
    the rest of the expression succeed is the match. *)

Module Regexp.

Inductive re : Type :=
| Eps
| Chr (p : ascii -> bool)
| Seq (r1 r2 : re)
| Alt (r1 r2 : re)
| Star (greedy : bool) (r : re)
| Group (n : nat) (r : re)
| Bos
| Eos.

(** The position in the input and the input still to read. *)
Record state : Type := State { pos : nat; rest : string }.

Definition caps : Type := list (nat * string).

Definition consumed (before after : state) : string :=
  Strings.take (String.length (rest before) - String.length (rest after))
               (rest before).

(** The iteration of a starred expression whose body is matched by [body]:
    an iteration that consumes no input is not repeated, and [n] exceeds
    the length of the remaining input, so it is never used up
    ([RegexpFacts.starLoop_bound]). *)
Fixpoint starLoop (body : state -> caps -> list (state * caps))
    (greedy : bool) (n : nat) (st : state) (c : caps)
  : list (state * caps) :=
  match n with
  | 0 => [(st, c)]
  | S n' =>
      let more :=
        flat_map
          (fun x =>
             if String.length (rest (fst x)) <? String.length (rest st)
             then starLoop body greedy n' (fst x) (snd x) else [])
          (body st c) in
      if greedy then more ++ [(st, c)] else (st, c) :: more
  end.

Fixpoint matches (r : re) (st : state) (c : caps) : list (state * caps) :=
  match r with
  | Eps => [(st, c)]
  | Chr p =>
      match rest st with
      | String a s' => if p a then [(State (S (pos st)) s', c)] else []
      | EmptyString => []
      end
  | Seq r1 r2 =>
      flat_map (fun x => matches r2 (fst x) (snd x)) (matches r1 st c)
  | Alt r1 r2 => matches r1 st c ++ matches r2 st c
  | Star greedy r' =>
      starLoop (matches r') greedy (S (String.length (rest st))) st c
  | Group n r' =>
      map (fun x => (fst x, (n, consumed st (fst x)) :: snd x))
          (matches r' st c)
  | Bos => if pos st =? 0 then [(st, c)] else []
  | Eos => match rest st with EmptyString => [(st, c)] | _ => [] end
  end.

(** A match: where it starts, the text it covers and its groups. *)
Record found : Type :=
  Found { m_start : nat; m_text : string; m_caps : caps }.

(** The leftmost match: the first start position at which the expression
    matches, and there the first way to match. *)
Fixpoint findFrom (r : re) (p : nat) (s : string) : option found :=
  match matches r (State p s) [] with
  | (st', c) :: _ => Some (Found p (consumed (State p s) st') c)
  | [] =>
      match s with
      | EmptyString => None
      | String _ s' => findFrom r (S p) s'
      end
  end.

Definition find (r : re) (s : string) : option found := findFrom r 0 s.

Definition MatchString (r : re) (s : string) : bool :=
  match find r s with Some _ => true | None => false end.

(** The text of group [n] in a match, empty when the group took no part. *)
Fixpoint group (n : nat) (c : caps) : string :=
  match c with
  | [] => EmptyString
  | (k, s) :: c' => if k =? n then s else group n c'
  end.

(** [FindStringSubmatch(s)[n]] for [n >= 1], on a string that matches. *)
Definition submatch (r : re) (s : string) (n : nat) : string :=
  match find r s with
  | Some m => group n (m_caps m)
  | None => EmptyString
  end.

(** [Split(s, 2)] for an expression that matches no empty string: the text
    before the leftmost match and the text after it. *)
Definition Split2 (r : re) (s : string) : list string :=
  match find r s with
  | Some m =>
      [Strings.take (m_start m) s;
       Strings.drop (m_start m + String.length (m_text m)) s]
  | None => [s]
  end.

(** Syntax of the expressions used by the engine. *)
Fixpoint lit (s : string) : re :=
  match s with
  | EmptyString => Eps
  | String a s' => Seq (Chr (Ascii.eqb a)) (lit s')
  end.

Definition plus (r : re) : re := Seq r (Star true r).
Definition opt (r : re) : re := Alt r Eps.

(** [\s] is [[\t\n\f\r ]], [\w] is [[0-9A-Za-z_]] and [.] is any byte but
    the line feed. *)
Definition space (a : ascii) : bool :=
  let n := nat_of_ascii a in
  (n =? 9) || (n =? 10) || (n =? 12) || (n =? 13) || (n =? 32).

Definition word (a : ascii) : bool :=
  let n := nat_of_ascii a in
  ((48 <=? n) && (n <=? 57)) || ((65 <=? n) && (n <=? 90))
  || ((97 <=? n) && (n <=? 122)) || (n =? 95).

Definition any (a : ascii) : bool := negb (nat_of_ascii a =? 10).

End Regexp.

Import Regexp(re(..)).

(** ** Tokens (second part of [eval.go]) *)

Inductive TokenType : Type :=
| TText | TVar | TIf | TElseIf | TElse | TEndIf
| TFor | TEndFor | TSwitch | TCase | TDefault | TEndSwitch.

#[global] Instance TokenType_eq_dec : EqDecision TokenType.
Proof. solve_decision. Defined.

Record Token : Type := mkToken {
  Type_ : TokenType;
  Value : string;     (* for Var: name; for If/For/Switch/Case: expression *)
  Default : string;   (* for Var: default literal, if provided *)
  Raw : string        (* raw tag text *)
}.

Module Patterns.
Import Regexp.

Definition cat (rs : list re) : re := fold_right Seq Eps rs.

Definition s_star : re := Star true (Chr space).
Definition s_plus : re := plus (Chr space).
Definition dot_plus : re := plus (Chr any).
Definition w_plus : re := plus (Chr word).
Definition dquote : string := String "034"%char EmptyString.

(** The pattern [^\s*(\w+(?:\.\w+)* )(?:\s*\|\s*Q(.*?)Q)?\s*$], written
    here with a blank before the first closing parenthesis and with Q for
    the double quote. *)
Definition varPattern : re :=
  cat [Bos; s_star;
       Group 1 (cat [w_plus; Star true (cat [lit "."; w_plus])]);
       opt (cat [s_star; lit "|"; s_star; lit dquote;
                 Group 2 (Star false (Chr any)); lit dquote]);
       s_star; Eos].
(** [^if\s+(.+)$] *)
Definition ifPattern : re := cat [Bos; lit "if"; s_plus; Group 1 dot_plus; Eos].
(** [^elseif\s+(.+)$] *)
Definition elseifPattern : re :=
  cat [Bos; lit "elseif"; s_plus; Group 1 dot_plus; Eos].
(** [^else$] *)
Definition elsePattern : re := cat [Bos; lit "else"; Eos].
(** [^/if$] *)
Definition endifPattern : re := cat [Bos; lit "/if"; Eos].
(** [^for\s+(.+)\s+in\s+(.+)$] *)
Definition forPattern : re :=
  cat [Bos; lit "for"; s_plus; Group 1 dot_plus; s_plus; lit "in"; s_plus;
       Group 2 dot_plus; Eos].
(** [^/for$] *)
Definition endforPattern : re := cat [Bos; lit "/for"; Eos].
(** [^switch\s+(.+)$] *)
Definition switchPattern : re :=
  cat [Bos; lit "switch"; s_plus; Group 1 dot_plus; Eos].
(** [^case\s+(.+)$] *)
Definition casePattern : re :=
  cat [Bos; lit "case"; s_plus; Group 1 dot_plus; Eos].
(** [^default$] *)
Definition defaultPattern : re := cat [Bos; lit "default"; Eos].
(** [^/switch$] *)
Definition endswitchPattern : re := cat [Bos; lit "/switch"; Eos].

(** [\s*(==|!=|>=|<=|>|<)\s*], of the expression evaluator. *)
Definition compOpRe : re :=
  cat [s_star;
       Group 1 (Alt (lit "==") (Alt (lit "!=") (Alt (lit ">=")
               (Alt (lit "<=") (Alt (lit ">") (lit "<"))))));
       s_star].
End Patterns.

Import Patterns.

(** The [switch] of [tokenize]: the token of one tag. *)
Definition tagToken (tag : string) : Token :=
  let m := Regexp.submatch in
  if Regexp.MatchString ifPattern tag then
    mkToken TIf (m ifPattern tag 1) "" tag
  else if Regexp.MatchString elseifPattern tag then
    mkToken TElseIf (m elseifPattern tag 1) "" tag
  else if Regexp.MatchString elsePattern tag then mkToken TElse "" "" tag
  else if Regexp.MatchString endifPattern tag then mkToken TEndIf "" "" tag
  else if Regexp.MatchString forPattern tag then
    (* m[1] could be "idx, item" or "item" *)
    mkToken TFor
      (Strings.TrimSpace (m forPattern tag 1) +:+ ":"
         +:+ Strings.TrimSpace (m forPattern tag 2)) "" tag
  else if Regexp.MatchString endforPattern tag then mkToken TEndFor "" "" tag
  else if Regexp.MatchString switchPattern tag then
    mkToken TSwitch (m switchPattern tag 1) "" tag
  else if Regexp.MatchString casePattern tag then
    mkToken TCase (m casePattern tag 1) "" tag
  else if Regexp.MatchString defaultPattern tag then mkToken TDefault "" "" tag
  else if Regexp.MatchString endswitchPattern tag then
    mkToken TEndSwitch "" "" tag
  else if Regexp.MatchString varPattern tag then
    mkToken TVar (m varPattern tag 1) (m varPattern tag 2) tag
  else
    (* treat as text containing the tag (unknown tag kept) *)
    mkToken TText ("<{" +:+ tag +:+ "}>") "" tag.

(** The body of the loop of [tokenize]: the tokens of one part. *)
Definition tokenizePart (part : string) : list Token :=
  if String.eqb part "" then []
  else
    match Strings.SplitN2 part "}>" with
    | [tag0; rest] =>
        tagToken (Strings.TrimSpace tag0)
          :: (if negb (String.eqb rest "") then [mkToken TText rest "" ""]
              else [])
    | _ =>
        (* trailing text without closing tag *)
        [mkToken TText ("<{" +:+ part) "" ""]
    end.

Definition tokenize (input : string) : list Token :=
  flat_map tokenizePart (Strings.Split input "<{").


(** ** Values, errors and the Go library (first part of [eval.go]) *)

(** What an [interface{}] of the data context holds: nil, a boolean, an
    integer, a float, a string, a slice, a string-keyed map or a struct.  A
    struct is the list of its fields, each with its name, whether the name
    is exported, and its value.  A map that is a value of the context is
    only ever read, so it is a value here; the maps that the code writes to
    live in a [heap] (below). *)
#[warnings="-register-all"]
Inductive value : Type :=
| VNil
| VBool (b : bool)
| VInt (z : Z)
| VFloat (f : float)
| VStr (s : string)
| VList (l : list value)
| VMap (m : gmap string value)
| VStruct (fields : list (string * bool * value)).

Inductive Error : Type :=
| ErrUnknownLogical (op : string)              (* unknown logical operator %s *)
| ErrInvalidComparison (cond : string)         (* invalid comparison in '%s' *)
| ErrUnsupportedComparison (a b : value)       (* unsupported comparison ... *)
| ErrUnexpectedToken (t : TokenType) (i : nat) (raw : string)
| ErrUnexpectedInIf (t : TokenType)            (* unexpected token inside if *)
| ErrUnexpectedInFor (t : TokenType)           (* unexpected token in for *)
| ErrUnexpectedInSwitch (t : TokenType)        (* unexpected token in switch *)
| ErrInvalidFor (raw : string)                 (* invalid for tag: %s *)
| ErrUnclosedIf (start : nat)                  (* unclosed if starting at token %d *)
| ErrUnclosedFor (start : nat)
| ErrUnclosedSwitch (start : nat)
| ErrStat (path : string)                      (* the error of os.Stat *)
| ErrReadFile (path : string).                 (* the error of os.ReadFile *)

(** The outcome of a call that returns [(T, error)]: a value with a nil
    error, an error, or a run-time panic (an index out of range, or a field
    that [reflect] may not read), which no caller in this package recovers
    from. *)
Inductive Result (A : Type) : Type :=
| OK (a : A)
| Err (e : Error)
| Panic.
Arguments OK {A} a.
Arguments Err {A} e.
Arguments Panic {A}.

#[global] Instance Result_bind : MBind Result := fun A B k r =>
  match r with
  | OK a => k a
  | Err e => Err e
  | Panic => Panic
  end.

#[global] Instance Result_fmap : FMap Result := fun A B f r =>
  match r with
  | OK a => OK (f a)
  | Err e => Err e
  | Panic => Panic
  end.

(** The functions of [strconv] that are not modelled here: their results
    are taken as given. *)
Class Strconv : Type := {
  ParseFloat : string -> option float;   (* strconv.ParseFloat(s, 64), nil error *)
  FormatFloat : float -> string;         (* the %v form of a float64 *)
  Unquote : string -> option string      (* strconv.Unquote, nil error *)
}.

Module Strconv_.

Definition digit (a : ascii) : option Z :=
  let n := nat_of_ascii a in
  if (48 <=? n) && (n <=? 57) then Some (Z.of_nat (n - 48)) else None.

Fixpoint digits (acc : Z) (s : string) : option Z :=
  match s with
  | EmptyString => Some acc
  | String a s' =>
      match digit a with
      | Some d => digits (10 * acc + d) s'
      | None => None
      end
  end.

(** [strconv.Atoi] with a nil error: an optional sign, one digit or more,
    and a value in the range of a 64-bit [int]. *)
Definition Atoi (s : string) : option Z :=
  let signed (neg : bool) (ds : string) :=
    match ds with
    | EmptyString => None
    | _ =>
        match digits 0 ds with
        | Some n =>
            let z := if neg then (- n)%Z else n in
            if ((- 2 ^ 63 <=? z) && (z <? 2 ^ 63))%Z then Some z else None
        | None => None
        end
    end in
  match s with
  | String "-" ds => signed true ds
  | String "+" ds => signed false ds
  | _ => signed false s
  end.

(** The decimal form of an integer, as [%v] prints it. *)
Definition Itoa (z : Z) : string := NilZero.string_of_int (Z.to_int z).

(** [float64(t)] for an integer [t] of at most 64 bits: the two halves
    convert exactly and the sum rounds once. *)
Definition float_of_int (z : Z) : float :=
  let a := Z.abs z in
  let f := (PrimFloat.of_uint63 (Uint63.of_Z (a / 2 ^ 32))
              * PrimFloat.of_uint63 (Uint63.of_Z (2 ^ 32))
            + PrimFloat.of_uint63 (Uint63.of_Z (a mod 2 ^ 32)))%float in
  if (z <? 0)%Z then (- f)%float else f.

End Strconv_.

Module Fmt.

Fixpoint join (sep : string) (l : list string) : string :=
  match l with
  | [] => ""
  | [x] => x
  | x :: l' => x +:+ sep +:+ join sep l'
  end.

Fixpoint insertKey (kv : string * string) (l : list (string * string))
  : list (string * string) :=
  match l with
  | [] => [kv]
  | kv' :: l' =>
      if Strings.ltb (fst kv') (fst kv) then kv' :: insertKey kv l'
      else kv :: l
  end.

Definition sortKeys (l : list (string * string)) : list (string * string) :=
  fold_right insertKey [] l.

(** [fmt.Sprintf("%v", v)]: a map prints its entries in key order, a struct
    its field values. *)
Fixpoint Sprint `{Strconv} (v : value) : string :=
  match v with
  | VNil => "<nil>"
  | VBool b => if b then "true" else "false"
  | VInt z => Strconv_.Itoa z
  | VFloat f => FormatFloat f
  | VStr s => s
  | VList l => "[" +:+ join " " (map Sprint l) +:+ "]"
  | VMap m =>
      "map["
        +:+ join " " (map (fun kv => fst kv +:+ ":" +:+ snd kv)
                          (sortKeys (map_to_list (Sprint <$> m))))
        +:+ "]"
  | VStruct fields =>
      "{" +:+ join " " (map (fun f => Sprint f.2) fields) +:+ "}"
  end.

End Fmt.

(** ** Expression evaluator *)

(** The locations of the maps that are written to, the heap that gives
    their contents, and a map variable: a location or the nil map. *)
Abbreviation loc := positive (only parsing).
Abbreviation heap := (gmap positive (gmap string value)) (only parsing).
Abbreviation mapref := (option positive) (only parsing).

Section Evaluator.
Context `{Strconv}.

Definition squote : string := String "039"%char EmptyString.

Definition isQuoted (p : string) : bool :=
  (Strings.HasPrefix p dquote && Strings.HasSuffix p dquote)
  || (Strings.HasPrefix p squote && Strings.HasSuffix p squote).

(** One step of the loop of [lookup]: the value under [seg] in [cur],
    [None] when there is none.  In a struct, [FieldByName] finds the field
    of that name, and [Interface] panics when the field is not exported. *)
Definition lookupSeg (cur : value) (seg : string)
  : Result (option value) :=
  match cur with
  | VMap node => OK (node !! seg)
  | VStruct fields =>
      match List.find (fun f => String.eqb f.1.1 seg) fields with
      | Some f => if f.1.2 then OK (Some f.2) else Panic
      | None => OK None
      end
  | _ => OK None
  end.

Fixpoint lookupPath (cur : value) (parts : list string)
  : Result (option value) :=
  match parts with
  | [] => OK (Some cur)
  | seg :: parts' =>
      match lookupSeg cur seg with
      | OK (Some v) => lookupPath v parts'
      | r => r
      end
  end.

(** [lookup]: [OK (Some v)] is [(v, true)] and [OK None] is
    [(nil, false)]. *)
Definition lookup (data : gmap string value) (path : string)
  : Result (option value) :=
  let p := Strings.TrimSpace path in
  if String.eqb p "" then OK None
  else
    match (if isQuoted p then Unquote p else None) with
    | Some unq => OK (Some (VStr unq))
    | None =>
        match Strconv_.Atoi p with
        | Some i => OK (Some (VInt i))
        | None =>
            match ParseFloat p with
            | Some f => OK (Some (VFloat f))
            | None =>
                if String.eqb p "true" then OK (Some (VBool true))
                else if String.eqb p "false" then OK (Some (VBool false))
                else lookupPath (VMap data) (Strings.Split p ".")
            end
        end
    end.

Definition lookupVal (data : gmap string value) (path : string)
  : Result value :=
  default VNil <$> lookup data path.

(** [s[1 : len(s)-1]], which panics on a string of one byte. *)
Definition unwrap (s : string) : Result string :=
  if String.length s <? 2 then Panic
  else OK (Strings.take (String.length s - 2) (Strings.drop 1 s)).

Definition literalFromString (s0 : string) : Result value :=
  let s := Strings.TrimSpace s0 in
  if isQuoted s then
    match Unquote s with
    | Some unq => OK (VStr unq)
    | None => VStr <$> unwrap s
    end
  else if String.eqb s "true" then OK (VBool true)
  else if String.eqb s "false" then OK (VBool false)
  else
    match Strconv_.Atoi s with
    | Some i => OK (VInt i)
    | None =>
        match ParseFloat s with
        | Some f => OK (VFloat f)
        | None => OK (VStr s)
        end
    end.

(** [v, ok := lookup(data, s); if !ok { v = literalFromString(s) }] *)
Definition operand (data : gmap string value) (s : string) : Result value :=
  found ← lookup data s;
  match found with
  | Some v => OK v
  | None => literalFromString s   (* try literal *)
  end.

Definition toFloat (v : value) : option float :=
  match v with
  | VInt t => Some (Strconv_.float_of_int t)
  | VFloat t => Some t
  | _ =>
      (* try parse from string *)
      let s := Fmt.Sprint v in
      if negb (String.eqb s "") then ParseFloat s else None
  end.

Definition compareValues (a b : value) (op : string) : Result bool :=
  let numeric : option bool :=
    match toFloat a, toFloat b with
    | Some af, Some bf =>
        if String.eqb op "==" then Some (PrimFloat.eqb af bf)
        else if String.eqb op "!=" then Some (negb (PrimFloat.eqb af bf))
        else if String.eqb op ">" then Some (PrimFloat.ltb bf af)
        else if String.eqb op "<" then Some (PrimFloat.ltb af bf)
        else if String.eqb op ">=" then Some (PrimFloat.leb bf af)
        else if String.eqb op "<=" then Some (PrimFloat.leb af bf)
        else None
    | _, _ => None
    end in
  let boolean : option bool :=
    match a, b with
    | VBool ab, VBool bb =>
        if String.eqb op "==" then Some (Bool.eqb ab bb)
        else if String.eqb op "!=" then Some (negb (Bool.eqb ab bb))
        else None
    | _, _ => None
    end in
  match numeric with
  | Some r => OK r
  | None =>
      match boolean with
      | Some r => OK r
      | None =>
          (* string compare *)
          let as_ := Fmt.Sprint a in
          let bs := Fmt.Sprint b in
          if String.eqb op "==" then OK (String.eqb as_ bs)
          else if String.eqb op "!=" then OK (negb (String.eqb as_ bs))
          else if String.eqb op ">" then OK (Strings.ltb bs as_)
          else if String.eqb op "<" then OK (Strings.ltb as_ bs)
          else if String.eqb op ">=" then OK (negb (Strings.ltb as_ bs))
          else if String.eqb op "<=" then OK (negb (Strings.ltb bs as_))
          else Err (ErrUnsupportedComparison a b)
      end
  end.

Definition condTruthy (v : value) : bool :=
  match v with
  | VNil => false
  | VBool t => t
  | VStr t => negb (String.eqb t "")
  | VInt t => negb (t =? 0)%Z
  | VFloat t => negb (PrimFloat.eqb t 0%float)
  | VList l => 0 <? length l
  | VMap m => 0 <? size m
  | VStruct _ => true
  end.

Definition evalSimpleCond (cond : string) (data : gmap string value)
  : Result bool :=
  if Regexp.MatchString compOpRe cond then
    let op := Regexp.submatch compOpRe cond 1 in
    match Regexp.Split2 compOpRe cond with
    | [part0; part1] =>
        let left := Strings.TrimSpace part0 in
        let right := Strings.TrimSpace part1 in
        lv ← operand data left;
        rv ← operand data right;
        compareValues lv rv op
    | _ => Err (ErrInvalidComparison cond)
    end
  else
    (* no operator => truthy check of the expression *)
    condTruthy <$> operand data cond.

(** The loop of [splitLogical] over the remaining [words]; [parts] and
    [cur] are the variables of the source. *)
Fixpoint splitLogicalLoop (parts : list string) (cur : string)
    (words : list string) : list string :=
  match words with
  | [] =>
      if negb (String.eqb cur "") then parts ++ [Strings.TrimSpace cur]
      else parts
  | w :: words' =>
      if String.eqb w "and" || String.eqb w "or" then
        splitLogicalLoop (parts ++ [Strings.TrimSpace cur] ++ [w]) "" words'
      else if String.eqb cur "" then splitLogicalLoop parts w words'
      else splitLogicalLoop parts (cur +:+ " " +:+ w) words'
  end.

Definition splitLogical (expr : string) : list string :=
  let low := Strings.TrimSpace expr in
  splitLogicalLoop [] "" (Strings.Fields low).

(** The loop of [evalCondition] from index [i]; [rest] is [tokens[i:]].
    Reading [tokens[i+1]] past the end is a run-time panic. *)
Fixpoint evalConditionLoop (res : bool) (rest : list string)
    (data : gmap string value) : Result bool :=
  match rest with
  | [] => OK res
  | [_] => Panic
  | op0 :: next :: rest' =>
      let op := Strings.TrimSpace op0 in
      let nextExpr := Strings.TrimSpace next in
      nextRes ← evalSimpleCond nextExpr data;
      if String.eqb op "and" then
        evalConditionLoop (res && nextRes) rest' data
      else if String.eqb op "or" then
        evalConditionLoop (res || nextRes) rest' data
      else Err (ErrUnknownLogical op)
  end.

Definition evalCondition (expr : string) (data : gmap string value)
  : Result bool :=
  match splitLogical expr with
  | [] => OK false      (* treat empty as false *)
  | first :: rest =>
      res ← evalSimpleCond (Strings.TrimSpace first) data;
      evalConditionLoop res rest data
  end.

(** *** Maps that are written to

    A [map[string]interface{}] variable is a reference; [heap] gives the
    contents of every allocated map and the nil map is [None].  A function
    that only reads its map is a function of the contents of the map. *)

Definition contents (h : heap) (m : mapref) : gmap string value :=
  match m with
  | Some l => default ∅ (h !! l)
  | None => ∅
  end.

(** [make(map[string]interface{}, _)] *)
Definition makeMap (h : heap) : loc * heap :=
  let l := fresh (dom h) in (l, <[l := ∅]> h).

(** [m[k] = v] on an allocated map. *)
Definition store (h : heap) (l : loc) (k : string) (v : value) : heap :=
  <[l := <[k := v]> (default ∅ (h !! l))]> h.

Definition shallowCopyMap (h : heap) (m : mapref) : loc * heap :=
  let (n, h1) := makeMap h in
  (n, map_fold (fun k v h' => store h' n k v) h1 (contents h m)).

Definition evalConditionWithValue (condExpr : string) (v : value)
    (data : mapref) (h : heap) : Result bool * heap :=
  let (tmp, h1) := shallowCopyMap h data in
  let h2 := store h1 tmp "__switch__" v in
  let tmpc := contents h2 (Some tmp) in
  if Regexp.MatchString compOpRe condExpr then
    (evalCondition condExpr tmpc, h2)
  else
    match literalFromString (Strings.TrimSpace condExpr) with
    | OK lit =>
        match compareValues v lit "==" with
        | OK true => (OK true, h2)
        | _ =>
            (* try comparing string form *)
            if String.eqb (Fmt.Sprint v) (Fmt.Sprint lit) then (OK true, h2)
            else
              match evalCondition condExpr tmpc with
              | OK res => (OK res, h2)
              | Err _ => (OK false, h2)
              | Panic => (Panic, h2)
              end
        end
    | Err e => (Err e, h2)
    | Panic => (Panic, h2)
    end.

End Evaluator.

(** ** AST nodes *)

(** Modelled from the spec: the declarations of the node types, which are
    not among the sources.  The variants are those of the spec's data model
    (Text, Variable, If, For, Switch) and the fields are the ones that the
    composite literals of [compileTokens], [parseIf], [parseFor] and
    [parseSwitch] fill in.  A branch of an [IfNode] and a case of a
    [SwitchNode] are pairs of the expression and the body. *)
#[warnings="-register-all"]
Inductive Node : Type :=
| TextNode (Text : string)
| VarNode (Name : string) (Default_ : string) (Filters : list string)
| IfNode (Branches : list (string * list Node)) (Else : list Node)
| ForNode (IndexVar ItemVar ListExpr : string) (Body : list Node)
| SwitchNode (Expr : string) (Cases : list (string * list Node))
             (Default_ : list Node).

(** ** Parser

    The parsing functions call each other with a cursor that only moves
    forward; [fuel] bounds the number of loop iterations and nested calls,
    and [None] is a run that used it up ([compileTokens] below gives
    enough).  The variable [depth] of the source is [0] throughout, since it
    is only assigned under [depth != 0], so the branches it guards are left
    out. *)

Definition step {A B : Type} (r : option (Result A))
    (k : A -> option (Result B)) : option (Result B) :=
  match r with
  | Some (OK a) => k a
  | Some (Err e) => Some (Err e)
  | Some Panic => Some Panic
  | None => None
  end.

(** State of the loop of [parseIf]: [currentBody] points to the body of the
    last branch, or to [elseBody] when [inElse]. *)
Record IfState : Type := mkIfState {
  branches : list (string * list Node);
  elseBody : list Node;
  inElse : bool
}.

(** [*currentBody = append( *currentBody, n)] *)
Definition appendCurrent (st : IfState) (n : Node) : IfState :=
  if inElse st then mkIfState (branches st) (elseBody st ++ [n]) true
  else
    match List.rev (branches st) with
    | (e, body) :: rbs =>
        mkIfState (List.rev rbs ++ [(e, body ++ [n])]) (elseBody st) false
    | [] => st
    end.

Record ForState : Type := mkForState {
  IndexVar_ : string;
  ItemVar_ : string;
  ListExpr_ : string;
  Body_ : list Node
}.

Definition appendBody (node : ForState) (n : Node) : ForState :=
  mkForState (IndexVar_ node) (ItemVar_ node) (ListExpr_ node)
             (Body_ node ++ [n]).

Record SwitchState : Type := mkSwitchState {
  Expr_ : string;
  Cases_ : list (string * list Node);
  SDefault : list Node;
  currentCond : string;
  currentBody : list Node
}.

Definition appendCase (st : SwitchState) (n : Node) : SwitchState :=
  mkSwitchState (Expr_ st) (Cases_ st) (SDefault st) (currentCond st)
                (currentBody st ++ [n]).

Definition flushCase (st : SwitchState) : SwitchState :=
  if negb (String.eqb (currentCond st) "") then
    mkSwitchState (Expr_ st) (Cases_ st ++ [(currentCond st, currentBody st)])
                  (SDefault st) "" []
  else if 0 <? length (currentBody st) then
    mkSwitchState (Expr_ st) (Cases_ st) (currentBody st) "" []
  else mkSwitchState (Expr_ st) (Cases_ st) (SDefault st) "" [].

(** The header of [parseFor]: index variable, item variable and list
    expression of a [TFor] token. *)
Definition forHeader (t : Token) : Result ForState :=
  match Strings.SplitN2 (Value t) ":" with
  | [part0; part1] =>
      let left := Strings.TrimSpace part0 in
      let listExpr := Strings.TrimSpace part1 in
      if Strings.Contains left "," then
        match Strings.SplitN2 left "," with
        | [p0; p1] =>
            OK (mkForState (Strings.TrimSpace p0) (Strings.TrimSpace p1)
                           listExpr [])
        | _ => Panic
        end
      else OK (mkForState "" left listExpr [])
  | _ => Err (ErrInvalidFor (Raw t))
  end.

Fixpoint parseIfLoop (fuel : nat) (tokens : list Token) (start i : nat)
    (st : IfState) {struct fuel} : option (Result (Node * nat)) :=
  match fuel with
  | 0 => None
  | S fuel' =>
      let parseIf (s : nat) :=
        match tokens !! s with
        | Some t =>
            parseIfLoop fuel' tokens s (s + 1)
                        (mkIfState [(Value t, [])] [] false)
        | None => Some Panic
        end in
      let parseFor (s : nat) :=
        match tokens !! s with
        | Some t =>
            match forHeader t with
            | OK node => parseForLoop fuel' tokens s (s + 1) node
            | Err e => Some (Err e)
            | Panic => Some Panic
            end
        | None => Some Panic
        end in
      let parseSwitch (s : nat) :=
        match tokens !! s with
        | Some t =>
            parseSwitchLoop fuel' tokens s (s + 1)
                            (mkSwitchState (Value t) [] [] "" [])
        | None => Some Panic
        end in
      match tokens !! i with
      | None => Some (Err (ErrUnclosedIf start))
      | Some t =>
          match Type_ t with
          | TIf =>
              step (parseIf i) (fun '(nested, ni) =>
              parseIfLoop fuel' tokens start ni (appendCurrent st nested))
          | TEndIf =>
              Some (OK (IfNode (branches st) (elseBody st), i + 1))
          | TElseIf =>
              parseIfLoop fuel' tokens start (i + 1)
                (mkIfState (branches st ++ [(Value t, [])]) (elseBody st) false)
          | TElse =>
              parseIfLoop fuel' tokens start (i + 1)
                (mkIfState (branches st) [] true)
          | TFor =>
              step (parseFor i) (fun '(fnode, ni) =>
              parseIfLoop fuel' tokens start ni (appendCurrent st fnode))
          | TSwitch =>
              step (parseSwitch i) (fun '(snode, ni) =>
              parseIfLoop fuel' tokens start ni (appendCurrent st snode))
          | TText =>
              parseIfLoop fuel' tokens start (i + 1)
                (appendCurrent st (TextNode (Value t)))
          | TVar =>
              parseIfLoop fuel' tokens start (i + 1)
                (appendCurrent st (VarNode (Value t) (Default t) []))
          | ty => Some (Err (ErrUnexpectedInIf ty))
          end
      end
  end

with parseForLoop (fuel : nat) (tokens : list Token) (start i : nat)
    (node : ForState) {struct fuel} : option (Result (Node * nat)) :=
  match fuel with
  | 0 => None
  | S fuel' =>
      let parseIf (s : nat) :=
        match tokens !! s with
        | Some t =>
            parseIfLoop fuel' tokens s (s + 1)
                        (mkIfState [(Value t, [])] [] false)
        | None => Some Panic
        end in
      let parseFor (s : nat) :=
        match tokens !! s with
        | Some t =>
            match forHeader t with
            | OK node => parseForLoop fuel' tokens s (s + 1) node
            | Err e => Some (Err e)
            | Panic => Some Panic
            end
        | None => Some Panic
        end in
      let parseSwitch (s : nat) :=
        match tokens !! s with
        | Some t =>
            parseSwitchLoop fuel' tokens s (s + 1)
                            (mkSwitchState (Value t) [] [] "" [])
        | None => Some Panic
        end in
      match tokens !! i with
      | None => Some (Err (ErrUnclosedFor start))
      | Some t =>
          match Type_ t with
          | TFor =>
              step (parseFor i) (fun '(nf, ni) =>
              parseForLoop fuel' tokens start ni (appendBody node nf))
          | TEndFor =>
              Some (OK (ForNode (IndexVar_ node) (ItemVar_ node)
                                (ListExpr_ node) (Body_ node), i + 1))
          | TIf =>
              step (parseIf i) (fun '(ifn, ni) =>
              parseForLoop fuel' tokens start ni (appendBody node ifn))
          | TSwitch =>
              step (parseSwitch i) (fun '(sn, ni) =>
              parseForLoop fuel' tokens start ni (appendBody node sn))
          | TText =>
              parseForLoop fuel' tokens start (i + 1)
                (appendBody node (TextNode (Value t)))
          | TVar =>
              parseForLoop fuel' tokens start (i + 1)
                (appendBody node (VarNode (Value t) (Default t) []))
          | ty => Some (Err (ErrUnexpectedInFor ty))
          end
      end
  end

with parseSwitchLoop (fuel : nat) (tokens : list Token) (start i : nat)
    (st : SwitchState) {struct fuel} : option (Result (Node * nat)) :=
  match fuel with
  | 0 => None
  | S fuel' =>
      let parseIf (s : nat) :=
        match tokens !! s with
        | Some t =>
            parseIfLoop fuel' tokens s (s + 1)
                        (mkIfState [(Value t, [])] [] false)
        | None => Some Panic
        end in
      let parseFor (s : nat) :=
        match tokens !! s with
        | Some t =>
            match forHeader t with
            | OK node => parseForLoop fuel' tokens s (s + 1) node
            | Err e => Some (Err e)
            | Panic => Some Panic
            end
        | None => Some Panic
        end in
      let parseSwitch (s : nat) :=
        match tokens !! s with
        | Some t =>
            parseSwitchLoop fuel' tokens s (s + 1)
                            (mkSwitchState (Value t) [] [] "" [])
        | None => Some Panic
        end in
      match tokens !! i with
      | None => Some (Err (ErrUnclosedSwitch start))
      | Some t =>
          match Type_ t with
          | TSwitch =>
              step (parseSwitch i) (fun '(nn, ni) =>
              parseSwitchLoop fuel' tokens start ni (appendCase st nn))
          | TEndSwitch =>
              let st' := flushCase st in
              Some (OK (SwitchNode (Expr_ st') (Cases_ st') (SDefault st'),
                        i + 1))
          | TCase =>
              let st' := flushCase st in
              parseSwitchLoop fuel' tokens start (i + 1)
                (mkSwitchState (Expr_ st') (Cases_ st') (SDefault st')
                               (Value t) [])
          | TDefault =>
              let st' := flushCase st in
              parseSwitchLoop fuel' tokens start (i + 1)
                (mkSwitchState (Expr_ st') (Cases_ st') (SDefault st') "" [])
          | TIf =>
              step (parseIf i) (fun '(ifn, ni) =>
              parseSwitchLoop fuel' tokens start ni (appendCase st ifn))
          | TFor =>
              step (parseFor i) (fun '(fn, ni) =>
              parseSwitchLoop fuel' tokens start ni (appendCase st fn))
          | TText =>
              parseSwitchLoop fuel' tokens start (i + 1)
                (appendCase st (TextNode (Value t)))
          | TVar =>
              parseSwitchLoop fuel' tokens start (i + 1)
                (appendCase st (VarNode (Value t) (Default t) []))
          | ty => Some (Err (ErrUnexpectedInSwitch ty))
          end
      end
  end.

Definition parseIf (fuel : nat) (tokens : list Token) (start : nat)
  : option (Result (Node * nat)) :=
  match tokens !! start with
  | Some t =>
      parseIfLoop fuel tokens start (start + 1)
                  (mkIfState [(Value t, [])] [] false)
  | None => Some Panic
  end.

Definition parseFor (fuel : nat) (tokens : list Token) (start : nat)
  : option (Result (Node * nat)) :=
  match tokens !! start with
  | Some t =>
      match forHeader t with
      | OK node => parseForLoop fuel tokens start (start + 1) node
      | Err e => Some (Err e)
      | Panic => Some Panic
      end
  | None => Some Panic
  end.

Definition parseSwitch (fuel : nat) (tokens : list Token) (start : nat)
  : option (Result (Node * nat)) :=
  match tokens !! start with
  | Some t =>
      parseSwitchLoop fuel tokens start (start + 1)
                      (mkSwitchState (Value t) [] [] "" [])
  | None => Some Panic
  end.

(** The loop of [compileTokens] from index [i]. *)
Fixpoint compileLoop (fuel : nat) (tokens : list Token) (i : nat)
    (nodes : list Node) : option (Result (list Node)) :=
  match fuel with
  | 0 => None
  | S fuel' =>
      match tokens !! i with
      | None => Some (OK nodes)
      | Some t =>
          match Type_ t with
          | TText =>
              compileLoop fuel' tokens (i + 1) (nodes ++ [TextNode (Value t)])
          | TVar =>
              compileLoop fuel' tokens (i + 1)
                (nodes ++ [VarNode (Value t) (Default t) []])
          | TIf =>
              step (parseIf fuel' tokens i) (fun '(ifNode, ni) =>
              compileLoop fuel' tokens ni (nodes ++ [ifNode]))
          | TFor =>
              step (parseFor fuel' tokens i) (fun '(forNode, ni) =>
              compileLoop fuel' tokens ni (nodes ++ [forNode]))
          | TSwitch =>
              step (parseSwitch fuel' tokens i) (fun '(switchNode, ni) =>
              compileLoop fuel' tokens ni (nodes ++ [switchNode]))
          | ty => Some (Err (ErrUnexpectedToken ty i (Raw t)))
          end
      end
  end.

(** [compileTokens]: one unit of fuel per token and one more is enough
    ([compileLoop_fuel] below), so the last case is never taken. *)
Definition compileTokens (tokens : list Token) : Result (list Node) :=
  match compileLoop (S (length tokens)) tokens 0 [] with
  | Some r => r
  | None => Panic
  end.

(** ** Rendering of nodes *)

Section Render.
Context `{Strconv}.

(** Sequencing of two renderings that thread the heap. *)
Definition andThen (r : Result string * heap)
    (k : heap -> Result string * heap) : Result string * heap :=
  match r with
  | (OK s1, h1) =>
      match k h1 with
      | (OK s2, h2) => (OK (s1 +:+ s2), h2)
      | r2 => r2
      end
  | r1 => r1
  end.

(** Modelled from the spec: the method [Eval] of the nodes, which
    [Render] calls and whose source is not at hand.  Text is emitted
    unmodified.  A variable is resolved as a dotted path against the
    context: its textual form when found, otherwise the default literal if
    one was supplied and the empty text if not.  An if renders the body of
    the first branch whose condition is true, an evaluation error counting
    as false, otherwise the else body.  A for resolves the list expression
    (anything but a sequence gives no iteration) and renders the body once
    per item in a derived context, a copy of the caller's map in which the
    item variable and, if declared, the 0-based index variable are bound.
    A switch resolves its subject once and renders the body of the first
    matching case, otherwise the default body. *)
Fixpoint Eval (n : Node) (data : mapref) (h : heap) {struct n}
  : Result string * heap :=
  let evalNodes :=
    fix evalNodes (ns : list Node) (data : mapref) (h : heap)
      : Result string * heap :=
      match ns with
      | [] => (OK "", h)
      | n' :: ns' => andThen (Eval n' data h) (evalNodes ns' data)
      end in
  match n with
  | TextNode text => (OK text, h)
  | VarNode name def _ =>
      match lookup (contents h data) name with
      | OK (Some v) => (OK (Fmt.Sprint v), h)
      | OK None => (OK def, h)
      | Err e => (Err e, h)
      | Panic => (Panic, h)
      end
  | IfNode brs els =>
      (fix branchesLoop (brs : list (string * list Node))
         : Result string * heap :=
         match brs with
         | [] => evalNodes els data h
         | (e, body) :: brs' =>
             match evalCondition e (contents h data) with
             | OK true => evalNodes body data h
             | Panic => (Panic, h)
             | _ => branchesLoop brs'
             end
         end) brs
  | ForNode indexVar itemVar listExpr body =>
      match lookup (contents h data) listExpr with
      | OK (Some (VList items)) =>
          (fix itemsLoop (items : list value) (idx : Z) (h : heap)
             : Result string * heap :=
             match items with
             | [] => (OK "", h)
             | item :: items' =>
                 let (tmp, h1) := shallowCopyMap h data in
                 let h2 := store h1 tmp itemVar item in
                 let h3 := if negb (String.eqb indexVar "")
                           then store h2 tmp indexVar (VInt idx) else h2 in
                 andThen (evalNodes body (Some tmp) h3)
                         (itemsLoop items' (idx + 1)%Z)
             end) items 0%Z h
      | Err e => (Err e, h)
      | Panic => (Panic, h)
      | _ => (OK "", h)
      end
  | SwitchNode e cases def =>
      match lookupVal (contents h data) e with
      | OK subject =>
          (fix casesLoop (cases : list (string * list Node)) (h : heap)
             : Result string * heap :=
             match cases with
             | [] => evalNodes def data h
             | (cond, body) :: cases' =>
                 match evalConditionWithValue cond subject data h with
                 | (OK true, h') => evalNodes body data h'
                 | (Panic, h') => (Panic, h')
                 | (_, h') => casesLoop cases' h'
                 end
             end) cases h
      | Err e => (Err e, h)
      | Panic => (Panic, h)
      end
  end.

(** The loop of [Render] over [tpl.Nodes], writing to the builder. *)
Fixpoint evalNodes (ns : list Node) (data : mapref) (h : heap)
  : Result string * heap :=
  match ns with
  | [] => (OK "", h)
  | n :: ns' => andThen (Eval n data h) (evalNodes ns' data)
  end.

End Render.

(** ** Public API (third part of [eval.go]) *)

(** A compiled template; [ModTime] is the instant of the modification time,
    which is all that [time.Time.Equal] compares. *)
Record Template : Type := mkTemplate {
  Filepath : string;
  Nodes : list Node;
  ModTime : Z
}.

(** The file system as the calls of [Render] see it: [filepath.Abs],
    [os.Stat] (the modification time) and [os.ReadFile], each [None] on an
    error. *)
Record FileSystem : Type := mkFS {
  Abs : string -> option string;
  Stat : string -> option Z;
  ReadFile : string -> option string
}.

(** The calls made to the file system, oldest first. *)
Inductive Event : Type :=
| EvStat (path : string)
| EvReadFile (path : string).

(** The state around a call: the package variable [tplCache] and the trace
    of file-system calls. *)
Record World : Type := mkWorld {
  tplCache : gmap string Template;
  trace : list Event
}.

Definition logEvent (e : Event) (w : World) : World :=
  mkWorld (tplCache w) (trace w ++ [e]).

(** The second half of [getOrCompile], after the cache check: read the
    file, compile it and store the new template. *)
Definition compileFile (fs : FileSystem) (path : string) (mod_ : Z)
    (w : World) : Result Template * World :=
  let w := logEvent (EvReadFile path) w in
  match ReadFile fs path with
  | None => (Err (ErrReadFile path), w)
  | Some content =>
      let tokens := tokenize content in
      match compileTokens tokens with
      | OK nodes =>
          let newTpl := mkTemplate path nodes mod_ in
          (OK newTpl, mkWorld (<[path := newTpl]> (tplCache w)) (trace w))
      | Err e => (Err e, w)
      | Panic => (Panic, w)
      end
  end.

(** [getOrCompile]: cache check and compile. *)
Definition getOrCompile (fs : FileSystem) (path : string) (w : World)
  : Result Template * World :=
  let w := logEvent (EvStat path) w in
  match Stat fs path with
  | None => (Err (ErrStat path), w)
  | Some mod_ =>
      match tplCache w !! path with
      | Some tpl =>
          if (ModTime tpl =? mod_)%Z then (OK tpl, w)
          else compileFile fs path mod_ w
      | None => compileFile fs path mod_ w
      end
  end.

Section RenderAPI.
Context `{Strconv}.

(** [Render]: the rendered text or the error, with the state of the cache,
    of the trace and of the heap after the call. *)
Definition Render (fs : FileSystem) (file : string) (data : mapref)
    (w : World) (h : heap) : Result string * World * heap :=
  let abs := match Abs fs file with Some a => a | None => file end in
  match getOrCompile fs abs w with
  | (OK tpl, w') =>
      let (out, h') := evalNodes (Nodes tpl) data h in (out, w', h')
  | (Err e, w') => (Err e, w', h)
  | (Panic, w') => (Panic, w', h)
  end.

End RenderAPI.

(** ** An instance of the library for examples

    [exampleStrconv] agrees with Go on the literals that the examples use:
    it parses the decimal integers as floats, prints no float, and unquotes
    a double-quoted string that has no backslash and no inner quote. *)
Module Example.

Fixpoint plain (s : string) : bool :=
  match s with
  | EmptyString => true
  | String a s' =>
      negb (Ascii.eqb a "034") && negb (Ascii.eqb a "092")
      && negb (Ascii.eqb a "010") && plain s'
  end.

Definition exampleUnquote (s : string) : option string :=
  let inner := Strings.take (String.length s - 2) (Strings.drop 1 s) in
  if Strings.HasPrefix s dquote && Strings.HasSuffix s dquote
     && (2 <=? String.length s) && plain inner
  then Some inner else None.

Definition exampleStrconv : Strconv := {|
  ParseFloat s := Strconv_.float_of_int <$> Strconv_.Atoi s;
  FormatFloat _ := "";
  Unquote := exampleUnquote
|}.

(** A file system with one file. *)
Definition oneFile (path : string) (mod_ : Z) (content : string)
  : FileSystem := {|
  Abs p := Some p;
  Stat p := if String.eqb p path then Some mod_ else None;
  ReadFile p := if String.eqb p path then Some content else None
|}.

Definition emptyWorld : World := mkWorld ∅ [].

(** The no-break space U+00A0 and the ideographic space U+3000, in
    UTF-8. *)
Definition nbsp : string := String "194" (String "160" "").
Definition ideographicSpace : string :=
  String "227" (String "128" (String "128" "")).

End Example.

(** * Definitions for the statements *)

(** ** Strings and words *)

(** Every byte of the string is in the class. *)
Fixpoint all (p : ascii -> bool) (s : string) : bool :=
  match s with
  | EmptyString => true
  | String a s' => p a && all p s'
  end.

(** No white-space rune starts at any byte of the string. *)
Fixpoint noSpace (s : string) : bool :=
  match s with
  | EmptyString => true
  | String _ s' => (Strings.spaceWidth s =? 0) && noSpace s'
  end.

(** A word: not empty and without white space. *)
Definition isWord (w : string) : bool :=
  negb (String.eqb w "") && noSpace w.

(** A word that is no logical keyword. *)
Definition plainWord (w : string) : bool :=
  isWord w && negb (String.eqb w "and") && negb (String.eqb w "or").

(** A string that starts with a rune that is no white space. *)
Definition startsNonSpace (s : string) : bool :=
  match s with
  | String _ _ => Strings.spaceWidth s =? 0
  | EmptyString => false
  end.

(** A string that ends with a rune that is no white space. *)
Definition endsNonSpace (s : string) : bool :=
  match s with
  | String _ _ => Strings.spaceWidthLast (Strings.rev s) =? 0
  | EmptyString => false
  end.

(** A byte of the ASCII range. *)
Definition lowByte (a : ascii) : bool := nat_of_ascii a <? 128.

(** A string that is empty or starts with a byte of the ASCII range: no
    rune reaches into it from the text in front of it. *)
Definition startsLow (s : string) : bool :=
  match s with
  | String a _ => lowByte a
  | EmptyString => true
  end.

(** The words of an operand of a chained condition: one word or more, none
    of them a keyword. *)
Definition operandWords (ws : list string) : Prop :=
  ws <> [] /\ forallb plainWord ws = true.

(** ** Regular expressions *)

(** The states that a greedy iteration of one byte class offers, longest
    run first. *)
Fixpoint greedyRun (p : ascii -> bool) (q : nat) (s : string)
  : list Regexp.state :=
  match s with
  | String a s' =>
      if p a then greedyRun p (S q) s' ++ [Regexp.State q s]
      else [Regexp.State q s]
  | EmptyString => [Regexp.State q s]
  end.

(** The first byte of the string, if any, is not in the class. *)
Definition stops (p : ascii -> bool) (s : string) : bool :=
  match s with
  | String a _ => negb (p a)
  | EmptyString => true
  end.

(** What follows the first group in [forPattern]. *)
Definition forTail : re :=
  cat [s_plus; Regexp.lit "in"; s_plus; Group 2 dot_plus; Eos].

(** A byte that [\s] does not match. *)
Definition nonSpace (a : ascii) : bool := negb (Regexp.space a).

(** [forPattern] behind its [^]. *)
Definition forBody : re :=
  Seq (Regexp.lit "for") (Seq s_plus (Seq (Group 1 dot_plus) forTail)).

(** ** Tags *)

(** A tag text that matches none of the patterns of [tokenize]. *)
Definition unknownTag (tag : string) : bool :=
  forallb (fun r => negb (Regexp.MatchString r tag))
    [ifPattern; elseifPattern; elsePattern; endifPattern; forPattern;
     endforPattern; switchPattern; casePattern; defaultPattern;
     endswitchPattern; varPattern].

(** ** Heap *)

(** A map variable is valid in a heap when it is nil or allocated. *)
Definition validRef (h : heap) (data : mapref) : Prop :=
  match data with
  | Some l => is_Some (h !! l)
  | None => True
  end.

(** ** Parser *)

(** The node of a text or variable token. *)
Definition leafNode (t : Token) : Node :=
  match Type_ t with
  | TText => TextNode (Value t)
  | _ => VarNode (Value t) (Default t) []
  end.

(** ** The parser as a machine with an explicit stack

    [exec] reads the tokens once, from left to right, and keeps the open
    constructs on a stack of frames, innermost first: the frame of a
    construct holds the index of its start token and the state of the loop
    of its parsing function.  [compileTokens_exec] below shows that the
    recursive functions of the source compute the same result. *)

Inductive Frame : Type :=
| FIf (start : nat) (st : IfState)
| FFor (start : nat) (node : ForState)
| FSwitch (start : nat) (st : SwitchState).

(** Appending a finished node to the body being filled: the current body of
    the innermost open construct, or the top-level list. *)
Definition appendTo (f : Frame) (n : Node) : Frame :=
  match f with
  | FIf s st => FIf s (appendCurrent st n)
  | FFor s node => FFor s (appendBody node n)
  | FSwitch s st => FSwitch s (appendCase st n)
  end.

Definition appendNode (nodes : list Node) (frames : list Frame) (n : Node)
  : list Node * list Frame :=
  match frames with
  | [] => (nodes ++ [n], [])
  | f :: fs => (nodes, appendTo f n :: fs)
  end.

(** The error for a token that the loop on top of the stack rejects. *)
Definition unexpected (frames : list Frame) (t : Token) (i : nat) : Error :=
  match frames with
  | [] => ErrUnexpectedToken (Type_ t) i (Raw t)
  | FIf _ _ :: _ => ErrUnexpectedInIf (Type_ t)
  | FFor _ _ :: _ => ErrUnexpectedInFor (Type_ t)
  | FSwitch _ _ :: _ => ErrUnexpectedInSwitch (Type_ t)
  end.

(** The error at the end of the tokens when a construct is still open. *)
Definition unclosed (f : Frame) : Error :=
  match f with
  | FIf s _ => ErrUnclosedIf s
  | FFor s _ => ErrUnclosedFor s
  | FSwitch s _ => ErrUnclosedSwitch s
  end.

Fixpoint exec (nodes : list Node) (frames : list Frame) (i : nat)
    (ts : list Token) : Result (list Node) :=
  match ts with
  | [] =>
      match frames with
      | [] => OK nodes
      | f :: _ => Err (unclosed f)
      end
  | t :: ts' =>
      match Type_ t with
      | TText | TVar =>
          let (nodes', frames') := appendNode nodes frames (leafNode t) in
          exec nodes' frames' (S i) ts'
      | TIf =>
          exec nodes (FIf i (mkIfState [(Value t, [])] [] false) :: frames)
               (S i) ts'
      | TFor =>
          match forHeader t with
          | OK node => exec nodes (FFor i node :: frames) (S i) ts'
          | Err e => Err e
          | Panic => Panic
          end
      | TSwitch =>
          exec nodes
               (FSwitch i (mkSwitchState (Value t) [] [] "" []) :: frames)
               (S i) ts'
      | TEndIf =>
          match frames with
          | FIf s st :: fs =>
              let (nodes', frames') :=
                appendNode nodes fs (IfNode (branches st) (elseBody st)) in
              exec nodes' frames' (S i) ts'
          | _ => Err (unexpected frames t i)
          end
      | TElseIf =>
          match frames with
          | FIf s st :: fs =>
              exec nodes
                (FIf s (mkIfState (branches st ++ [(Value t, [])])
                                  (elseBody st) false) :: fs)
                (S i) ts'
          | _ => Err (unexpected frames t i)
          end
      | TElse =>
          match frames with
          | FIf s st :: fs =>
              exec nodes (FIf s (mkIfState (branches st) [] true) :: fs)
                   (S i) ts'
          | _ => Err (unexpected frames t i)
          end
      | TEndFor =>
          match frames with
          | FFor s node :: fs =>
              let (nodes', frames') :=
                appendNode nodes fs
                  (ForNode (IndexVar_ node) (ItemVar_ node) (ListExpr_ node)
                           (Body_ node)) in
              exec nodes' frames' (S i) ts'
          | _ => Err (unexpected frames t i)
          end
      | TEndSwitch =>
          match frames with
          | FSwitch s st :: fs =>
              let st' := flushCase st in
              let (nodes', frames') :=
                appendNode nodes fs
                  (SwitchNode (Expr_ st') (Cases_ st') (SDefault st')) in
              exec nodes' frames' (S i) ts'
          | _ => Err (unexpected frames t i)
          end
      | TCase =>
          match frames with
          | FSwitch s st :: fs =>
              let st' := flushCase st in
              exec nodes
                (FSwitch s (mkSwitchState (Expr_ st') (Cases_ st')
                                          (SDefault st') (Value t) []) :: fs)
                (S i) ts'
          | _ => Err (unexpected frames t i)
          end
      | TDefault =>
          match frames with
          | FSwitch s st :: fs =>
              let st' := flushCase st in
              exec nodes
                (FSwitch s (mkSwitchState (Expr_ st') (Cases_ st')
                                          (SDefault st') "" []) :: fs)
                (S i) ts'
          | _ => Err (unexpected frames t i)
          end
      end
  end.

(** What [exec] makes of the result of a parsing function: the node goes
    to the enclosing body and the run goes on behind the construct. *)
Definition resume (tokens : list Token) (nodes : list Node)
    (frames : list Frame) (r : Result (Node * nat)) : Result (list Node) :=
  match r with
  | OK (n, ni) =>
      let (nodes', frames') := appendNode nodes frames n in
      exec nodes' frames' ni (drop ni tokens)
  | Err e => Err e
  | Panic => Panic
  end.

(** The parsing function ran with enough fuel, stopped behind index [i]
    and [exec] agrees with it. *)
Definition agrees (tokens : list Token) (nodes : list Node)
    (top : Frame) (frames : list Frame) (i : nat)
    (r : option (Result (Node * nat))) : Prop :=
  match r with
  | Some r' =>
      match r' with
      | OK (_, ni) => i < ni <= length tokens
      | _ => True
      end
      /\ exec nodes (top :: frames) i (drop i tokens)
         = resume tokens nodes frames r'
  | None => False
  end.

(** ** Nesting of the tags

    [run] follows the nesting of a token sequence and nothing else: it
    reads the kind of each token and whether a for header splits, and keeps
    the open constructs, innermost first, each with the index of its start
    token.  Its result is the stack at the end of the tokens, or [None] when
    a token stands where its kind is not allowed. *)

Inductive Kind : Type := KIf | KFor | KSwitch.

Definition opening (k : Kind) : TokenType :=
  match k with KIf => TIf | KFor => TFor | KSwitch => TSwitch end.

Definition unclosedAt (k : Kind) (s : nat) : Error :=
  match k with
  | KIf => ErrUnclosedIf s
  | KFor => ErrUnclosedFor s
  | KSwitch => ErrUnclosedSwitch s
  end.

(** The error for a token of type [ty] that the loop of an open construct
    of kind [k] does not allow: it names the type of the token, and no
    start token. *)
Definition unexpectedIn (k : Kind) (ty : TokenType) : Error :=
  match k with
  | KIf => ErrUnexpectedInIf ty
  | KFor => ErrUnexpectedInFor ty
  | KSwitch => ErrUnexpectedInSwitch ty
  end.

(** The error for a token at which the parse stops inside a construct of
    kind [k]: a for tag whose header does not split, or a token that the
    construct does not allow. *)
Definition rejected (k : Kind) (t : Token) : Error :=
  match Type_ t with
  | TFor => ErrInvalidFor (Raw t)
  | ty => unexpectedIn k ty
  end.

Fixpoint run (stack : list (Kind * nat)) (i : nat) (ts : list Token)
  : option (list (Kind * nat)) :=
  match ts with
  | [] => Some stack
  | t :: ts' =>
      match Type_ t, stack with
      | (TText | TVar), _ => run stack (S i) ts'
      | TIf, _ => run ((KIf, i) :: stack) (S i) ts'
      | TFor, _ =>
          match forHeader t with
          | OK _ => run ((KFor, i) :: stack) (S i) ts'
          | _ => None
          end
      | TSwitch, _ => run ((KSwitch, i) :: stack) (S i) ts'
      | TEndIf, (KIf, _) :: stack' => run stack' (S i) ts'
      | TEndFor, (KFor, _) :: stack' => run stack' (S i) ts'
      | TEndSwitch, (KSwitch, _) :: stack' => run stack' (S i) ts'
      | (TElseIf | TElse), (KIf, _) :: _ => run stack (S i) ts'
      | (TCase | TDefault), (KSwitch, _) :: _ => run stack (S i) ts'
      | _, _ => None
      end
  end.

Definition frameKind (f : Frame) : Kind * nat :=
  match f with
  | FIf s _ => (KIf, s)
  | FFor s _ => (KFor, s)
  | FSwitch s _ => (KSwitch, s)
  end.

(** Two tokens of the same kind; for headers are the same text. *)
Definition sameKind (t t' : Token) : Prop :=
  Type_ t = Type_ t'
  /\ (Type_ t = TFor -> Value t = Value t' /\ Raw t = Raw t').

(** ** Bodies and contexts of the parser *)

(** Appending finished nodes, in order, to the body being filled. *)
Definition appendNodes (nodes : list Node) (frames : list Frame)
    (ns : list Node) : list Node * list Frame :=
  fold_left (fun c n => appendNode c.1 c.2 n) ns (nodes, frames).

(** The frame of a construct whose start token stands [d] tokens later. *)
Definition shift (d : nat) (f : Frame) : Frame :=
  match f with
  | FIf s st => FIf (s + d) st
  | FFor s node => FFor (s + d) node
  | FSwitch s st => FSwitch (s + d) st
  end.

(** The token types that only continue or close a construct. *)
Definition closer (ty : TokenType) : bool :=
  match ty with
  | TElseIf | TElse | TEndIf | TEndFor | TCase | TDefault | TEndSwitch => true
  | _ => false
  end.

(** ** The token sequence of a tree *)

Definition tok (ty : TokenType) (v : string) : Token := mkToken ty v "" "".

(** The value of a [TFor] token, as [tokenize] builds it from the
    variables and the list expression. *)
Definition forValue (idx item lst : string) : string :=
  (if String.eqb idx "" then item else idx +:+ "," +:+ item) +:+ ":" +:+ lst.

(** The tokens that spell a node: the opening tag, the bodies with their
    separators, the closing tag.  An empty else or default body is not
    written. *)
Fixpoint tokensOf (n : Node) : list Token :=
  match n with
  | TextNode s => [tok TText s]
  | VarNode name def _ => [mkToken TVar name def ""]
  | IfNode brs els =>
      match brs with
      | [] => []
      | b :: brs' =>
          tok TIf b.1 :: flat_map tokensOf b.2
            ++ flat_map (fun b' => tok TElseIf b'.1 :: flat_map tokensOf b'.2)
                        brs'
            ++ match els with
               | [] => []
               | _ => tok TElse "" :: flat_map tokensOf els
               end
            ++ [tok TEndIf ""]
      end
  | ForNode idx item lst body =>
      tok TFor (forValue idx item lst) :: flat_map tokensOf body
        ++ [tok TEndFor ""]
  | SwitchNode e cases def =>
      tok TSwitch e
        :: flat_map (fun c => tok TCase c.1 :: flat_map tokensOf c.2) cases
        ++ match def with
           | [] => []
           | _ => tok TDefault "" :: flat_map tokensOf def
           end
        ++ [tok TEndSwitch ""]
  end.

Definition elseifTokens (b : string * list Node) : list Token :=
  tok TElseIf b.1 :: flat_map tokensOf b.2.

Definition caseTokens (c : string * list Node) : list Token :=
  tok TCase c.1 :: flat_map tokensOf c.2.

(** A string that [strings.TrimSpace] leaves as it is. *)
Definition trimmed (s : string) : bool := String.eqb (Strings.TrimSpace s) s.

(** Variables and list expression that [parseFor] reads back from
    [forValue]: trimmed, no colon in the variables, no comma in the index
    variable, and none in the item variable when there is no index
    variable. *)
Definition forVars (idx item lst : string) : bool :=
  trimmed idx && trimmed item && trimmed lst
  && negb (Strings.Contains idx ":") && negb (Strings.Contains item ":")
  && negb (Strings.Contains idx ",")
  && (negb (String.eqb idx "") || negb (Strings.Contains item ",")).

(** The trees that the parser builds: a variable has no filters, an if has
    a branch, the header of a for reads back, and a case has an
    expression. *)
Fixpoint wellFormed (n : Node) : bool :=
  match n with
  | TextNode _ => true
  | VarNode _ _ fl => match fl with [] => true | _ => false end
  | IfNode brs els =>
      match brs with [] => false | _ => true end
      && forallb (fun b => forallb wellFormed b.2) brs
      && forallb wellFormed els
  | ForNode idx item lst body =>
      forVars idx item lst && forallb wellFormed body
  | SwitchNode e cases def =>
      forallb (fun c => negb (String.eqb c.1 "") && forallb wellFormed c.2)
              cases
      && forallb wellFormed def
  end.

(** What [exec] does with the tokens of a node, whatever is open around
    them and whatever follows: the node goes to the body being filled. *)
Definition rebuilt (n : Node) : Prop :=
  forall (nodes : list Node) (frames : list Frame) (i : nat)
         (ts : list Token),
  exec nodes frames i (tokensOf n ++ ts)
  = exec (appendNode nodes frames n).1 (appendNode nodes frames n).2
         (i + length (tokensOf n)) ts.

(** ** Separators and patterns *)

(** A separator of two bytes. *)
Definition sep2 (x y : ascii) : string := String x (String y "").

(** The shape of [ifPattern], [elseifPattern], [switchPattern] and
    [casePattern]: [^kw\s+(.+)$]. *)
Definition keywordPattern (kw : string) : re :=
  cat [Bos; Regexp.lit kw; s_plus; Group 1 dot_plus; Eos].

(** ** Comparisons and literals *)

(** The six comparison operators. *)
Definition comparisons : list string := ["=="; "!="; ">="; "<="; ">"; "<"].

(** The alternatives of the group of [compOpRe]. *)
Definition compOps : re :=
  Alt (Regexp.lit "==") (Alt (Regexp.lit "!=") (Alt (Regexp.lit ">=")
      (Alt (Regexp.lit "<=") (Alt (Regexp.lit ">") (Regexp.lit "<"))))).

(** A byte that starts no comparison operator. *)
Definition notOpByte (a : ascii) : bool :=
  negb (Ascii.eqb a "=") && negb (Ascii.eqb a "!")
  && negb (Ascii.eqb a ">") && negb (Ascii.eqb a "<").

(** An operand of a comparison as it is usually written: a word without a
    byte of a comparison operator. *)
Definition plainOperand (s : string) : bool := isWord s && all notOpByte s.

(** A sign or a decimal digit, the bytes of an integer literal. *)
Definition signOrDigit (a : ascii) : bool :=
  match Strconv_.digit a with
  | Some _ => true
  | None => Ascii.eqb a "-" || Ascii.eqb a "+"
  end.

(** The list [o1; k1; o2; k2; ...] of operands, each followed by a word. *)
Definition flatPairs (ps : list (string * string)) : list string :=
  flat_map (fun p => [p.1; p.2]) ps.

Definition isKeyword (w : string) : Prop := w = "and" \/ w = "or".

(** ** Variable tags *)

(** A segment of a variable path: one word byte or more. *)
Definition identifier (s : string) : bool :=
  negb (String.eqb s "") && all Regexp.word s.

(** The segments behind the first one, each behind its dot. *)
Definition dotsOf (segs : list string) : string :=
  fold_right (fun s acc => "." +:+ s +:+ acc) "" segs.

(** A pattern that starts with a keyword and blanks: [^kw\s+...]. *)
Definition blankPattern (kw : string) (r : re) : re :=
  Seq Bos (Seq (Regexp.lit kw) (Seq s_plus r)).

(** A pattern for one text: [^kw$]. *)
Definition exactPattern (kw : string) : re := cat [Bos; Regexp.lit kw; Eos].

(** A dot and a word: [\.\w+], what the group of [varPattern] repeats. *)
Definition dotWord : re := cat [Regexp.lit "."; w_plus].

(** The states that a lazy iteration of one byte class offers, shortest
    run first. *)
Fixpoint lazyRun (p : ascii -> bool) (q : nat) (s : string)
  : list Regexp.state :=
  Regexp.State q s
    :: match s with
       | String a s' => if p a then lazyRun p (S q) s' else []
       | EmptyString => []
       end.

(** A byte of a default text: any byte but the line feed and the double
    quote. *)
Definition defaultByte (a : ascii) : bool :=
  Regexp.any a && negb (Ascii.eqb a "034").

(** The part of [varPattern] for the default text:
    [\s*\|\s*Q(.*?)Q], with Q for the double quote. *)
Definition defaultPart : re :=
  cat [s_star; Regexp.lit "|"; s_star; Regexp.lit dquote;
       Group 2 (Star false (Chr Regexp.any)); Regexp.lit dquote].

(** The keywords that a tag may start with in front of blanks. *)
Definition blankKeywords : list string :=
  ["if"; "elseif"; "for"; "switch"; "case"].

(** ** Chains of conditions *)

(** The words of a chain: the first operand, then a keyword and an operand,
    any number of times. *)
Definition chainWords (a0 : list string)
    (rest : list (string * list string)) : list string :=
  a0 ++ flat_map (fun r => r.1 :: r.2) rest.

(** The value of a chain whose operands have the values that [val] gives:
    the operators applied from left to right. *)
Definition chainValue (val : list string -> bool) (a0 : list string)
    (rest : list (string * list string)) : bool :=
  fold_left (fun acc r => if String.eqb r.1 "and" then acc && val r.2
                          else acc || val r.2)
            rest (val a0).

(** * Properties *)

(** ** The heap of maps *)

Section HeapFacts.
Context `{Strconv}.

Lemma shallowCopyMap_eq (h : heap) (m : mapref) :
  shallowCopyMap h m
  = (fresh (dom h), <[fresh (dom h) := contents h m]> h).
Proof.
  unfold shallowCopyMap, makeMap. f_equal.
  apply (map_fold_weak_ind
           (fun (r : heap) (m' : gmap string value) =>
              r = <[fresh (dom h) := m']> h)).
  - reflexivity.
  - intros k v m' r _ ->. unfold store.
    rewrite lookup_insert_eq. simpl. by rewrite insert_insert_eq.
Qed.

Lemma fresh_not_allocated (h : heap) : h !! fresh (dom h) = None.
Proof. apply not_elem_of_dom, is_fresh. Qed.

(** The heap after [evalConditionWithValue]: the heap before, with one
    new map that holds the entries of [data] and the subject. *)
Lemma evalConditionWithValue_heap (condExpr : string) (v : value)
    (data : mapref) (h : heap) :
  snd (evalConditionWithValue condExpr v data h)
  = <[fresh (dom h) := <["__switch__" := v]> (contents h data)]> h.
Proof.
  unfold evalConditionWithValue. rewrite shallowCopyMap_eq.
  assert (Hst : store (<[fresh (dom h) := contents h data]> h)
                  (fresh (dom h)) "__switch__" v
                = <[fresh (dom h) := <["__switch__" := v]> (contents h data)]> h).
  { unfold store. rewrite lookup_insert_eq. simpl.
    by rewrite insert_insert_eq. }
  rewrite Hst.
  repeat (case_match; simpl; try reflexivity).
Qed.

End HeapFacts.

(** C10. For every case expression, subject and context map,
    [evalConditionWithValue] leaves the caller's map as it was: the heap
    after the call is the heap before it plus one new map, the shallow copy
    in which [__switch__] is bound, so every map allocated before the call,
    the caller's among them, has exactly the entries it had. *)
Theorem evalConditionWithValue_frame `{Strconv} (condExpr : string)
    (v : value) (data : mapref) (h : heap) :
  validRef h data ->
  let h' := snd (evalConditionWithValue condExpr v data h) in
  contents h' data = contents h data
  /\ (forall l : loc, is_Some (h !! l) -> h' !! l = h !! l)
  /\ h !! fresh (dom h) = None
  /\ h' !! fresh (dom h) = Some (<["__switch__" := v]> (contents h data)).
Proof.
  intros Hvalid h'. subst h'. rewrite evalConditionWithValue_heap.
  pose proof (fresh_not_allocated h) as Hfresh.
  assert (Hframe : forall l : loc, is_Some (h !! l) ->
            <[fresh (dom h) := <["__switch__" := v]> (contents h data)]> h !! l
            = h !! l).
  { intros l [m Hm]. apply lookup_insert_ne. intros <-. congruence. }
  split_and!.
  - destruct data as [l|]; simpl in *; [|reflexivity].
    by rewrite (Hframe l Hvalid).
  - exact Hframe.
  - exact Hfresh.
  - apply lookup_insert_eq.
Qed.

Lemma evalConditionWithValue_frame_witness :
  let h : heap := {[ 1%positive := {[ "x" := VInt 5 ]} ]} in
  let h' := snd (evalConditionWithValue (H := Example.exampleStrconv)
                   "__switch__ > 3" (VInt 5) (Some 1%positive) h) in
  contents h' (Some 1%positive) = {[ "x" := VInt 5 ]}.
Proof.
  intros h h'.
  destruct (evalConditionWithValue_frame (H := Example.exampleStrconv)
              "__switch__ > 3" (VInt 5) (Some 1%positive) h) as [Hc _].
  - simpl. unfold h. rewrite lookup_singleton_eq. eauto.
  - fold h' in Hc. rewrite Hc. simpl. unfold h.
    by rewrite lookup_singleton_eq.
Defined.

(** ** The cache *)

(** A hit: the cached template is returned, the cache is unchanged and the
    only call to the file system is [os.Stat]. *)
Lemma getOrCompile_hit (fs : FileSystem) (path : string) (w : World)
    (mod_ : Z) (tpl : Template) :
  Stat fs path = Some mod_ ->
  tplCache w !! path = Some tpl -> ModTime tpl = mod_ ->
  getOrCompile fs path w
  = (OK tpl, mkWorld (tplCache w) (trace w ++ [EvStat path])).
Proof.
  intros Hstat Hhit Hmod. unfold getOrCompile. rewrite Hstat. simpl.
  rewrite Hhit. by rewrite (proj2 (Z.eqb_eq _ _) Hmod).
Qed.

(** A miss or a stale entry, on a file that compiles: the new template is
    returned and stored under the path. *)
Lemma getOrCompile_miss (fs : FileSystem) (path : string) (w : World)
    (mod_ : Z) (content : string) (nodes : list Node) :
  Stat fs path = Some mod_ ->
  (tplCache w !! path = None
   \/ exists tpl, tplCache w !! path = Some tpl /\ ModTime tpl <> mod_) ->
  ReadFile fs path = Some content ->
  compileTokens (tokenize content) = OK nodes ->
  getOrCompile fs path w
  = (OK (mkTemplate path nodes mod_),
     mkWorld (<[path := mkTemplate path nodes mod_]> (tplCache w))
             (trace w ++ [EvStat path; EvReadFile path])).
Proof.
  intros Hstat Hmiss Hread Hcompile.
  assert (Hc : compileFile fs path mod_ (logEvent (EvStat path) w)
               = (OK (mkTemplate path nodes mod_),
                  mkWorld (<[path := mkTemplate path nodes mod_]> (tplCache w))
                          (trace w ++ [EvStat path; EvReadFile path]))).
  { unfold compileFile. rewrite Hread, Hcompile. simpl.
    by rewrite <- app_assoc. }
  unfold getOrCompile. rewrite Hstat. simpl.
  destruct Hmiss as [Hnone | (tpl & Hsome & Hne)].
  - by rewrite Hnone.
  - rewrite Hsome. by rewrite (proj2 (Z.eqb_neq _ _) Hne).
Qed.

(** C2. For every path whose [os.Stat] succeeds with time [mod_]: if the
    cache holds a template for the path whose stored time equals [mod_],
    [getOrCompile] returns that template, leaves the cache as it is and
    makes no call to [os.ReadFile]; otherwise (no entry, or another time)
    it reads the file, tokenizes and parses it, and when that succeeds it
    returns the new template (path, nodes, [mod_]) and stores it in the
    cache under the path, in place of any entry that was there. *)
Theorem getOrCompile_cache (fs : FileSystem) (path : string) (w : World)
    (mod_ : Z) :
  Stat fs path = Some mod_ ->
  (forall tpl, tplCache w !! path = Some tpl -> ModTime tpl = mod_ ->
     getOrCompile fs path w
     = (OK tpl, mkWorld (tplCache w) (trace w ++ [EvStat path])))
  /\ (forall content nodes,
        (tplCache w !! path = None
         \/ exists tpl, tplCache w !! path = Some tpl /\ ModTime tpl <> mod_) ->
        ReadFile fs path = Some content ->
        compileTokens (tokenize content) = OK nodes ->
        getOrCompile fs path w
        = (OK (mkTemplate path nodes mod_),
           mkWorld (<[path := mkTemplate path nodes mod_]> (tplCache w))
                   (trace w ++ [EvStat path; EvReadFile path]))).
Proof.
  intros Hstat. split.
  - intros tpl Hhit Hmod. by apply (getOrCompile_hit fs path w mod_).
  - intros content nodes Hmiss Hread Hcompile.
    by apply (getOrCompile_miss fs path w mod_ content).
Qed.

Lemma getOrCompile_cache_witness :
  let fs := Example.oneFile "/t.html" 7 "new text" in
  let cached := mkTemplate "/t.html" [TextNode "old text"] 7 in
  let w := mkWorld {[ "/t.html" := cached ]} [] in
  Stat fs "/t.html" = Some 7%Z
  /\ getOrCompile fs "/t.html" w
     = (OK cached, mkWorld (tplCache w) [EvStat "/t.html"]).
Proof.
  intros fs cached w. split; [reflexivity|].
  apply (proj1 (getOrCompile_cache fs "/t.html" w 7 eq_refl) cached).
  - apply lookup_singleton_eq.
  - reflexivity.
Defined.

(** ** Comparison of values *)

Section CompareFacts.
Context `{Strconv}.

Lemma toFloat_bool (b : bool) :
  ParseFloat "true" = None -> ParseFloat "false" = None ->
  toFloat (VBool b) = None.
Proof. intros Ht Hf. destruct b; simpl; assumption. Qed.

End CompareFacts.

(** C7 (amended). For all booleans [a] and [b] and every operator among
    [>], [<], [>=] and [<=], [compareValues] reports no error: neither
    operand is a number, the boolean case defines [==] and [!=] only, and
    the call falls through to the comparison of the textual forms
    [true] and [false], so its result is the order in which false comes
    before true. *)
Theorem compareValues_bool_order `{Strconv} (a b : bool) (op : string) :
  ParseFloat "true" = None -> ParseFloat "false" = None ->
  In op [">"; "<"; ">="; "<="] ->
  compareValues (VBool a) (VBool b) op
  = OK (if String.eqb op ">" then a && negb b
        else if String.eqb op "<" then negb a && b
        else if String.eqb op ">=" then a || negb b
        else negb a || b).
Proof.
  intros Ht Hf Hop. unfold compareValues.
  rewrite !toFloat_bool by assumption.
  simpl in Hop.
  destruct Hop as [<- | [<- | [<- | [<- | []]]]];
    destruct a, b; reflexivity.
Qed.

Lemma compareValues_bool_order_witness :
  compareValues (H := Example.exampleStrconv) (VBool false) (VBool true) "<="
  = OK true.
Proof.
  apply (compareValues_bool_order (H := Example.exampleStrconv)
           false true "<=" eq_refl eq_refl).
  simpl. tauto.
Defined.

(** C7, as stated, fails: comparing true with false under [>] is not an
    error, it is true. *)
Lemma compareValues_bool_no_error :
  compareValues (H := Example.exampleStrconv) (VBool true) (VBool false) ">"
  = OK true
  /\ ~ (exists e, compareValues (H := Example.exampleStrconv)
                    (VBool true) (VBool false) ">" = Err e).
Proof. split; [reflexivity|]. intros [e He]. discriminate He. Qed.

(** ** Strings *)

Module StringFacts.
Import Strings.

Lemma app_cons (a : ascii) (s t : string) :
  String a s +:+ t = String a (s +:+ t).
Proof. reflexivity. Qed.

Lemma app_nil_l (s : string) : "" +:+ s = s.
Proof. reflexivity. Qed.

Lemma app_nil_r (s : string) : s +:+ "" = s.
Proof.
  induction s as [|a s IH]; [done|]. by rewrite app_cons, IH.
Qed.

Lemma app_assoc (s t u : string) : (s +:+ t) +:+ u = s +:+ t +:+ u.
Proof.
  induction s as [|a s IH]; [done|]. by rewrite !app_cons, IH.
Qed.

Lemma length_app (s t : string) :
  String.length (s +:+ t) = String.length s + String.length t.
Proof.
  induction s as [|a s IH]; [done|]. rewrite app_cons. simpl.
  by rewrite IH.
Qed.

Lemma cut_None_Contains (sep s : string) :
  Contains s sep = false -> cut sep s = None.
Proof. unfold Contains. destruct (cut sep s); congruence. Qed.

Lemma genSplit_no_sep (n : nat) (s sep : string) :
  cut sep s = None -> genSplit n s sep = [s].
Proof. intros Hc. destruct n; simpl; [reflexivity|]. by rewrite Hc. Qed.

Lemma Split_no_sep (s sep : string) :
  Contains s sep = false -> Split s sep = [s].
Proof. intros Hc. apply genSplit_no_sep, cut_None_Contains, Hc. Qed.

Lemma HasPrefix_length (s sep : string) :
  HasPrefix s sep = true ->
  String.length s
  = String.length sep + String.length (drop (String.length sep) s).
Proof.
  revert s. induction sep as [|x sep IH]; intros s Hp; [by destruct s|].
  destruct s as [|a s]; [done|]. simpl in Hp.
  destruct (Ascii.eqb a x); [|done]. simpl. by rewrite (IH s Hp).
Qed.

(** The parts around a cut and the separator make up the string. *)
Lemma cut_length (sep s b r : string) :
  cut sep s = Some (b, r) ->
  String.length s = String.length b + String.length sep + String.length r.
Proof.
  revert b. induction s as [|a s IH]; intros b Hc.
  - cbn [cut] in Hc. destruct (HasPrefix "" sep) eqn:Hp; [|discriminate].
    injection Hc as <- <-. pose proof (HasPrefix_length _ _ Hp).
    simpl in *. lia.
  - cbn [cut] in Hc. destruct (HasPrefix (String a s) sep) eqn:Hp.
    + injection Hc as <- <-. pose proof (HasPrefix_length _ _ Hp).
      simpl in *. lia.
    + destruct (cut sep s) as [[b' r']|]; [|done].
      injection Hc as <- <-. simpl. rewrite (IH b' eq_refl). lia.
Qed.

(** [Split] allows as many cuts as the string has bytes, and more would
    change nothing: every cut takes the separator away. *)
Lemma genSplit_fuel (sep : string) (n m : nat) (s : string) :
  sep <> "" -> String.length s <= n -> String.length s <= m ->
  genSplit n s sep = genSplit m s sep.
Proof.
  intros Hsep. revert m s.
  assert (Hpos : 0 < String.length sep) by (destruct sep; [done|simpl; lia]).
  assert (Hempty : forall k, genSplit k "" sep = [""]).
  { intros [|k]; [done|]. simpl. by destruct sep. }
  induction n as [|n IH]; intros m s Hn Hm.
  - destruct s; [|simpl in Hn; lia]. by rewrite !Hempty.
  - destruct m as [|m].
    { destruct s; [|simpl in Hm; lia]. by rewrite !Hempty. }
    cbn [genSplit]. destruct (cut sep s) as [[b r]|] eqn:Hc; [|done].
    pose proof (cut_length _ _ _ _ Hc) as Hl.
    f_equal. apply IH; lia.
Qed.

Lemma rev_onto_app (s acc : string) : rev_onto s acc = rev s +:+ acc.
Proof.
  unfold rev. revert acc.
  induction s as [|a s IH]; intros acc; simpl; [done|].
  rewrite (IH (String a acc)), (IH (String a "")).
  by rewrite app_assoc.
Qed.

Lemma rev_cons (a : ascii) (s : string) : rev (String a s) = rev s +:+ String a "".
Proof. unfold rev at 1. simpl. apply rev_onto_app. Qed.

Lemma rev_app (s t : string) : rev (s +:+ t) = rev t +:+ rev s.
Proof.
  induction s as [|a s IH].
  - by rewrite app_nil_l, app_nil_r.
  - by rewrite app_cons, !rev_cons, IH, app_assoc.
Qed.

Lemma rev_involutive (s : string) : rev (rev s) = s.
Proof.
  induction s as [|a s IH]; [done|].
  by rewrite rev_cons, rev_app, IH.
Qed.

(** *** The bytes of white space *)

Ltac byte_facts :=
  repeat match goal with
         | H : _ && _ = true |- _ => apply andb_prop in H as [? ?]
         | H : _ || _ = true |- _ => apply orb_prop in H as [?|?]
         | H : (_ =? _) = true |- _ => apply Nat.eqb_eq in H
         | H : (_ <=? _) = true |- _ => apply Nat.leb_le in H
         | H : (_ <? _) = true |- _ => apply Nat.ltb_lt in H
         end.

Lemma isSpace_low (a : ascii) : isSpace a = true -> nat_of_ascii a < 128.
Proof. unfold isSpace. intros Ha. byte_facts; lia. Qed.

Lemma isSpace2_high (a b : ascii) :
  isSpace2 a b = true -> 128 <= nat_of_ascii a /\ 128 <= nat_of_ascii b.
Proof. unfold isSpace2. intros Ha. byte_facts; lia. Qed.

Lemma isSpace3_high (a b c : ascii) :
  isSpace3 a b c = true ->
  128 <= nat_of_ascii a /\ 128 <= nat_of_ascii b /\ 128 <= nat_of_ascii c.
Proof. unfold isSpace3. intros Ha. byte_facts; lia. Qed.

Lemma isSpace2_low_l (a b : ascii) : lowByte a = true -> isSpace2 a b = false.
Proof.
  unfold lowByte. intros Ha%Nat.ltb_lt.
  destruct (isSpace2 a b) eqn:Hs; [|done].
  apply isSpace2_high in Hs. lia.
Qed.

Lemma isSpace2_low_r (a b : ascii) : lowByte b = true -> isSpace2 a b = false.
Proof.
  unfold lowByte. intros Hb%Nat.ltb_lt.
  destruct (isSpace2 a b) eqn:Hs; [|done].
  apply isSpace2_high in Hs. lia.
Qed.

Lemma isSpace3_low_1 (a b c : ascii) :
  lowByte a = true -> isSpace3 a b c = false.
Proof.
  unfold lowByte. intros Ha%Nat.ltb_lt.
  destruct (isSpace3 a b c) eqn:Hs; [|done].
  apply isSpace3_high in Hs. lia.
Qed.

Lemma isSpace3_low_2 (a b c : ascii) :
  lowByte b = true -> isSpace3 a b c = false.
Proof.
  unfold lowByte. intros Hb%Nat.ltb_lt.
  destruct (isSpace3 a b c) eqn:Hs; [|done].
  apply isSpace3_high in Hs. lia.
Qed.

Lemma isSpace3_low_3 (a b c : ascii) :
  lowByte c = true -> isSpace3 a b c = false.
Proof.
  unfold lowByte. intros Hc%Nat.ltb_lt.
  destruct (isSpace3 a b c) eqn:Hs; [|done].
  apply isSpace3_high in Hs. lia.
Qed.

Lemma isSpace_lowByte (a : ascii) : isSpace a = true -> lowByte a = true.
Proof. intros Ha%isSpace_low. by apply Nat.ltb_lt. Qed.

(** A byte of the ASCII range that is no white space starts no white-space
    rune, whatever follows it. *)
Lemma spaceWidth_low (a : ascii) (s : string) :
  lowByte a = true -> isSpace a = false -> spaceWidth (String a s) = 0.
Proof.
  intros Hl Ha. cbn [spaceWidth]. rewrite Ha.
  destruct s as [|b [|c s]]; [done| |];
    by rewrite ?isSpace2_low_l, ?isSpace3_low_1 by done.
Qed.

Lemma spaceWidthLast_low (a : ascii) (s : string) :
  lowByte a = true -> isSpace a = false -> spaceWidthLast (String a s) = 0.
Proof.
  intros Hl Ha. cbn [spaceWidthLast]. rewrite Ha.
  destruct s as [|b [|c s]]; [done| |];
    by rewrite ?isSpace2_low_r, ?isSpace3_low_3 by done.
Qed.

Lemma spaceWidth_isSpace (a : ascii) (s : string) :
  isSpace a = true -> spaceWidth (String a s) = 1.
Proof. intros Ha. cbn [spaceWidth]. by rewrite Ha. Qed.

Lemma spaceWidth_0_isSpace (a : ascii) (s : string) :
  spaceWidth (String a s) = 0 -> isSpace a = false.
Proof. cbn [spaceWidth]. by destruct (isSpace a). Qed.

(** The rune at the head of a text does not depend on what follows the
    text, when that starts with a byte of the ASCII range. *)
Lemma spaceWidth_app (s t : string) :
  s <> "" -> startsLow t = true -> spaceWidth (s +:+ t) = spaceWidth s.
Proof.
  intros Hs Ht. destruct s as [|a [|b [|c s]]]; [done| | |].
  - rewrite app_cons, app_nil_l. cbn [spaceWidth].
    destruct (isSpace a); [done|].
    destruct t as [|x [|y t]]; [done| |]; simpl in Ht;
      by rewrite ?isSpace2_low_r, ?isSpace3_low_2 by done.
  - rewrite !app_cons, app_nil_l. cbn [spaceWidth].
    destruct (isSpace a); [done|]. destruct (isSpace2 a b); [done|].
    destruct t as [|x t]; [done|]. simpl in Ht.
    by rewrite isSpace3_low_3 by done.
  - by rewrite !app_cons.
Qed.

Lemma spaceWidthLast_app (s t : string) :
  s <> "" -> startsLow t = true -> spaceWidthLast (s +:+ t) = spaceWidthLast s.
Proof.
  intros Hs Ht. destruct s as [|a [|b [|c s]]]; [done| | |].
  - rewrite app_cons, app_nil_l. cbn [spaceWidthLast].
    destruct (isSpace a); [done|].
    destruct t as [|x [|y t]]; [done| |]; simpl in Ht;
      by rewrite ?isSpace2_low_l, ?isSpace3_low_2 by done.
  - rewrite !app_cons, app_nil_l. cbn [spaceWidthLast].
    destruct (isSpace a); [done|]. destruct (isSpace2 b a); [done|].
    destruct t as [|x t]; [done|]. simpl in Ht.
    by rewrite isSpace3_low_1 by done.
  - by rewrite !app_cons.
Qed.

Lemma length_rev (s : string) : String.length (rev s) = String.length s.
Proof.
  induction s as [|a s IH]; [done|].
  rewrite rev_cons, length_app, IH. simpl. lia.
Qed.

Lemma rev_empty (s : string) : rev s = "" -> s = "".
Proof. intros Hr. by rewrite <- (rev_involutive s), Hr. Qed.

(** *** Trimming *)

Lemma trimGo_id (width : string -> nat) (s : string) :
  width s = 0 -> trimGo width 0 s = s.
Proof.
  intros Hw. destruct s as [|a s]; [done|]. cbn [trimGo]. by rewrite Hw.
Qed.

Lemma length_trimGo (width : string -> nat) (s : string) :
  forall k, String.length (trimGo width k s) <= String.length s.
Proof.
  induction s as [|a s IH]; intros k; [done|]. cbn [trimGo].
  destruct k as [|k].
  - destruct (width (String a s)) as [|k'].
    + lia.
    + specialize (IH k'). simpl. lia.
  - specialize (IH k). simpl. lia.
Qed.

(** A text that trimming does not shorten starts with no white space. *)
Lemma trimGo_fix (width : string -> nat) (a : ascii) (s : string) :
  String.length (String a s) <= String.length (trimGo width 0 (String a s)) ->
  width (String a s) = 0.
Proof.
  cbn [trimGo]. destruct (width (String a s)) as [|k]; [done|].
  pose proof (length_trimGo width s k). simpl. lia.
Qed.

Lemma TrimLeft_id (s : string) : startsNonSpace s = true -> TrimLeft s = s.
Proof.
  destruct s as [|a s]; [done|]. intros Hs%Nat.eqb_eq.
  by apply trimGo_id.
Qed.

Lemma TrimRight_id (s : string) : endsNonSpace s = true -> TrimRight s = s.
Proof.
  destruct s as [|a s]; [done|]. intros Hs%Nat.eqb_eq.
  unfold TrimRight. rewrite trimGo_id by done. apply rev_involutive.
Qed.

Lemma TrimSpace_id (s : string) :
  startsNonSpace s = true -> endsNonSpace s = true -> TrimSpace s = s.
Proof.
  intros Hs He. unfold TrimSpace.
  by rewrite (TrimLeft_id s Hs), (TrimRight_id s He).
Qed.

Lemma length_TrimLeft (s : string) :
  String.length (TrimLeft s) <= String.length s.
Proof. apply length_trimGo. Qed.

Lemma length_TrimRight (s : string) :
  String.length (TrimRight s) <= String.length s.
Proof.
  unfold TrimRight. rewrite length_rev.
  etrans; [apply length_trimGo|]. by rewrite length_rev.
Qed.

Lemma length_TrimSpace (s : string) :
  String.length (TrimSpace s) <= String.length (TrimLeft s).
Proof. apply length_TrimRight. Qed.

(** A string that [TrimSpace] leaves as it is starts and ends with no
    white space. *)
Lemma TrimSpace_fix_starts (s : string) :
  s <> "" -> TrimSpace s = s -> startsNonSpace s = true.
Proof.
  intros Hne Hfix. destruct s as [|a s]; [done|].
  cbn [startsNonSpace]. apply Nat.eqb_eq, trimGo_fix.
  pose proof (length_TrimSpace (String a s)) as Hlen.
  by rewrite Hfix in Hlen.
Qed.

Lemma TrimSpace_fix_ends (s : string) :
  s <> "" -> TrimSpace s = s -> endsNonSpace s = true.
Proof.
  intros Hne Hfix.
  pose proof (TrimSpace_fix_starts s Hne Hfix) as Hs.
  unfold TrimSpace in Hfix. rewrite (TrimLeft_id s Hs) in Hfix.
  destruct s as [|a s]; [done|]. cbn [endsNonSpace]. apply Nat.eqb_eq.
  destruct (rev (String a s)) as [|b r] eqn:Hr.
  { by apply rev_empty in Hr. }
  apply trimGo_fix.
  unfold TrimRight in Hfix. rewrite Hr in Hfix.
  apply (f_equal String.length) in Hfix. rewrite length_rev in Hfix.
  rewrite Hfix, <- Hr, length_rev. done.
Qed.

Lemma TrimLeft_all_space (s : string) :
  all isSpace s = true -> TrimLeft s = "".
Proof.
  unfold TrimLeft. induction s as [|a s IH]; [done|]. simpl all.
  intros [Ha Hs]%andb_prop. cbn [trimGo].
  rewrite (spaceWidth_isSpace a s Ha).
  destruct s as [|b s]; [done|]. by apply IH.
Qed.

Lemma startsNonSpace_app (s t : string) :
  startsNonSpace s = true -> startsLow t = true ->
  startsNonSpace (s +:+ t) = true.
Proof.
  intros Hs Ht. destruct s as [|a s]; [done|].
  cbn [startsNonSpace] in Hs. rewrite app_cons. cbn [startsNonSpace].
  rewrite <- app_cons. by rewrite spaceWidth_app.
Qed.

Lemma endsNonSpace_app (s t : string) :
  startsLow (rev s) = true -> endsNonSpace t = true ->
  endsNonSpace (s +:+ t) = true.
Proof.
  intros Hs Ht. destruct t as [|a t]; [done|].
  cbn [endsNonSpace] in Ht.
  assert (Hne : s +:+ String a t <> "") by (by destruct s).
  destruct (s +:+ String a t) as [|b u] eqn:Hu; [done|].
  cbn [endsNonSpace]. rewrite <- Hu, rev_app.
  rewrite spaceWidthLast_app; [done| |done].
  intros Hr. by apply rev_empty in Hr.
Qed.

Lemma all_impl (p p' : ascii -> bool) (s : string) :
  (forall a, p a = true -> p' a = true) -> all p s = true -> all p' s = true.
Proof.
  intros Hp. induction s as [|a s IH]; simpl; [done|]. intros Hs.
  apply andb_prop in Hs as [Ha Hs]. by rewrite (Hp a Ha), IH.
Qed.

Lemma all_app (p : ascii -> bool) (s t : string) :
  all p (s +:+ t) = all p s && all p t.
Proof.
  induction s as [|a s IH]; [done|].
  rewrite app_cons. simpl. by rewrite IH, andb_assoc.
Qed.

(** *** Words *)

Lemma noSpace_suffix (s t : string) :
  noSpace (s +:+ t) = true -> noSpace t = true.
Proof.
  induction s as [|a s IH]; [done|]. rewrite app_cons. cbn [noSpace].
  intros [_ Hs]%andb_prop. by apply IH.
Qed.

Lemma noSpace_head (a : ascii) (s : string) :
  noSpace (String a s) = true -> spaceWidth (String a s) = 0.
Proof. cbn [noSpace]. intros [Ha%Nat.eqb_eq _]%andb_prop. exact Ha. Qed.

(** A text of bytes of the ASCII range that are no white space holds no
    white space. *)
Lemma noSpace_low (s : string) :
  all (fun a => lowByte a && negb (isSpace a)) s = true -> noSpace s = true.
Proof.
  induction s as [|a s IH]; [done|]. simpl all.
  intros [[Hl Ha%negb_true_iff]%andb_prop Hs]%andb_prop. cbn [noSpace].
  by rewrite (spaceWidth_low a s Hl Ha), IH.
Qed.

(** A text without white space has no byte of the ASCII white space. *)
Lemma noSpace_bytes (s : string) :
  noSpace s = true -> all (fun a => negb (isSpace a)) s = true.
Proof.
  induction s as [|a s IH]; [done|]. cbn [noSpace]. simpl all.
  intros [Ha%Nat.eqb_eq Hs]%andb_prop.
  by rewrite (spaceWidth_0_isSpace a s Ha), IH.
Qed.

Lemma isWord_starts (w : string) : isWord w = true -> startsNonSpace w = true.
Proof.
  unfold isWord. destruct w as [|a w]; [done|].
  intros [_ Hw]%andb_prop. cbn [startsNonSpace].
  apply Nat.eqb_eq. by apply noSpace_head.
Qed.

Lemma isWord_ends (w : string) : isWord w = true -> endsNonSpace w = true.
Proof.
  unfold isWord. destruct w as [|a0 w0]; [done|].
  intros [_ Hw]%andb_prop. cbn [endsNonSpace]. apply Nat.eqb_eq.
  rewrite <- (rev_involutive (String a0 w0)) in Hw.
  destruct (rev (String a0 w0)) as [|a [|b [|c r]]]; [done| | |].
  - cbn [spaceWidthLast]. destruct (isSpace a) eqn:Ha; [|done].
    apply noSpace_head in Hw. by rewrite (spaceWidth_isSpace a "" Ha) in Hw.
  - rewrite rev_cons in Hw.
    replace (rev (String b "")) with (String b "") in Hw by done.
    change (String b "" +:+ String a "") with (String b (String a "")) in Hw.
    cbn [spaceWidthLast].
    destruct (isSpace a) eqn:Ha.
    { apply noSpace_suffix with (s := String b "") in Hw.
      apply noSpace_head in Hw.
      by rewrite (spaceWidth_isSpace a "" Ha) in Hw. }
    destruct (isSpace2 b a) eqn:H2; [|done].
    apply noSpace_head in Hw. cbn [spaceWidth] in Hw. rewrite H2 in Hw.
    by destruct (isSpace b).
  - rewrite !rev_cons, !app_assoc in Hw.
    change (String c "" +:+ String b "" +:+ String a "")
      with (String c (String b (String a ""))) in Hw.
    apply noSpace_suffix in Hw.
    cbn [spaceWidthLast].
    destruct (isSpace a) eqn:Ha.
    { apply (noSpace_suffix (String c (String b ""))) in Hw.
      apply noSpace_head in Hw.
      by rewrite (spaceWidth_isSpace a "" Ha) in Hw. }
    destruct (isSpace2 b a) eqn:H2.
    { apply (noSpace_suffix (String c "")) in Hw.
      apply noSpace_head in Hw. cbn [spaceWidth] in Hw. rewrite H2 in Hw.
      by destruct (isSpace b). }
    destruct (isSpace3 c b a) eqn:H3; [|done].
    apply noSpace_head in Hw. cbn [spaceWidth] in Hw. rewrite H3 in Hw.
    destruct (isSpace c); [done|]. by destruct (isSpace2 c b).
Qed.

(** The words of an operand are joined by single blanks. *)
Lemma join_cons (w : string) (ws : list string) :
  ws <> [] -> Fmt.join " " (w :: ws) = w +:+ " " +:+ Fmt.join " " ws.
Proof. by destruct ws. Qed.

Lemma join_snoc (ws : list string) (w : string) :
  ws <> [] -> Fmt.join " " (ws ++ [w]) = Fmt.join " " ws +:+ " " +:+ w.
Proof.
  induction ws as [|w' ws IH]; [done|]. intros _.
  destruct ws as [|w'' ws]; [done|].
  change ((w' :: w'' :: ws) ++ [w]) with (w' :: ((w'' :: ws) ++ [w])).
  rewrite join_cons by done. rewrite IH by done.
  rewrite (join_cons w' (w'' :: ws)) by done.
  by rewrite !app_assoc.
Qed.

Lemma join_starts (ws : list string) :
  ws <> [] -> forallb isWord ws = true ->
  startsNonSpace (Fmt.join " " ws) = true.
Proof.
  destruct ws as [|w ws]; [done|]. intros _ Hws.
  simpl in Hws. apply andb_prop in Hws as [Hw _].
  destruct ws as [|w' ws]; [by apply isWord_starts|].
  rewrite join_cons by done.
  by apply startsNonSpace_app; [apply isWord_starts|].
Qed.

Lemma join_ends (ws : list string) :
  ws <> [] -> forallb isWord ws = true ->
  endsNonSpace (Fmt.join " " ws) = true.
Proof.
  destruct ws as [|w ws _] using rev_ind; [done|]. intros _ Hws.
  rewrite forallb_app in Hws. apply andb_prop in Hws as [_ Hw].
  simpl in Hw. rewrite andb_true_r in Hw.
  destruct ws as [|w' ws].
  - simpl. by apply isWord_ends.
  - rewrite join_snoc by done. rewrite <- app_assoc.
    apply endsNonSpace_app; [|by apply isWord_ends].
    by rewrite rev_app.
Qed.

Lemma TrimSpace_join (ws : list string) :
  ws <> [] -> forallb isWord ws = true ->
  TrimSpace (Fmt.join " " ws) = Fmt.join " " ws.
Proof.
  intros Hne Hws. apply TrimSpace_id;
    [by apply join_starts | by apply join_ends].
Qed.

Lemma isWord_TrimSpace (w : string) : isWord w = true -> TrimSpace w = w.
Proof.
  intros Hw.
  exact (TrimSpace_join [w] ltac:(done) ltac:(by simpl; rewrite Hw)).
Qed.

Lemma join_nonempty (ws : list string) :
  ws <> [] -> forallb isWord ws = true -> Fmt.join " " ws <> "".
Proof.
  intros Hne Hws Hj. pose proof (join_starts ws Hne Hws) as Hs.
  by rewrite Hj in Hs.
Qed.

(** [strings.Fields] on words joined by single blanks. *)
Lemma fieldsGo_word (w acc s : string) :
  noSpace w = true -> startsLow s = true ->
  fieldsGo 0 (Some acc) (w +:+ s) = fieldsGo 0 (Some (rev_onto w acc)) s.
Proof.
  revert acc. induction w as [|a w IH]; intros acc Hw Hs; [done|].
  pose proof (noSpace_head a w Hw) as Ha.
  cbn [noSpace] in Hw. apply andb_prop in Hw as [_ Hw].
  rewrite <- (spaceWidth_app (String a w) s) in Ha by done.
  rewrite app_cons in Ha |- *. cbn [fieldsGo]. rewrite Ha.
  by apply IH.
Qed.

Lemma fieldsGo_start (w s : string) :
  isWord w = true -> startsLow s = true ->
  fieldsGo 0 None (w +:+ s) = fieldsGo 0 (Some (rev w)) s.
Proof.
  unfold isWord. destruct w as [|a w]; [done|]. intros [_ Hw]%andb_prop Hs.
  pose proof (noSpace_head a w Hw) as Ha.
  cbn [noSpace] in Hw. apply andb_prop in Hw as [_ Hw].
  rewrite <- (spaceWidth_app (String a w) s) in Ha by done.
  rewrite app_cons in Ha |- *. cbn [fieldsGo]. rewrite Ha.
  rewrite fieldsGo_word by done. reflexivity.
Qed.

Lemma Fields_join (ws : list string) :
  forallb isWord ws = true -> Fields (Fmt.join " " ws) = ws.
Proof.
  unfold Fields. induction ws as [|w ws IH]; [done|]. intros Hws.
  simpl in Hws. apply andb_prop in Hws as [Hw Hws].
  destruct ws as [|w' ws].
  - simpl. rewrite <- (app_nil_r w) at 1. rewrite fieldsGo_start by done.
    simpl. by rewrite rev_involutive.
  - rewrite join_cons by done. rewrite fieldsGo_start by done.
    rewrite app_cons. cbn [fieldsGo].
    rewrite spaceWidth_isSpace by done.
    rewrite rev_involutive. f_equal.
    by apply IH.
Qed.

Lemma plainWord_isWord (ws : list string) :
  forallb plainWord ws = true -> forallb isWord ws = true.
Proof.
  induction ws as [|w ws IH]; [done|]. simpl. intros Hws.
  apply andb_prop in Hws as [Hw Hws]. rewrite (IH Hws), andb_true_r.
  unfold plainWord in Hw.
  by apply andb_prop in Hw as [Hw _], Hw as [Hw _].
Qed.

Lemma HasPrefix_nil (s : string) : HasPrefix s "" = true.
Proof. by destruct s. Qed.

(** Cutting at a separator of one byte that the first part does not hold. *)
Lemma cut_single (x : ascii) (s t : string) :
  cut (String x "") s = None ->
  cut (String x "") (s +:+ String x t) = Some (s, t).
Proof.
  induction s as [|a s IH]; intros Hs.
  - change ("" +:+ String x t) with (String x t).
    cbn [cut HasPrefix]. by rewrite Ascii.eqb_refl, HasPrefix_nil.
  - rewrite app_cons. cbn [cut HasPrefix] in Hs |- *.
    destruct (Ascii.eqb a x); [by rewrite HasPrefix_nil in Hs|].
    destruct (cut (String x "") s) as [[b r]|] eqn:Hc; [done|].
    by rewrite IH.
Qed.

Lemma space_isSpace (a : ascii) : Regexp.space a = true -> isSpace a = true.
Proof.
  unfold Regexp.space, isSpace.
  destruct (nat_of_ascii a =? 9), (nat_of_ascii a =? 10),
    (nat_of_ascii a =? 12), (nat_of_ascii a =? 13), (nat_of_ascii a =? 32);
    simpl; rewrite ?orb_true_r; done.
Qed.

Lemma noSpace_nonSpace (s : string) :
  noSpace s = true -> all nonSpace s = true.
Proof.
  intros Hs%noSpace_bytes. revert Hs.
  apply all_impl. intros a Ha. unfold nonSpace.
  destruct (Regexp.space a) eqn:Hs; [|done].
  by rewrite (space_isSpace a Hs) in Ha.
Qed.

End StringFacts.

(** ** Conditions *)

Module ConditionFacts.
Import Strings StringFacts.

Section SplitLogical.
Context `{Strconv}.

Lemma splitLogicalLoop_word (parts : list string) (cur w : string)
    (words : list string) :
  plainWord w = true ->
  splitLogicalLoop parts cur (w :: words)
  = splitLogicalLoop parts
      (if String.eqb cur "" then w else cur +:+ " " +:+ w) words.
Proof.
  unfold plainWord. intros Hw.
  apply andb_prop in Hw as [Hw Hor], Hw as [_ Hand].
  apply negb_true_iff in Hor, Hand.
  cbn [splitLogicalLoop]. rewrite Hand, Hor. simpl.
  by destruct (String.eqb cur "").
Qed.

Lemma splitLogicalLoop_operand (ws : list string) (parts : list string)
    (words : list string) :
  operandWords ws ->
  splitLogicalLoop parts "" (ws ++ words)
  = splitLogicalLoop parts (Fmt.join " " ws) words.
Proof.
  intros [Hne Hws].
  assert (Hgen : forall ws' cur, cur <> "" -> forallb plainWord ws' = true ->
            splitLogicalLoop parts cur (ws' ++ words)
            = splitLogicalLoop parts
                (match ws' with
                 | [] => cur
                 | _ => cur +:+ " " +:+ Fmt.join " " ws'
                 end) words).
  { induction ws' as [|w ws' IH]; intros cur Hcur Hws'; [done|].
    simpl in Hws'. apply andb_prop in Hws' as [Hw Hws'].
    change ((w :: ws') ++ words) with (w :: (ws' ++ words)).
    rewrite splitLogicalLoop_word by done.
    rewrite (proj2 (String.eqb_neq _ _) Hcur).
    rewrite IH; [| |done].
    2: { intros Hc. apply Hcur. destruct cur as [|x cur]; [reflexivity|].
         rewrite app_cons in Hc. discriminate Hc. }
    destruct ws' as [|w' ws']; [done|].
    rewrite (join_cons w) by done. by rewrite !app_assoc. }
  destruct ws as [|w ws]; [done|].
  simpl in Hws. apply andb_prop in Hws as [Hw Hws].
  change ((w :: ws) ++ words) with (w :: (ws ++ words)).
  rewrite splitLogicalLoop_word by done. simpl.
  assert (Hw' : w <> "").
  { intros ->. discriminate. }
  rewrite Hgen by done.
  destruct ws as [|w' ws]; reflexivity.
Qed.

Lemma splitLogicalLoop_keyword (parts : list string) (cur kw : string)
    (words : list string) :
  kw = "and" \/ kw = "or" ->
  splitLogicalLoop parts cur (kw :: words)
  = splitLogicalLoop (parts ++ [Strings.TrimSpace cur; kw]) "" words.
Proof. by intros [-> | ->]. Qed.

Lemma splitLogical_or_and (a b c : list string) :
  operandWords a -> operandWords b -> operandWords c ->
  splitLogical (Fmt.join " " a +:+ " or " +:+ Fmt.join " " b
                  +:+ " and " +:+ Fmt.join " " c)
  = [Fmt.join " " a; "or"; Fmt.join " " b; "and"; Fmt.join " " c].
Proof.
  intros Ha Hb Hc.
  pose proof Ha as [Hane Haw]. pose proof Hb as [Hbne Hbw].
  pose proof Hc as [Hcne Hcw].
  pose proof (plainWord_isWord _ Haw) as Haw'.
  pose proof (plainWord_isWord _ Hbw) as Hbw'.
  pose proof (plainWord_isWord _ Hcw) as Hcw'.
  set (ws := a ++ ["or"] ++ b ++ ["and"] ++ c).
  assert (Hws : forallb isWord ws = true).
  { unfold ws. rewrite !forallb_app, Haw', Hbw', Hcw'. reflexivity. }
  assert (Hjoin : Fmt.join " " a +:+ " or " +:+ Fmt.join " " b
                    +:+ " and " +:+ Fmt.join " " c
                  = Fmt.join " " ws).
  { unfold ws.
    assert (Happ : forall l1 l2, l1 <> [] -> l2 <> [] ->
              Fmt.join " " (l1 ++ l2)
              = Fmt.join " " l1 +:+ " " +:+ Fmt.join " " l2).
    { induction l1 as [|x l1 IH]; [done|]. intros l2 _ Hl2.
      destruct l1 as [|y l1].
      - simpl. by destruct l2.
      - change ((x :: y :: l1) ++ l2) with (x :: ((y :: l1) ++ l2)).
        rewrite join_cons by done. rewrite IH by done.
        rewrite (join_cons x (y :: l1)) by done. by rewrite !app_assoc. }
    rewrite Happ by done.
    rewrite (Happ ["or"]) by (by destruct b).
    rewrite (Happ b) by done.
    rewrite (Happ ["and"]) by done.
    reflexivity. }
  unfold splitLogical. rewrite Hjoin.
  rewrite TrimSpace_join by (done || by destruct a).
  rewrite Fields_join by done. unfold ws.
  rewrite splitLogicalLoop_operand by done.
  cbn [app]. rewrite splitLogicalLoop_keyword by auto.
  rewrite splitLogicalLoop_operand by done.
  cbn [app]. rewrite splitLogicalLoop_keyword by auto.
  rewrite <- (List.app_nil_r c) at 1.
  rewrite splitLogicalLoop_operand by done.
  cbn [splitLogicalLoop].
  rewrite (proj2 (String.eqb_neq _ _) (join_nonempty c Hcne Hcw')).
  rewrite !TrimSpace_join by done. simpl. reflexivity.
Qed.

End SplitLogical.

End ConditionFacts.

(** C3 (amended). Chained [and]/[or] are applied strictly from left to
    right: for all operands [a], [b] and [c] that are each one or more
    words joined by single blanks, no word holding white space (that of
    Unicode included) and none of them being [and] or [or], whose simple
    conditions evaluate to [A], [B] and [C], [evalCondition] of
    [a or b and c] returns [(A or B) and C]. *)
Theorem evalCondition_left_to_right `{Strconv} (a b c : list string)
    (data : gmap string value) (A B C : bool) :
  operandWords a -> operandWords b -> operandWords c ->
  evalSimpleCond (Fmt.join " " a) data = OK A ->
  evalSimpleCond (Fmt.join " " b) data = OK B ->
  evalSimpleCond (Fmt.join " " c) data = OK C ->
  evalCondition (Fmt.join " " a +:+ " or " +:+ Fmt.join " " b
                   +:+ " and " +:+ Fmt.join " " c) data
  = OK ((A || B) && C).
Proof.
  intros Ha Hb Hc HA HB HC. unfold evalCondition.
  rewrite ConditionFacts.splitLogical_or_and by done.
  destruct Ha as [Hane Haw], Hb as [Hbne Hbw], Hc as [Hcne Hcw].
  apply StringFacts.plainWord_isWord in Haw, Hbw, Hcw.
  rewrite StringFacts.TrimSpace_join by done. rewrite HA. simpl.
  cbn [evalConditionLoop].
  rewrite !StringFacts.TrimSpace_join by done. rewrite HB, HC. reflexivity.
Qed.

Lemma evalCondition_left_to_right_witness :
  evalCondition (H := Example.exampleStrconv) "true or false and x < 1" ∅
  = OK false.
Proof.
  apply (evalCondition_left_to_right (H := Example.exampleStrconv)
           ["true"] ["false"] ["x"; "<"; "1"] ∅ true false false).
  - split; [discriminate | reflexivity].
  - split; [discriminate | reflexivity].
  - split; [discriminate | reflexivity].
  - reflexivity.
  - reflexivity.
  - reflexivity.
Defined.

(** C3, as stated, fails: it does not hold for all operands.  An operand
    that holds [and] or [or] as a word, here inside a quoted text, is split
    at that word.  With [x] bound to the text [p and q], the operands
    [x == 'p and q'], [false] and [true] evaluate to true, false and true,
    and [(true or false) and true] is true, but the chained condition
    evaluates to false: its parts are [x == 'p], [q'], [false] and
    [true]. *)
Lemma evalCondition_quoted_keyword :
  let data : gmap string value := {[ "x" := VStr "p and q" ]} in
  evalSimpleCond (H := Example.exampleStrconv) "x == 'p and q'" data = OK true
  /\ evalSimpleCond (H := Example.exampleStrconv) "false" data = OK false
  /\ evalSimpleCond (H := Example.exampleStrconv) "true" data = OK true
  /\ splitLogical "x == 'p and q' or false and true"
     = ["x == 'p"; "and"; "q'"; "or"; "false"; "and"; "true"]
  /\ evalCondition (H := Example.exampleStrconv)
       "x == 'p and q' or false and true" data
     = OK false
  /\ evalCondition (H := Example.exampleStrconv)
       "x == 'p and q' or false and true" data
     <> OK ((true || false) && true).
Proof. split_and!; try (vm_compute; reflexivity). vm_compute. discriminate. Qed.

(** White space is that of Unicode: a condition whose words are separated
    by no-break spaces is split at them. *)
Lemma evalCondition_nbsp_example :
  let expr := "false" +:+ Example.nbsp +:+ "and" +:+ Example.nbsp +:+ "true" in
  Strings.Fields expr = ["false"; "and"; "true"]
  /\ evalCondition (H := Example.exampleStrconv) expr ∅ = OK false.
Proof. split; vm_compute; reflexivity. Qed.


(** ** Tokenizer *)

(** The tokens of a text in which neither delimiter occurs: the first part
    of the split is handled like the parts that follow an open marker, and
    gets the marker put in front of it. *)
Lemma tokenize_no_delimiters (content : string) :
  content <> "" ->
  Strings.Contains content "<{" = false ->
  Strings.Contains content "}>" = false ->
  tokenize content = [mkToken TText ("<{" +:+ content) "" ""].
Proof.
  intros Hne Hopen Hclose. unfold tokenize.
  rewrite (StringFacts.Split_no_sep _ _ Hopen). simpl.
  unfold tokenizePart. rewrite (proj2 (String.eqb_neq _ _) Hne).
  unfold Strings.SplitN2.
  rewrite (StringFacts.genSplit_no_sep _ _ _
             (StringFacts.cut_None_Contains _ _ Hclose)).
  reflexivity.
Qed.

(** ** Parser *)

Lemma agrees_end (tokens : list Token) (nodes : list Node) (top : Frame)
    (fs : list Frame) (i : nat) :
  tokens !! i = None ->
  agrees tokens nodes top fs i (Some (Err (unclosed top))).
Proof.
  intros Hi. split; [exact I|].
  rewrite drop_ge by (by apply lookup_ge_None). reflexivity.
Qed.

Lemma agrees_error (tokens : list Token) (nodes : list Node) (top : Frame)
    (fs : list Frame) (i : nat) (t : Token) (r : Result (Node * nat)) :
  tokens !! i = Some t ->
  match r with OK _ => False | _ => True end ->
  exec nodes (top :: fs) i (t :: drop (S i) tokens)
  = resume tokens nodes fs r ->
  agrees tokens nodes top fs i (Some r).
Proof.
  intros Hi Hr Hexec. split.
  - destruct r as [[n ni]| |]; [destruct Hr | exact I | exact I].
  - by rewrite (drop_S _ _ _ Hi).
Qed.

Lemma agrees_close (tokens : list Token) (nodes : list Node) (top : Frame)
    (fs : list Frame) (i : nat) (t : Token) (n : Node) :
  tokens !! i = Some t ->
  exec nodes (top :: fs) i (t :: drop (S i) tokens)
  = resume tokens nodes fs (OK (n, S i)) ->
  agrees tokens nodes top fs i (Some (OK (n, S i))).
Proof.
  intros Hi Hexec. split.
  - apply lookup_lt_Some in Hi. lia.
  - by rewrite (drop_S _ _ _ Hi).
Qed.

Lemma agrees_step (tokens : list Token) (nodes : list Node)
    (top top' : Frame) (fs : list Frame) (i : nat) (t : Token)
    (r : option (Result (Node * nat))) :
  tokens !! i = Some t ->
  exec nodes (top :: fs) i (t :: drop (S i) tokens)
  = exec nodes (top' :: fs) (S i) (drop (S i) tokens) ->
  agrees tokens nodes top' fs (S i) r ->
  agrees tokens nodes top fs i r.
Proof.
  intros Hi Hexec Hr. unfold agrees in *.
  destruct r as [r|]; [|exact Hr]. destruct Hr as [Hb He]. split.
  - destruct r as [[n ni]| |]; [lia | exact I | exact I].
  - rewrite (drop_S _ _ _ Hi), Hexec. exact He.
Qed.

Lemma agrees_nested (tokens : list Token) (nodes : list Node)
    (top new : Frame) (fs : list Frame) (i : nat) (t : Token)
    (r1 : option (Result (Node * nat)))
    (k : Node * nat -> option (Result (Node * nat))) :
  tokens !! i = Some t ->
  exec nodes (top :: fs) i (t :: drop (S i) tokens)
  = exec nodes (new :: top :: fs) (S i) (drop (S i) tokens) ->
  agrees tokens nodes new (top :: fs) (S i) r1 ->
  (forall n ni, S i < ni <= length tokens ->
     agrees tokens nodes (appendTo top n) fs ni (k (n, ni))) ->
  agrees tokens nodes top fs i (step r1 k).
Proof.
  intros Hi Hexec Hr1 Hk. unfold agrees in Hr1.
  destruct r1 as [r1|]; [|destruct Hr1]. destruct Hr1 as [Hb He].
  destruct r1 as [[n ni]|e|]; simpl.
  - specialize (Hk n ni Hb). unfold agrees in *.
    destruct (k (n, ni)) as [r|]; [|exact Hk]. destruct Hk as [Hb' He'].
    split.
    + destruct r as [[n' ni']| |]; [lia | exact I | exact I].
    + rewrite (drop_S _ _ _ Hi), Hexec, He. simpl. exact He'.
  - split; [exact I|]. by rewrite (drop_S _ _ _ Hi), Hexec, He.
  - split; [exact I|]. by rewrite (drop_S _ _ _ Hi), Hexec, He.
Qed.

Ltac exec_step Ht :=
  cbn [exec appendNode appendTo resume]; unfold leafNode;
  rewrite ?Ht; cbn [exec appendNode appendTo resume unexpected];
  rewrite ?Ht; reflexivity.

Ltac loop_step Hi Ht IH :=
  eapply agrees_step; [exact Hi | exec_step Ht | apply IH; lia].

Ltac loop_nested Hi Ht IH1 IH2 :=
  eapply agrees_nested;
  [exact Hi | exec_step Ht | apply IH1; lia | intros ? ? ?; apply IH2; lia].

Ltac loop_error Hi Ht :=
  eapply agrees_error; [exact Hi | exact I | exec_step Ht].

Ltac loop_for Hi Ht IH1 IH2 :=
  let Hh := fresh "Hh" in
  match goal with
  | |- context [forHeader ?t] => destruct (forHeader t) eqn:Hh
  end;
  [ eapply agrees_nested;
    [exact Hi
    | cbn [exec]; rewrite Ht, Hh; reflexivity
    | apply IH1; lia
    | intros ? ? ?; apply IH2; lia]
  | eapply agrees_error;
    [exact Hi | exact I | cbn [exec resume]; rewrite Ht, Hh; reflexivity]
  | eapply agrees_error;
    [exact Hi | exact I | cbn [exec resume]; rewrite Ht, Hh; reflexivity] ].

(** The three loops and [exec] agree, for every fuel above the number of
    tokens still to read. *)
Lemma parse_loops_exec (tokens : list Token) (fuel : nat) :
  (forall start i st nodes fs,
     length tokens - i < fuel ->
     agrees tokens nodes (FIf start st) fs i
            (parseIfLoop fuel tokens start i st))
  /\ (forall start i node nodes fs,
        length tokens - i < fuel ->
        agrees tokens nodes (FFor start node) fs i
               (parseForLoop fuel tokens start i node))
  /\ (forall start i st nodes fs,
        length tokens - i < fuel ->
        agrees tokens nodes (FSwitch start st) fs i
               (parseSwitchLoop fuel tokens start i st)).
Proof.
  induction fuel as [|fuel (IHif & IHfor & IHsw)].
  { split_and!; intros; lia. }
  split_and!.
  - intros start i st nodes fs Hfuel. cbn [parseIfLoop].
    destruct (tokens !! i) as [t|] eqn:Hi;
      [|apply (agrees_end _ _ (FIf start st)), Hi].
    pose proof (lookup_lt_Some _ _ _ Hi) as Hlt.
    rewrite ?Nat.add_1_r.
    destruct (Type_ t) eqn:Ht.
    + loop_step Hi Ht IHif.
    + loop_step Hi Ht IHif.
    + loop_nested Hi Ht IHif IHif.
    + loop_step Hi Ht IHif.
    + loop_step Hi Ht IHif.
    + eapply agrees_close; [exact Hi | exec_step Ht].
    + loop_for Hi Ht IHfor IHif.
    + loop_error Hi Ht.
    + loop_nested Hi Ht IHsw IHif.
    + loop_error Hi Ht.
    + loop_error Hi Ht.
    + loop_error Hi Ht.
  - intros start i node nodes fs Hfuel. cbn [parseForLoop].
    destruct (tokens !! i) as [t|] eqn:Hi;
      [|apply (agrees_end _ _ (FFor start node)), Hi].
    pose proof (lookup_lt_Some _ _ _ Hi) as Hlt.
    rewrite ?Nat.add_1_r.
    destruct (Type_ t) eqn:Ht.
    + loop_step Hi Ht IHfor.
    + loop_step Hi Ht IHfor.
    + loop_nested Hi Ht IHif IHfor.
    + loop_error Hi Ht.
    + loop_error Hi Ht.
    + loop_error Hi Ht.
    + loop_for Hi Ht IHfor IHfor.
    + eapply agrees_close; [exact Hi | exec_step Ht].
    + loop_nested Hi Ht IHsw IHfor.
    + loop_error Hi Ht.
    + loop_error Hi Ht.
    + loop_error Hi Ht.
  - intros start i st nodes fs Hfuel. cbn [parseSwitchLoop].
    destruct (tokens !! i) as [t|] eqn:Hi;
      [|apply (agrees_end _ _ (FSwitch start st)), Hi].
    pose proof (lookup_lt_Some _ _ _ Hi) as Hlt.
    rewrite ?Nat.add_1_r.
    destruct (Type_ t) eqn:Ht.
    + loop_step Hi Ht IHsw.
    + loop_step Hi Ht IHsw.
    + loop_nested Hi Ht IHif IHsw.
    + loop_error Hi Ht.
    + loop_error Hi Ht.
    + loop_error Hi Ht.
    + loop_for Hi Ht IHfor IHsw.
    + loop_error Hi Ht.
    + loop_nested Hi Ht IHsw IHsw.
    + loop_step Hi Ht IHsw.
    + loop_step Hi Ht IHsw.
    + eapply agrees_close; [exact Hi | exec_step Ht].
Qed.

Lemma compileLoop_exec (tokens : list Token) (fuel i : nat)
    (nodes : list Node) :
  length tokens - i < fuel ->
  compileLoop fuel tokens i nodes = Some (exec nodes [] i (drop i tokens)).
Proof.
  revert i nodes.
  induction fuel as [|fuel IH]; intros i nodes Hfuel; [lia|].
  cbn [compileLoop].
  destruct (tokens !! i) as [t|] eqn:Hi.
  2: { rewrite drop_ge by (by apply lookup_ge_None). reflexivity. }
  pose proof (lookup_lt_Some _ _ _ Hi) as Hlt.
  pose proof (parse_loops_exec tokens fuel) as (Hif & Hfor & Hsw).
  rewrite (drop_S _ _ _ Hi), ?Nat.add_1_r. cbn [exec].
  unfold parseIf, parseFor, parseSwitch, leafNode. rewrite Hi.
  destruct (Type_ t) eqn:Ht; cbn [appendNode unexpected];
    rewrite ?Ht, ?Nat.add_1_r; try reflexivity.
  - apply IH. lia.
  - apply IH. lia.
  - specialize (Hif i (S i) (mkIfState [(Value t, [])] [] false) nodes []).
    unfold agrees in Hif.
    destruct (parseIfLoop fuel tokens i (S i) _) as [r|];
      [|destruct Hif; lia].
    destruct Hif as [Hb ->]; [lia|].
    destruct r as [[n ni]| |]; simpl; [apply IH; lia | done | done].
  - destruct (forHeader t) as [node| |]; [|done|done].
    specialize (Hfor i (S i) node nodes []). unfold agrees in Hfor.
    destruct (parseForLoop fuel tokens i (S i) _) as [r|];
      [|destruct Hfor; lia].
    destruct Hfor as [Hb ->]; [lia|].
    destruct r as [[n ni]| |]; simpl; [apply IH; lia | done | done].
  - specialize (Hsw i (S i) (mkSwitchState (Value t) [] [] "" []) nodes []).
    unfold agrees in Hsw.
    destruct (parseSwitchLoop fuel tokens i (S i) _) as [r|];
      [|destruct Hsw; lia].
    destruct Hsw as [Hb ->]; [lia|].
    destruct r as [[n ni]| |]; simpl; [apply IH; lia | done | done].
Qed.

(** [compileTokens] never runs out of fuel, and computes what the machine
    with the explicit stack computes. *)
Lemma compileTokens_exec (tokens : list Token) :
  compileTokens tokens = exec [] [] 0 tokens.
Proof.
  unfold compileTokens. rewrite compileLoop_exec by lia. reflexivity.
Qed.

Lemma compileLoop_fuel (tokens : list Token) :
  is_Some (compileLoop (S (length tokens)) tokens 0 []).
Proof. rewrite compileLoop_exec by lia. eauto. Qed.

Lemma frameKind_appendTo (f : Frame) (n : Node) :
  frameKind (appendTo f n) = frameKind f.
Proof. by destruct f. Qed.

Lemma unclosed_frameKind (f : Frame) :
  unclosed f = unclosedAt (frameKind f).1 (frameKind f).2.
Proof. by destruct f. Qed.

(** What [exec] returns, read off the nesting. *)
Lemma exec_run (ts : list Token) (nodes : list Node) (frames : list Frame)
    (i : nat) :
  match run (frameKind <$> frames) i ts with
  | Some [] => exists nodes', exec nodes frames i ts = OK nodes'
  | Some ((k, s) :: _) => exec nodes frames i ts = Err (unclosedAt k s)
  | None => forall nodes', exec nodes frames i ts <> OK nodes'
  end.
Proof.
  revert nodes frames i.
  induction ts as [|t ts IH]; intros nodes frames i.
  - simpl. destruct frames as [|f fs]; simpl; [eauto|].
    rewrite unclosed_frameKind. by destruct (frameKind f).
  - cbn [run exec].
    destruct (Type_ t) eqn:Ht.
    + destruct frames as [|f fs]; cbn [appendNode].
      * apply (IH _ []).
      * specialize (IH nodes (appendTo f (leafNode t) :: fs) (S i)).
        by rewrite fmap_cons, frameKind_appendTo in IH.
    + destruct frames as [|f fs]; cbn [appendNode].
      * apply (IH _ []).
      * specialize (IH nodes (appendTo f (leafNode t) :: fs) (S i)).
        by rewrite fmap_cons, frameKind_appendTo in IH.
    + apply (IH nodes (FIf i _ :: frames)).
    + destruct frames as [|[s st|s st|s st] fs]; simpl; try done.
      apply (IH nodes (FIf s _ :: fs)).
    + destruct frames as [|[s st|s st|s st] fs]; simpl; try done.
      apply (IH nodes (FIf s _ :: fs)).
    + destruct frames as [|[s st|s st|s st] fs]; simpl; try done.
      destruct fs as [|f fs]; cbn [appendNode].
      * apply (IH _ []).
      * specialize (IH nodes (appendTo f (IfNode (branches st) (elseBody st))
                                :: fs) (S i)).
        by rewrite fmap_cons, frameKind_appendTo in IH.
    + destruct (forHeader t) as [node| |]; try done.
      apply (IH nodes (FFor i node :: frames)).
    + destruct frames as [|[s st|s st|s st] fs]; simpl; try done.
      destruct fs as [|f fs]; cbn [appendNode].
      * apply (IH _ []).
      * specialize (IH nodes
                      (appendTo f (ForNode (IndexVar_ st) (ItemVar_ st)
                                           (ListExpr_ st) (Body_ st))
                         :: fs) (S i)).
        by rewrite fmap_cons, frameKind_appendTo in IH.
    + apply (IH nodes (FSwitch i _ :: frames)).
    + destruct frames as [|[s st|s st|s st] fs]; simpl; try done.
      apply (IH nodes (FSwitch s _ :: fs)).
    + destruct frames as [|[s st|s st|s st] fs]; simpl; try done.
      apply (IH nodes (FSwitch s _ :: fs)).
    + destruct frames as [|[s st|s st|s st] fs]; simpl; try done.
      destruct fs as [|f fs]; cbn [appendNode].
      * apply (IH _ []).
      * specialize (IH nodes
                      (appendTo f (SwitchNode (Expr_ (flushCase st))
                                              (Cases_ (flushCase st))
                                              (SDefault (flushCase st)))
                         :: fs) (S i)).
        by rewrite fmap_cons, frameKind_appendTo in IH.
Qed.

Lemma forHeader_sameKind (t t' : Token) :
  Type_ t = TFor -> sameKind t t' -> forHeader t = forHeader t'.
Proof.
  intros Ht [_ Hs]. destruct (Hs Ht) as [Hv Hr].
  unfold forHeader. by rewrite Hv, Hr.
Qed.

Lemma run_sameKind (ts ts' : list Token) (stack : list (Kind * nat))
    (i : nat) :
  Forall2 sameKind ts ts' -> run stack i ts = run stack i ts'.
Proof.
  intros Hts. revert stack i.
  induction Hts as [|t t' ts ts' Hk _ IH]; intros stack i; [reflexivity|].
  cbn [run]. pose proof Hk as [Hty _]. rewrite <- Hty.
  destruct (Type_ t) eqn:Ht; try destruct stack as [|[[] ?] ?];
    rewrite ?IH; try reflexivity.
  all: by rewrite (forHeader_sameKind t t' Ht Hk).
Qed.

(** The start tokens on the stack of [run] open the constructs they stand
    for. *)
Lemma run_stack_opening (ts pre : list Token) (stack stack' : list (Kind * nat)) :
  run stack (length pre) ts = Some stack' ->
  Forall (fun ks => Type_ <$> (pre ++ ts) !! ks.2 = Some (opening ks.1)) stack ->
  Forall (fun ks => Type_ <$> (pre ++ ts) !! ks.2 = Some (opening ks.1)) stack'.
Proof.
  revert pre stack.
  induction ts as [|t ts IH]; intros pre stack Hrun Hst.
  - simpl in Hrun. by injection Hrun as <-.
  - cbn [run] in Hrun.
    assert (Hpre : pre ++ t :: ts = (pre ++ [t]) ++ ts)
      by (by rewrite <- app_assoc).
    assert (Hlen : S (length pre) = length (pre ++ [t]))
      by (rewrite length_app; simpl; lia).
    assert (Hpush : forall k, Type_ t = opening k ->
              Forall (fun ks => Type_ <$> (pre ++ t :: ts) !! ks.2
                                = Some (opening ks.1))
                     ((k, length pre) :: stack)).
    { intros k Hk. constructor; [|exact Hst]. simpl.
      by rewrite list_lookup_middle, <- Hk. }
    specialize (IH (pre ++ [t])). rewrite <- Hpre, <- Hlen in IH.
    destruct (Type_ t) eqn:Ht;
      repeat match type of Hrun with
        | match ?x with _ => _ end = _ => destruct x as [|[[] ?] ?] eqn:?
        | match forHeader ?x with _ => _ end = _ => destruct (forHeader x)
        end;
      try discriminate;
      try (eapply IH; [exact Hrun|]);
      first [ exact Hst | by apply Hpush
            | by eapply Forall_inv_tail | idtac ].
Qed.

(** Compilation succeeds exactly when every construct is closed and every
    tag stands where its kind is allowed. *)
Lemma compileTokens_OK_iff (tokens : list Token) :
  (exists nodes, compileTokens tokens = OK nodes) <-> run [] 0 tokens = Some [].
Proof.
  rewrite compileTokens_exec.
  pose proof (exec_run tokens [] [] 0) as Hrun. simpl in Hrun.
  destruct (run [] 0 tokens) as [[|[k s] stack]|]; split; try done.
  - intros [nodes Hn]. rewrite Hrun in Hn. discriminate.
  - intros [nodes Hn]. by destruct (Hrun nodes).
Qed.

Lemma frameKind_appendNode (nodes : list Node) (frames : list Frame)
    (n : Node) :
  frameKind <$> (appendNode nodes frames n).2 = frameKind <$> frames.
Proof.
  destruct frames as [|f fs]; [done|]. simpl.
  by rewrite frameKind_appendTo.
Qed.

(** [exec] over a prefix of the tokens that [run] accepts: the stack of
    frames that it reaches has the shape of the stack of [run]. *)
Lemma exec_prefix (pre : list Token) :
  forall (nodes : list Node) (frames : list Frame) (i : nat)
         (stack' : list (Kind * nat)),
  run (frameKind <$> frames) i pre = Some stack' ->
  exists nodes' frames',
    frameKind <$> frames' = stack'
    /\ forall rest,
         exec nodes frames i (pre ++ rest)
         = exec nodes' frames' (i + length pre) rest.
Proof.
  induction pre as [|t pre IH]; intros nodes frames i stack' Hrun.
  { simpl in Hrun. injection Hrun as <-. exists nodes, frames.
    split; [done|]. intros rest. by rewrite Nat.add_0_r. }
  assert (Hgo : forall nodes1 frames1,
            run (frameKind <$> frames1) (S i) pre = Some stack' ->
            (forall rest, exec nodes frames i ((t :: pre) ++ rest)
                          = exec nodes1 frames1 (S i) (pre ++ rest)) ->
            exists nodes' frames',
              frameKind <$> frames' = stack'
              /\ forall rest,
                   exec nodes frames i ((t :: pre) ++ rest)
                   = exec nodes' frames' (i + length (t :: pre)) rest).
  { intros nodes1 frames1 Hr He.
    destruct (IH nodes1 frames1 (S i) stack' Hr) as (n' & f' & Hk & Hx).
    exists n', f'. split; [done|]. intros rest. rewrite He, Hx.
    f_equal. simpl. lia. }
  assert (Hleaf : run (frameKind <$> frames) (S i) pre = Some stack' ->
            (Type_ t = TText \/ Type_ t = TVar) ->
            exists nodes' frames',
              frameKind <$> frames' = stack'
              /\ forall rest,
                   exec nodes frames i ((t :: pre) ++ rest)
                   = exec nodes' frames' (i + length (t :: pre)) rest).
  { intros Hr Ht.
    apply (Hgo (appendNode nodes frames (leafNode t)).1
               (appendNode nodes frames (leafNode t)).2).
    - by rewrite frameKind_appendNode.
    - intros rest. cbn [app exec].
      destruct (appendNode nodes frames (leafNode t)) as [n' f'].
      by destruct Ht as [-> | ->]. }
  assert (Hclose : forall (n : Node) (fs : list Frame),
            run (frameKind <$> fs) (S i) pre = Some stack' ->
            (forall rest,
               exec nodes frames i ((t :: pre) ++ rest)
               = exec (appendNode nodes fs n).1 (appendNode nodes fs n).2
                      (S i) (pre ++ rest)) ->
            exists nodes' frames',
              frameKind <$> frames' = stack'
              /\ forall rest,
                   exec nodes frames i ((t :: pre) ++ rest)
                   = exec nodes' frames' (i + length (t :: pre)) rest).
  { intros n fs Hr He.
    apply (Hgo (appendNode nodes fs n).1 (appendNode nodes fs n).2);
      [by rewrite frameKind_appendNode|exact He]. }
  cbn [run] in Hrun.
  destruct (Type_ t) eqn:Ht.
  - apply Hleaf; [|by left].
    by destruct (frameKind <$> frames) as [|[[] ?] ?].
  - apply Hleaf; [|by right].
    by destruct (frameKind <$> frames) as [|[[] ?] ?].
  - apply (Hgo nodes (FIf i (mkIfState [(Value t, [])] [] false) :: frames)).
    + rewrite fmap_cons. cbn [frameKind].
      by destruct (frameKind <$> frames) as [|[[] ?] ?].
    + intros rest. cbn [app exec]. by rewrite Ht.
  - destruct frames as [|[s st|s st|s st] fs]; try done.
    apply (Hgo nodes (FIf s (mkIfState (branches st ++ [(Value t, [])])
                                       (elseBody st) false) :: fs));
      [exact Hrun|]. intros rest. cbn [app exec]. by rewrite Ht.
  - destruct frames as [|[s st|s st|s st] fs]; try done.
    apply (Hgo nodes (FIf s (mkIfState (branches st) [] true) :: fs));
      [exact Hrun|]. intros rest. cbn [app exec]. by rewrite Ht.
  - destruct frames as [|[s st|s st|s st] fs]; try done.
    apply (Hclose (IfNode (branches st) (elseBody st)) fs); [exact Hrun|].
    intros rest. cbn [app exec]. rewrite Ht.
    by destruct (appendNode nodes fs _).
  - destruct (forHeader t) as [node| |] eqn:Hh.
    + apply (Hgo nodes (FFor i node :: frames)).
      * rewrite fmap_cons. cbn [frameKind].
        by destruct (frameKind <$> frames) as [|[[] ?] ?].
      * intros rest. cbn [app exec]. by rewrite Ht, Hh.
    + by destruct (frameKind <$> frames) as [|[[] ?] ?].
    + by destruct (frameKind <$> frames) as [|[[] ?] ?].
  - destruct frames as [|[s st|s st|s st] fs]; try done.
    apply (Hclose (ForNode (IndexVar_ st) (ItemVar_ st) (ListExpr_ st)
                           (Body_ st)) fs); [exact Hrun|].
    intros rest. cbn [app exec]. rewrite Ht.
    by destruct (appendNode nodes fs _).
  - apply (Hgo nodes
             (FSwitch i (mkSwitchState (Value t) [] [] "" []) :: frames)).
    + rewrite fmap_cons. cbn [frameKind].
      by destruct (frameKind <$> frames) as [|[[] ?] ?].
    + intros rest. cbn [app exec]. by rewrite Ht.
  - destruct frames as [|[s st|s st|s st] fs]; try done.
    apply (Hgo nodes
             (FSwitch s (mkSwitchState (Expr_ (flushCase st))
                           (Cases_ (flushCase st)) (SDefault (flushCase st))
                           (Value t) []) :: fs));
      [exact Hrun|]. intros rest. cbn [app exec]. by rewrite Ht.
  - destruct frames as [|[s st|s st|s st] fs]; try done.
    apply (Hgo nodes
             (FSwitch s (mkSwitchState (Expr_ (flushCase st))
                           (Cases_ (flushCase st)) (SDefault (flushCase st))
                           "" []) :: fs));
      [exact Hrun|]. intros rest. cbn [app exec]. by rewrite Ht.
  - destruct frames as [|[s st|s st|s st] fs]; try done.
    apply (Hclose (SwitchNode (Expr_ (flushCase st)) (Cases_ (flushCase st))
                              (SDefault (flushCase st))) fs);
      [exact Hrun|].
    intros rest. cbn [app exec]. rewrite Ht.
    by destruct (appendNode nodes fs _).
Qed.

(** The header of a for tag splits, or it is the invalid-tag error. *)
Lemma forHeader_cases (t : Token) :
  (exists node, forHeader t = OK node)
  \/ forHeader t = Err (ErrInvalidFor (Raw t)).
Proof.
  unfold forHeader, Strings.SplitN2, Strings.Contains. cbn [Strings.genSplit].
  destruct (Strings.cut ":" (Value t)) as [[b r]|]; [|by right].
  destruct (Strings.cut "," (Strings.TrimSpace b)) as [[p0 p1]|];
    left; eauto.
Qed.

(** A token at which [run] stops inside an open construct: [exec] returns
    the error of that token. *)
Lemma exec_rejected (t : Token) (post : list Token) (nodes : list Node)
    (f : Frame) (fs : list Frame) (i : nat) :
  run (frameKind <$> (f :: fs)) i [t] = None ->
  exec nodes (f :: fs) i (t :: post) = Err (rejected (frameKind f).1 t).
Proof.
  rewrite fmap_cons. intros Hrun. cbn [run] in Hrun. cbn [exec].
  unfold rejected.
  destruct (Type_ t) eqn:Ht;
    try (destruct (forHeader_cases t) as [[node Hn]|Hn]; rewrite Hn in *);
    destruct f as [s st|s st|s st]; cbn [frameKind fst snd] in *;
    try discriminate; try reflexivity;
    unfold unexpected, unexpectedIn; by rewrite Ht.
Qed.

(** Every token sequence runs to its end or stops at a first token that
    stands where its kind is not allowed. *)
Lemma run_stops (ts : list Token) :
  forall (stack : list (Kind * nat)) (i : nat),
  run stack i ts = None ->
  exists pre t post stack',
    ts = pre ++ t :: post
    /\ run stack i pre = Some stack'
    /\ run stack' (i + length pre) [t] = None.
Proof.
  induction ts as [|t ts IH]; intros stack i Hrun; [done|].
  destruct (run stack i [t]) as [stack1|] eqn:H1.
  - assert (Hnext : run stack1 (S i) ts = None).
    { cbn [run] in Hrun, H1.
      destruct (Type_ t); try destruct (forHeader t);
        try destruct stack as [|[[] ?] ?];
        try discriminate; by injection H1 as <-. }
    destruct (IH stack1 (S i) Hnext) as (pre & t' & post & st' & -> & Hp & Ht).
    exists (t :: pre), t', post, st'. split; [done|]. split.
    + cbn [run] in H1 |- *.
      destruct (Type_ t); try destruct (forHeader t);
        try destruct stack as [|[[] ?] ?];
        try discriminate; by injection H1 as <-.
    + by replace (i + length (t :: pre)) with (S i + length pre)
        by (simpl; lia).
  - exists [], t, ts, stack. split; [done|]. split; [done|].
    by rewrite Nat.add_0_r.
Qed.

(** C8 (amended). For every token sequence [pre] that leaves a construct
    open, the innermost one being of kind [k] with its start token at index
    [s]: the token at [s] is the opening token of that construct; when the
    tokens end there, [compileTokens] returns the unclosed-construct error
    for [k] that names [s]; when a token follows that the construct does
    not allow (a closing or branch tag of another construct, or a for tag
    whose header does not split), whatever comes behind it,
    [compileTokens] returns the error of that token, which gives its type
    and names no start token.  In both cases no node list is returned. *)
Theorem compileTokens_unclosed (pre post : list Token) (k : Kind) (s : nat)
    (stack : list (Kind * nat)) :
  run [] 0 pre = Some ((k, s) :: stack) ->
  Type_ <$> pre !! s = Some (opening k)
  /\ compileTokens pre = Err (unclosedAt k s)
  /\ (forall t, run ((k, s) :: stack) (length pre) [t] = None ->
        compileTokens (pre ++ t :: post) = Err (rejected k t))
  /\ (forall nodes, compileTokens pre <> OK nodes)
  /\ (forall t nodes, run ((k, s) :: stack) (length pre) [t] = None ->
        compileTokens (pre ++ t :: post) <> OK nodes).
Proof.
  intros Hrun.
  assert (Herr : compileTokens pre = Err (unclosedAt k s)).
  { rewrite compileTokens_exec.
    pose proof (exec_run pre [] [] 0) as He. simpl in He.
    by rewrite Hrun in He. }
  assert (Hrej : forall t, run ((k, s) :: stack) (length pre) [t] = None ->
            compileTokens (pre ++ t :: post) = Err (rejected k t)).
  { intros t Ht. rewrite compileTokens_exec.
    destruct (exec_prefix pre [] [] 0 _ Hrun) as (n' & fr & Hk & ->).
    destruct fr as [|f fs]; [done|].
    rewrite exec_rejected.
    - simpl in Hk. injection Hk as Hf _. by rewrite Hf.
    - by rewrite Hk. }
  split_and!.
  - pose proof (run_stack_opening pre [] [] _ Hrun (Forall_nil_2 _)) as Hs.
    by apply Forall_inv in Hs.
  - exact Herr.
  - exact Hrej.
  - intros nodes. rewrite Herr. discriminate.
  - intros t nodes Ht. rewrite (Hrej t Ht). discriminate.
Qed.

Lemma compileTokens_unclosed_witness :
  compileTokens (tokenize "<{if a}>x<{for v in vs}>y<{/for}>z")
  = Err (ErrUnclosedIf 0)
  /\ compileTokens (tokenize "<{if a}>x<{for v in vs}>y<{/for}>z<{/for}>w")
     = Err (ErrUnexpectedInIf TEndFor).
Proof.
  destruct (compileTokens_unclosed
              (tokenize "<{if a}>x<{for v in vs}>y<{/for}>z")
              [mkToken TText "w" "" ""] KIf 0 [] eq_refl)
    as (_ & Hend & Hrej & _).
  split; [exact Hend|].
  exact (Hrej (mkToken TEndFor "" "" "/for") eq_refl).
Defined.

(** C8, as stated, fails: an if whose end tag never comes, with the end
    tag of a for in its body, is reported as an unexpected token inside
    the if, and a for left open by the end tag of the enclosing if as an
    unexpected token in the for.  Neither error names a start token. *)
Lemma compileTokens_unmatched_unnamed :
  let ts := [mkToken TIf "a" "" "if a"; mkToken TEndFor "" "" "/for"] in
  compileTokens ts = Err (ErrUnexpectedInIf TEndFor)
  /\ (forall (k : Kind) (s : nat), compileTokens ts <> Err (unclosedAt k s))
  /\ compileTokens (tokenize "<{if a}><{for v in vs}>y<{/if}>")
     = Err (ErrUnexpectedInFor TEndIf).
Proof.
  split; [reflexivity|]. split; [|reflexivity].
  intros k s. by destruct k.
Qed.

(** C6 (amended). Compilation does not read the conditions: two token
    sequences with the same kinds of tokens and the same for headers,
    whatever the text of their conditions, both compile or both fail.  A
    condition with a comparison operator and no right-hand operand is
    therefore no parse error. *)
Theorem compileTokens_condition_text (tokens tokens' : list Token) :
  Forall2 sameKind tokens tokens' ->
  (exists nodes, compileTokens tokens = OK nodes)
  <-> (exists nodes', compileTokens tokens' = OK nodes').
Proof.
  intros Hk. rewrite !compileTokens_OK_iff.
  by rewrite (run_sameKind _ _ _ _ Hk).
Qed.

Lemma compileTokens_condition_text_witness :
  exists nodes, compileTokens (tokenize "<{if x ==}>a<{/if}>") = OK nodes.
Proof.
  apply (compileTokens_condition_text
           (tokenize "<{if x ==}>a<{/if}>")
           (tokenize "<{if x == 1}>a<{/if}>")).
  - repeat constructor; discriminate.
  - eexists. reflexivity.
Defined.

(** C6, as stated, fails: the template with the condition [x ==] compiles,
    [getOrCompile] returns it without an error and stores it in the cache. *)
Lemma compile_missing_operand_no_error :
  let fs := Example.oneFile "/t.html" 1 "<{if x ==}>a<{/if}>" in
  let tpl := mkTemplate "/t.html" [IfNode [("x ==", [TextNode "a"])] []] 1 in
  compileTokens (tokenize "<{if x ==}>a<{/if}>") = OK (Nodes tpl)
  /\ getOrCompile fs "/t.html" Example.emptyWorld
     = (OK tpl, mkWorld {[ "/t.html" := tpl ]}
                        [EvStat "/t.html"; EvReadFile "/t.html"]).
Proof. split; reflexivity. Qed.

(** ** Rendering *)

Section RenderFacts.
Context `{Strconv}.

Lemma evalNodes_text (text : string) (data : mapref) (h : heap) :
  evalNodes [TextNode text] data h = (OK text, h).
Proof. simpl. by rewrite StringFacts.app_nil_r. Qed.

Lemma evalNodes_var (name def : string) (fl : list string) (data : mapref)
    (h : heap) :
  evalNodes [VarNode name def fl] data h
  = (match lookup (contents h data) name with
     | OK (Some v) => OK (Fmt.Sprint v)
     | OK None => OK def
     | Err e => Err e
     | Panic => Panic
     end, h).
Proof.
  simpl. destruct (lookup (contents h data) name) as [[v|]|e|]; simpl;
    by rewrite ?StringFacts.app_nil_r.
Qed.

(** [Render] on a file that has to be compiled and compiles. *)
Lemma Render_compile (fs : FileSystem) (file content : string)
    (nodes : list Node) (mod_ : Z) (data : mapref) (w : World) (h : heap) :
  let path := match Abs fs file with Some a => a | None => file end in
  Stat fs path = Some mod_ ->
  (tplCache w !! path = None
   \/ exists tpl, tplCache w !! path = Some tpl /\ ModTime tpl <> mod_) ->
  ReadFile fs path = Some content ->
  compileTokens (tokenize content) = OK nodes ->
  (Render fs file data w h).1.1 = (evalNodes nodes data h).1.
Proof.
  intros path Hstat Hmiss Hread Hcompile. unfold Render. fold path.
  rewrite (getOrCompile_miss fs path w mod_ content nodes
             Hstat Hmiss Hread Hcompile).
  simpl. by destruct (evalNodes nodes data h).
Qed.

End RenderFacts.

(** C1, on the code. For every file that has to be compiled and whose
    content is not empty and holds neither delimiter, the compiled template
    is one text node that holds the content with the open marker in front
    of it, and [Render] returns that text, not the content. *)
Theorem Render_no_tags_prefixed `{Strconv} (fs : FileSystem)
    (file content : string) (mod_ : Z) (data : mapref) (w : World)
    (h : heap) :
  let path := match Abs fs file with Some a => a | None => file end in
  Stat fs path = Some mod_ ->
  (tplCache w !! path = None
   \/ exists tpl, tplCache w !! path = Some tpl /\ ModTime tpl <> mod_) ->
  ReadFile fs path = Some content ->
  content <> "" ->
  Strings.Contains content "<{" = false ->
  Strings.Contains content "}>" = false ->
  (getOrCompile fs path w).1
  = OK (mkTemplate path [TextNode ("<{" +:+ content)] mod_)
  /\ (Render fs file data w h).1.1 = OK ("<{" +:+ content).
Proof.
  intros path Hstat Hmiss Hread Hne Hopen Hclose.
  assert (Hc : compileTokens (tokenize content)
               = OK [TextNode ("<{" +:+ content)])
    by (by rewrite (tokenize_no_delimiters content Hne Hopen Hclose)).
  split.
  - by rewrite (getOrCompile_miss fs path w mod_ content _
                  Hstat Hmiss Hread Hc).
  - rewrite (Render_compile fs file content _ mod_ data w h
               Hstat Hmiss Hread Hc).
    by rewrite evalNodes_text.
Qed.

Lemma Render_no_tags_prefixed_witness :
  (Render (H := Example.exampleStrconv)
          (Example.oneFile "/t.html" 1 "hello") "/t.html" None
          Example.emptyWorld ∅).1.1
  = OK "<{hello".
Proof.
  refine (proj2 (Render_no_tags_prefixed (H := Example.exampleStrconv)
                   (Example.oneFile "/t.html" 1 "hello") "/t.html" "hello"
                   1 None Example.emptyWorld ∅ _ _ _ _ _ _)).
  - reflexivity.
  - left. reflexivity.
  - reflexivity.
  - discriminate.
  - reflexivity.
  - reflexivity.
Defined.

(** ** Regular expressions *)

Module RegexpFacts.
Import Regexp.

(** The bound of [starLoop] is never used up: any bound above the length of
    the remaining input gives the same iteration. *)
Lemma starLoop_bound (body : state -> caps -> list (state * caps))
    (greedy : bool) (n m : nat) (st : state) (c : caps) :
  String.length (rest st) < n -> String.length (rest st) < m ->
  starLoop body greedy n st c = starLoop body greedy m st c.
Proof.
  revert m st c. induction n as [|n IH]; intros m st c Hn Hm; [lia|].
  destruct m as [|m]; [lia|]. cbn [starLoop].
  assert (Hmore :
    flat_map (fun x => if String.length (rest (fst x)) <? String.length (rest st)
                       then starLoop body greedy n (fst x) (snd x) else [])
             (body st c)
    = flat_map (fun x => if String.length (rest (fst x)) <? String.length (rest st)
                         then starLoop body greedy m (fst x) (snd x) else [])
               (body st c)).
  { apply flat_map_ext. intros [st' c']. simpl.
    destruct (String.length (rest st') <? String.length (rest st)) eqn:Hlt;
      [|done].
    apply Nat.ltb_lt in Hlt. apply IH; lia. }
  by rewrite Hmore.
Qed.

Lemma starLoop_chr (p : ascii -> bool) (s : string) (n q : nat) (c : caps) :
  String.length s < n ->
  starLoop (matches (Chr p)) true n (State q s) c
  = map (fun st => (st, c)) (greedyRun p q s).
Proof.
  revert n q. induction s as [|a s IH]; intros n q Hn.
  - destruct n; [simpl in Hn; lia|]. reflexivity.
  - destruct n as [|n]; [lia|]. simpl in Hn.
    cbn [starLoop matches greedyRun rest pos].
    destruct (p a); [|reflexivity].
    cbn [flat_map fst snd rest String.length].
    replace (String.length s <? S (String.length s)) with true
      by (symmetry; apply Nat.ltb_lt; lia).
    rewrite IH by lia. rewrite List.app_nil_r, map_app. reflexivity.
Qed.

Lemma matches_star_chr (p : ascii -> bool) (s : string) (q : nat) (c : caps) :
  matches (Star true (Chr p)) (State q s) c
  = map (fun st => (st, c)) (greedyRun p q s).
Proof. cbn [matches rest]. apply starLoop_chr. lia. Qed.

Lemma matches_plus_chr (p : ascii -> bool) (a : ascii) (s : string) (q : nat)
    (c : caps) :
  p a = true ->
  matches (plus (Chr p)) (State q (String a s)) c
  = map (fun st => (st, c)) (greedyRun p (S q) s).
Proof.
  intros Ha. unfold plus. cbn [matches rest pos]. rewrite Ha.
  cbn [flat_map fst snd]. rewrite List.app_nil_r.
  pose proof (matches_star_chr p s (S q) c) as Hs.
  cbn [matches rest] in Hs. exact Hs.
Qed.

Lemma matches_plus_stops (p : ascii -> bool) (s : string) (q : nat)
    (c : caps) :
  stops p s = true -> matches (plus (Chr p)) (State q s) c = [].
Proof.
  intros Hs. unfold plus. cbn [matches rest pos].
  destruct s as [|a s]; [reflexivity|]. simpl in Hs.
  apply negb_true_iff in Hs. by rewrite Hs.
Qed.

Lemma greedyRun_stops (p : ascii -> bool) (s : string) (q : nat) :
  stops p s = true -> greedyRun p q s = [State q s].
Proof.
  destruct s as [|a s]; [reflexivity|]. simpl. intros Hs.
  apply negb_true_iff in Hs. by rewrite Hs.
Qed.

Lemma matches_Seq (r1 r2 : re) (st : state) (c : caps) :
  matches (Seq r1 r2) st c
  = flat_map (fun x => matches r2 (fst x) (snd x)) (matches r1 st c).
Proof. reflexivity. Qed.

Lemma matches_Group (n : nat) (r : re) (st : state) (c : caps) :
  matches (Group n r) st c
  = map (fun x => (fst x, (n, consumed st (fst x)) :: snd x))
        (matches r st c).
Proof. reflexivity. Qed.

Lemma matches_Chr (p : ascii -> bool) (a : ascii) (s : string) (q : nat)
    (c : caps) :
  matches (Chr p) (State q (String a s)) c
  = if p a then [(State (S q) s, c)] else [].
Proof. reflexivity. Qed.

Lemma flat_map_single {A B : Type} (f : A -> list B) (x : A) :
  flat_map f [x] = f x.
Proof. simpl. apply List.app_nil_r. Qed.

Lemma flat_map_map' {A B C : Type} (f : B -> list C) (g : A -> B)
    (l : list A) :
  flat_map f (map g l) = flat_map (fun x => f (g x)) l.
Proof. induction l as [|x l IH]; simpl; [done|]. by rewrite IH. Qed.

Lemma flat_map_nil {A B : Type} (f : A -> list B) (l : list A) :
  (forall x, In x l -> f x = []) -> flat_map f l = [].
Proof.
  induction l as [|x l IH]; intros Hf; simpl; [done|].
  rewrite Hf by (by left). apply IH. intros y Hy. apply Hf. by right.
Qed.

Lemma take_length (s : string) : Strings.take (String.length s) s = s.
Proof. induction s as [|a s IH]; simpl; [done|]. by rewrite IH. Qed.

(** The states of a greedy run are behind a prefix of the input. *)
Lemma In_greedyRun (p : ascii -> bool) (s : string) (q : nat) (st : state) :
  In st (greedyRun p q s) ->
  exists pre, s = pre +:+ rest st /\ pos st = q + String.length pre.
Proof.
  revert q. induction s as [|a s IH]; intros q Hin.
  - simpl in Hin. destruct Hin as [<- | []]. exists "". simpl. split; [done|lia].
  - simpl in Hin. destruct (p a).
    + apply in_app_or in Hin as [Hin | [<- | []]].
      * destruct (IH _ Hin) as (pre & Hs & Hq).
        exists (String a pre). rewrite StringFacts.app_cons, <- Hs.
        simpl. split; [done|lia].
      * exists "". simpl. split; [done|lia].
    + destruct Hin as [<- | []]. exists "". simpl. split; [done|lia].
Qed.

(** A run over a prefix in the class goes on into what follows, and the
    states behind the prefix come first. *)
Lemma greedyRun_app (p : ascii -> bool) (l t : string) (q : nat) :
  all p l = true ->
  exists shorter,
    greedyRun p q (l +:+ t)
    = greedyRun p (q + String.length l) t ++ shorter.
Proof.
  revert q. induction l as [|a l IH]; intros q Hl.
  - exists []. simpl. by rewrite Nat.add_0_r, List.app_nil_r.
  - simpl in Hl. apply andb_prop in Hl as [Ha Hl].
    destruct (IH (S q) Hl) as [shorter Hs].
    exists (shorter ++ [State q (String a (l +:+ t))]).
    rewrite StringFacts.app_cons. simpl. rewrite Ha, Hs.
    rewrite <- List.app_assoc. do 2 f_equal. lia.
Qed.

(** A group over a greedy run to the end of the input takes all of it. *)
Lemma eos_greedyRun (p : ascii -> bool) (s : string) (q : nat)
    (g : state -> caps) :
  all p s = true ->
  flat_map (fun st => matches (Seq Eos Eps) st (g st)) (greedyRun p q s)
  = [(State (q + String.length s) "", g (State (q + String.length s) ""))].
Proof.
  revert q. induction s as [|a s IH]; intros q Hs.
  - simpl. by rewrite Nat.add_0_r.
  - simpl in Hs. apply andb_prop in Hs as [Ha Hs].
    simpl. rewrite Ha, flat_map_app, IH by done. simpl.
    by rewrite Nat.add_succ_r.
Qed.

Lemma matches_group_plus_eos (n : nat) (p : ascii -> bool) (a : ascii)
    (s : string) (q : nat) (c : caps) :
  p a = true -> all p s = true ->
  matches (Seq (Group n (plus (Chr p))) (Seq Eos Eps))
          (State q (String a s)) c
  = [(State (S q + String.length s) "", (n, String a s) :: c)].
Proof.
  intros Ha Hs.
  rewrite matches_Seq, matches_Group, matches_plus_chr by done.
  rewrite map_map, flat_map_map'. cbn [fst snd].
  rewrite (eos_greedyRun p s (S q)
             (fun st => (n, consumed (State q (String a s)) st) :: c)) by done.
  unfold consumed. cbn [rest]. rewrite Nat.sub_0_r.
  by rewrite take_length.
Qed.

Lemma all_not_stops (p : ascii -> bool) (s : string) :
  all (fun a => negb (p a)) s = true -> stops p s = true.
Proof.
  destruct s as [|a s]; simpl; [done|]. intros Hs.
  by apply andb_prop in Hs as [Ha _].
Qed.

Lemma matches_lit_cases (s : string) (st : state) (c : caps) :
  matches (lit s) st c = []
  \/ exists t, rest st = s +:+ t
       /\ matches (lit s) st c = [(State (pos st + String.length s) t, c)].
Proof.
  revert st. induction s as [|a s IH]; intros [q r].
  - right. exists r. simpl. by rewrite Nat.add_0_r.
  - cbn [lit]. rewrite matches_Seq. destruct r as [|b r]; [by left|].
    rewrite matches_Chr. destruct (Ascii.eqb a b) eqn:Hab; [|by left].
    apply Ascii.eqb_eq in Hab as <-. rewrite flat_map_single. cbn [fst snd].
    destruct (IH (State (S q) r)) as [Hnil | (t & Hr & Hm)].
    + by left.
    + right. exists t. simpl in *. split; [by rewrite Hr|].
      rewrite Hm. do 3 f_equal. lia.
Qed.

Lemma matches_lit_app (s t : string) (q : nat) (c : caps) :
  matches (lit s) (State q (s +:+ t)) c
  = [(State (q + String.length s) t, c)].
Proof.
  revert q. induction s as [|a s IH]; intros q.
  - simpl. by rewrite Nat.add_0_r.
  - cbn [lit]. rewrite StringFacts.app_cons, matches_Seq, matches_Chr.
    rewrite Ascii.eqb_refl, flat_map_single. cbn [fst snd].
    rewrite IH. simpl. do 3 f_equal. lia.
Qed.

Lemma take_app_length (l t : string) :
  Strings.take (String.length (l +:+ t) - String.length t) (l +:+ t) = l.
Proof.
  rewrite StringFacts.length_app.
  replace (String.length l + String.length t - String.length t)
    with (String.length l) by lia.
  induction l as [|a l IH].
  - by destruct t.
  - rewrite StringFacts.app_cons. simpl. by rewrite IH.
Qed.

(** An expression that starts with [^] matches at the start or nowhere. *)
Lemma findFrom_Bos (r : re) (s : string) (q : nat) :
  findFrom (Seq Bos r) (S q) s = None.
Proof.
  revert q. induction s as [|a s IH]; intros q; simpl; [done|]. apply IH.
Qed.

Lemma find_Bos (r : re) (s : string) :
  find (Seq Bos r) s
  = match matches r (State 0 s) [] with
    | (st', c) :: _ => Some (Found 0 (consumed (State 0 s) st') c)
    | [] => None
    end.
Proof.
  unfold find. destruct s as [|a s]; cbn [findFrom];
    rewrite matches_Seq; cbn [matches pos Nat.eqb];
    rewrite flat_map_single; cbn [fst snd];
    destruct (matches r _ []) as [|[st' c] l]; try reflexivity.
  apply findFrom_Bos.
Qed.

End RegexpFacts.

(** ** The for header *)

Module ForFacts.
Import Regexp RegexpFacts.

Lemma nonSpace_any (s : string) : all nonSpace s = true -> all any s = true.
Proof.
  apply StringFacts.all_impl. intros a. unfold nonSpace, any, space.
  destruct (nat_of_ascii a =? 10); [|done].
  by rewrite !orb_true_r.
Qed.

Lemma forTail_ok (a : ascii) (r : string) (q : nat) (c : caps) :
  all nonSpace (String a r) = true ->
  matches forTail (State q (" in " +:+ String a r)) c
  = [(State (q + 5 + String.length r) "", (2, String a r) :: c)].
Proof.
  intros Hr. pose proof (nonSpace_any _ Hr) as Hany.
  simpl in Hr, Hany.
  apply andb_prop in Hr as [Ha Hr], Hany as [Haa Hany].
  change (" in " +:+ String a r)
    with (String " " ("in" +:+ String " " (String a r))).
  unfold forTail, cat, s_plus, dot_plus. cbn [fold_right].
  rewrite matches_Seq, matches_plus_chr by reflexivity.
  rewrite greedyRun_stops by reflexivity.
  cbn [map]. rewrite flat_map_single. cbn [fst snd].
  rewrite matches_Seq, matches_lit_app, flat_map_single. cbn [fst snd].
  rewrite matches_Seq, matches_plus_chr by reflexivity.
  rewrite greedyRun_stops by (simpl; exact Ha).
  cbn [map]. rewrite flat_map_single. cbn [fst snd].
  rewrite matches_group_plus_eos by done.
  do 3 f_equal. simpl. lia.
Qed.

Lemma forTail_stops (t : string) (q : nat) (c : caps) :
  stops space t = true -> matches forTail (State q t) c = [].
Proof.
  intros Ht. unfold forTail, cat, s_plus. cbn [fold_right].
  by rewrite matches_Seq, matches_plus_stops.
Qed.

Lemma forTail_fail (r pre t : string) (q : nat) (c : caps) :
  all nonSpace r = true ->
  "in " +:+ r = pre +:+ t ->
  matches forTail (State q t) c = [].
Proof.
  intros Hr Hpre.
  destruct pre as [|x1 [|x2 [|x3 pre]]];
    unfold String.append in Hpre; fold String.append in Hpre.
  - subst t. by apply forTail_stops.
  - injection Hpre as _ <-. by apply forTail_stops.
  - injection Hpre as _ _ <-.
    unfold forTail, cat, s_plus. cbn [fold_right].
    rewrite matches_Seq, matches_plus_chr by reflexivity.
    rewrite greedyRun_stops by (by apply all_not_stops).
    cbn [map]. rewrite flat_map_single. cbn [fst snd].
    rewrite matches_Seq.
    destruct (matches_lit_cases "in" (State (S q) r) c)
      as [-> | (t & Ht & ->)]; [reflexivity|].
    rewrite flat_map_single. cbn [fst snd].
    simpl in Ht. subst r. rewrite StringFacts.all_app in Hr.
    apply andb_prop in Hr as [_ Hr].
    rewrite matches_Seq, matches_plus_stops; [done|].
    by apply all_not_stops.
  - injection Hpre as _ _ _ ->. rewrite StringFacts.all_app in Hr.
    apply andb_prop in Hr as [_ Hr].
    by apply forTail_stops, all_not_stops.
Qed.

Lemma greedyRun_cons (p : ascii -> bool) (a : ascii) (s : string) (q : nat) :
  p a = true ->
  greedyRun p q (String a s) = greedyRun p (S q) s ++ [State q (String a s)].
Proof. intros Ha. simpl. by rewrite Ha. Qed.

Lemma forPattern_forBody : forPattern = Seq Bos forBody.
Proof. reflexivity. Qed.

(** The first match of [forPattern] on a header whose list expression is one
    word: the first group is everything up to the last [in]. *)
Lemma forBody_matches (a b : ascii) (l r : string) :
  space a = false ->
  all any (String a l) = true ->
  all nonSpace (String b r) = true ->
  exists q tl,
    matches forBody
      (State 0 ("for " +:+ String a l +:+ " in " +:+ String b r)) []
    = (State q "", [(2, String b r); (1, String a l)]) :: tl.
Proof.
  intros Ha Hl Hr. simpl in Hl. apply andb_prop in Hl as [Haa Hl].
  change ("for " +:+ String a l +:+ " in " +:+ String b r)
    with ("for" +:+ String " "
            (String a (l +:+ String " " ("in " +:+ String b r)))).
  unfold forBody, s_plus, dot_plus.
  rewrite matches_Seq, matches_lit_app, flat_map_single. cbn [fst snd].
  rewrite matches_Seq, matches_plus_chr by reflexivity.
  rewrite greedyRun_stops by (simpl; by rewrite Ha).
  cbn [map]. rewrite flat_map_single. cbn [fst snd].
  rewrite matches_Seq, matches_Group, matches_plus_chr by done.
  rewrite !map_map, flat_map_map'. cbn [fst snd].
  destruct (greedyRun_app any l (String " " ("in " +:+ String b r))
              (S (S (0 + String.length "for"))) Hl) as [shorter ->].
  rewrite greedyRun_cons by reflexivity.
  rewrite !flat_map_app, flat_map_single.
  rewrite flat_map_nil.
  2: { intros st Hst. apply In_greedyRun in Hst as (pre & Hpre & _).
       destruct st as [q t]. simpl in Hpre.
       by apply (forTail_fail (String b r) pre t). }
  change (String " " ("in " +:+ String b r)) with (" in " +:+ String b r).
  rewrite forTail_ok by done.
  unfold consumed. cbn [rest].
  change (String a (l +:+ " in " +:+ String b r))
    with (String a l +:+ " in " +:+ String b r).
  rewrite take_app_length. simpl. eauto.
Qed.

Lemma find_forPattern (a b : ascii) (l r : string) :
  space a = false ->
  all any (String a l) = true ->
  all nonSpace (String b r) = true ->
  let tag := "for " +:+ String a l +:+ " in " +:+ String b r in
  find forPattern tag
  = Some (Found 0 tag [(2, String b r); (1, String a l)]).
Proof.
  intros Ha Hl Hr tag. rewrite forPattern_forBody, find_Bos. unfold tag.
  destruct (forBody_matches a b l r Ha Hl Hr) as (q & tl & ->).
  unfold consumed. cbn [rest String.length]. rewrite Nat.sub_0_r.
  by rewrite take_length.
Qed.

(** The patterns tried before [forPattern] do not match a tag that starts
    with [f]. *)
Lemma not_if_tags (t : string) :
  MatchString ifPattern (String "f" t) = false
  /\ MatchString elseifPattern (String "f" t) = false
  /\ MatchString elsePattern (String "f" t) = false
  /\ MatchString endifPattern (String "f" t) = false.
Proof.
  unfold MatchString, ifPattern, elseifPattern, elsePattern, endifPattern, cat.
  cbn [fold_right]. rewrite !find_Bos. split_and!; reflexivity.
Qed.

End ForFacts.

(** C4 (amended). For every for tag [for L in R] whose list expression
    [R] is one word (it holds no white space, that of Unicode included) and
    whose item spec [L] is any text without a line feed, without white space
    at its ends (it is what [strings.TrimSpace] leaves) and without a colon,
    however many standalone [in] keywords [L] holds: the tokenizer splits
    the header at the last [in].  The token carries [L] and [R], and [parseFor] takes all
    of [L] as the item spec (cut at its first comma, if any) and [R] as the
    list expression. *)
Theorem for_header_last_in (L R : string) :
  L <> "" ->
  Strings.TrimSpace L = L ->
  all Regexp.any L = true ->
  Strings.Contains L ":" = false ->
  isWord R = true ->
  let tag := "for " +:+ L +:+ " in " +:+ R in
  tagToken tag = mkToken TFor (L +:+ ":" +:+ R) "" tag
  /\ forHeader (tagToken tag)
     = OK (match Strings.cut "," L with
           | Some (p0, p1) =>
               mkForState (Strings.TrimSpace p0) (Strings.TrimSpace p1) R []
           | None => mkForState "" L R []
           end).
Proof.
  intros Hne Hfix Hany Hcolon HR tag.
  pose proof (StringFacts.TrimSpace_fix_starts L Hne Hfix) as Hstart.
  destruct L as [|a l]; [done|]. cbn [startsNonSpace] in Hstart.
  apply Nat.eqb_eq, StringFacts.spaceWidth_0_isSpace in Hstart.
  assert (Ha : Regexp.space a = false).
  { destruct (Regexp.space a) eqn:Hs; [|done].
    by rewrite (StringFacts.space_isSpace a Hs) in Hstart. }
  assert (HRfix : Strings.TrimSpace R = R)
    by (by apply StringFacts.isWord_TrimSpace).
  pose proof HR as HR'. unfold isWord in HR'.
  apply andb_prop in HR' as [HRne HRns].
  destruct R as [|b r]; [done|].
  pose proof (StringFacts.noSpace_nonSpace _ HRns) as Hr.
  pose proof (ForFacts.find_forPattern a b l r Ha Hany Hr) as Hfind.
  fold tag in Hfind.
  assert (Htok : tagToken tag
                 = mkToken TFor (String a l +:+ ":" +:+ String b r) "" tag).
  { unfold tagToken.
    destruct (ForFacts.not_if_tags
                ("or " +:+ String a l +:+ " in " +:+ String b r))
      as (H1 & H2 & H3 & H4).
    change (String "f" ("or " +:+ String a l +:+ " in " +:+ String b r))
      with tag in H1, H2, H3, H4.
    rewrite H1, H2, H3, H4.
    unfold Regexp.MatchString, Regexp.submatch. rewrite Hfind.
    cbn [Regexp.m_caps Regexp.group Nat.eqb].
    rewrite Hfix.
    rewrite HRfix.
    reflexivity. }
  split; [exact Htok|]. rewrite Htok. unfold forHeader. cbn [Value Raw].
  unfold Strings.SplitN2 at 1. cbn [Strings.genSplit].
  change (String a l +:+ ":" +:+ String b r)
    with (String a l +:+ String ":" (String b r)).
  rewrite (StringFacts.cut_single ":" (String a l) (String b r))
    by (by apply StringFacts.cut_None_Contains).
  rewrite Hfix.
  rewrite HRfix.
  unfold Strings.Contains, Strings.SplitN2. cbn [Strings.genSplit].
  by destruct (Strings.cut "," (String a l)) as [[p0 p1]|].
Qed.

Lemma for_header_last_in_witness :
  tagToken "for x in a in b" = mkToken TFor "x in a:b" "" "for x in a in b".
Proof.
  refine (proj1 (for_header_last_in "x in a" "b" _ _ _ _ _)).
  - discriminate.
  - vm_compute. reflexivity.
  - vm_compute. reflexivity.
  - vm_compute. reflexivity.
  - vm_compute. reflexivity.
Defined.

(** A list expression behind a no-break space is no word, and the token
    carries it trimmed. *)
Lemma for_header_nbsp_example :
  isWord (Example.nbsp +:+ "b") = false
  /\ Value (tagToken ("for x in " +:+ Example.nbsp +:+ "b")) = "x:b".
Proof. split; vm_compute; reflexivity. Qed.


(** C4, as stated, fails: the header [for x in a in b] is not split at its
    first [in].  The item variable is [x in a] and the list expression is
    [b]. *)
Lemma for_header_not_first_in :
  tokenize "<{for x in a in b}>"
  = [mkToken TFor "x in a:b" "" "for x in a in b"]
  /\ compileTokens (tokenize "<{for x in a in b}>y<{/for}>")
     = OK [ForNode "" "x in a" "b" [TextNode "y"]]
  /\ compileTokens (tokenize "<{for x in a in b}>y<{/for}>")
     <> OK [ForNode "" "x" "a in b" [TextNode "y"]].
Proof.
  split_and!.
  - vm_compute. reflexivity.
  - vm_compute. reflexivity.
  - vm_compute. discriminate.
Qed.

(** * Further properties

    Properties of the parser, the tokenizer, the expression evaluator and
    the cache that the code shows beyond the statements above. *)

(** ** The parser in a context *)

Lemma forHeader_no_panic (t : Token) : forHeader t <> Panic.
Proof.
  unfold forHeader, Strings.SplitN2, Strings.Contains. cbn [Strings.genSplit].
  destruct (Strings.cut ":" (Value t)) as [[b r]|]; [|done].
  destruct (Strings.cut "," (Strings.TrimSpace b)) as [[p0 p1]|]; done.
Qed.

Lemma exec_no_panic (ts : list Token) (nodes : list Node)
    (frames : list Frame) (i : nat) :
  exec nodes frames i ts <> Panic.
Proof.
  revert nodes frames i.
  induction ts as [|t ts IH]; intros nodes frames i.
  - simpl. by destruct frames.
  - cbn [exec].
    destruct (Type_ t) eqn:Ht;
      try (destruct (appendNode nodes frames (leafNode t)); apply IH);
      try apply IH;
      try (destruct frames as [|[s st|s st|s st] fs]; try done;
           try apply IH;
           match goal with
           | |- context [appendNode ?a ?b ?c] => destruct (appendNode a b c)
           end; apply IH).
    pose proof (forHeader_no_panic t).
    destruct (forHeader t); [apply IH|done|done].
Qed.

Lemma appendNodes_snoc (nodes : list Node) (frames : list Frame)
    (ns : list Node) (n : Node) :
  appendNodes nodes frames (ns ++ [n])
  = appendNode (appendNodes nodes frames ns).1 (appendNodes nodes frames ns).2 n.
Proof. unfold appendNodes. by rewrite fold_left_app. Qed.

Lemma shift_appendTo (d : nat) (f : Frame) (n : Node) :
  shift d (appendTo f n) = appendTo (shift d f) n.
Proof. by destruct f. Qed.

(** A run of [exec] that ends with a node list, placed in a context: the
    same tokens, read with more constructs open around them and followed by
    more tokens, leave the nodes in the body that the context was filling. *)
Lemma exec_context (ts1 : list Token) :
  forall (nodes0 : list Node) (frames0 : list Frame) (i0 : nat)
         (r : list Node),
  exec nodes0 frames0 i0 ts1 = OK r ->
  forall (nodes : list Node) (frames : list Frame) (d : nat)
         (ts2 : list Token),
  exec (appendNodes nodes frames nodes0).1
       ((shift d <$> frames0) ++ (appendNodes nodes frames nodes0).2)
       (i0 + d) (ts1 ++ ts2)
  = exec (appendNodes nodes frames r).1 (appendNodes nodes frames r).2
         (i0 + d + length ts1) ts2.
Proof.
  induction ts1 as [|t ts1 IH]; intros nodes0 frames0 i0 r Hr nodes frames d ts2.
  - simpl in Hr. destruct frames0; [|done]. injection Hr as <-.
    simpl. f_equal. lia.
  - cbn [exec] in Hr. rewrite <- app_comm_cons. cbn [exec length].
    replace (i0 + d + S (length ts1)) with (S i0 + d + length ts1) by lia.
    change (S (i0 + d)) with (S i0 + d).
    destruct (Type_ t) eqn:Ht.
    + destruct frames0 as [|f0 fs0]; cbn [appendNode] in Hr |- *.
      * specialize (IH _ _ _ _ Hr nodes frames d ts2).
        rewrite appendNodes_snoc in IH. simpl in IH |- *.
        destruct (appendNode _ _ (leafNode t)). exact IH.
      * specialize (IH _ _ _ _ Hr nodes frames d ts2).
        rewrite fmap_cons, shift_appendTo in IH. simpl. exact IH.
    + destruct frames0 as [|f0 fs0]; cbn [appendNode] in Hr |- *.
      * specialize (IH _ _ _ _ Hr nodes frames d ts2).
        rewrite appendNodes_snoc in IH. simpl in IH |- *.
        destruct (appendNode _ _ (leafNode t)). exact IH.
      * specialize (IH _ _ _ _ Hr nodes frames d ts2).
        rewrite fmap_cons, shift_appendTo in IH. simpl. exact IH.
    + exact (IH _ _ _ _ Hr nodes frames d ts2).
    + destruct frames0 as [|[s st|s st|s st] fs0]; try done.
      exact (IH _ _ _ _ Hr nodes frames d ts2).
    + destruct frames0 as [|[s st|s st|s st] fs0]; try done.
      exact (IH _ _ _ _ Hr nodes frames d ts2).
    + destruct frames0 as [|[s st|s st|s st] fs0]; try done.
      destruct fs0 as [|f0 fs0]; cbn [appendNode] in Hr |- *.
      * specialize (IH _ _ _ _ Hr nodes frames d ts2).
        rewrite appendNodes_snoc in IH. simpl in IH |- *.
        destruct (appendNode _ _ (IfNode _ _)). exact IH.
      * specialize (IH _ _ _ _ Hr nodes frames d ts2).
        rewrite fmap_cons, shift_appendTo in IH. simpl. exact IH.
    + destruct (forHeader t) as [node| |]; try done.
      exact (IH _ _ _ _ Hr nodes frames d ts2).
    + destruct frames0 as [|[s st|s st|s st] fs0]; try done.
      destruct fs0 as [|f0 fs0]; cbn [appendNode] in Hr |- *.
      * specialize (IH _ _ _ _ Hr nodes frames d ts2).
        rewrite appendNodes_snoc in IH. simpl in IH |- *.
        destruct (appendNode _ _ (ForNode _ _ _ _)). exact IH.
      * specialize (IH _ _ _ _ Hr nodes frames d ts2).
        rewrite fmap_cons, shift_appendTo in IH. simpl. exact IH.
    + exact (IH _ _ _ _ Hr nodes frames d ts2).
    + destruct frames0 as [|[s st|s st|s st] fs0]; try done.
      exact (IH _ _ _ _ Hr nodes frames d ts2).
    + destruct frames0 as [|[s st|s st|s st] fs0]; try done.
      exact (IH _ _ _ _ Hr nodes frames d ts2).
    + destruct frames0 as [|[s st|s st|s st] fs0]; try done.
      destruct fs0 as [|f0 fs0]; cbn [appendNode] in Hr |- *.
      * specialize (IH _ _ _ _ Hr nodes frames d ts2).
        rewrite appendNodes_snoc in IH. simpl in IH |- *.
        destruct (appendNode _ _ (SwitchNode _ _ _)). exact IH.
      * specialize (IH _ _ _ _ Hr nodes frames d ts2).
        rewrite fmap_cons, shift_appendTo in IH. simpl. exact IH.
Qed.

Lemma appendNodes_top (nodes ns : list Node) :
  appendNodes nodes [] ns = (nodes ++ ns, []).
Proof.
  revert nodes. induction ns as [|n ns IH]; intros nodes.
  - unfold appendNodes. simpl. by rewrite List.app_nil_r.
  - unfold appendNodes in *. simpl. rewrite IH. by rewrite <- app_assoc.
Qed.

Lemma appendNodes_frame (nodes ns : list Node) (f : Frame) (fs : list Frame) :
  appendNodes nodes (f :: fs) ns = (nodes, fold_left appendTo ns f :: fs).
Proof.
  revert f. induction ns as [|n ns IH]; intros f; [done|].
  unfold appendNodes in *. simpl. by rewrite IH.
Qed.

Lemma exec_block (ts1 : list Token) (n1 : list Node) :
  compileTokens ts1 = OK n1 ->
  forall (nodes : list Node) (frames : list Frame) (i : nat)
         (ts2 : list Token),
  exec nodes frames i (ts1 ++ ts2)
  = exec (appendNodes nodes frames n1).1 (appendNodes nodes frames n1).2
         (i + length ts1) ts2.
Proof.
  rewrite compileTokens_exec. intros Hc nodes frames i ts2.
  exact (exec_context ts1 [] [] 0 n1 Hc nodes frames i ts2).
Qed.

Lemma appendCurrent_branch (brs : list (string * list Node)) (e : string)
    (body els : list Node) (n : Node) :
  appendCurrent (mkIfState (brs ++ [(e, body)]) els false) n
  = mkIfState (brs ++ [(e, body ++ [n])]) els false.
Proof.
  unfold appendCurrent. cbn [inElse branches elseBody].
  rewrite rev_app_distr. simpl. by rewrite rev_involutive.
Qed.

Lemma fold_appendCurrent_branch (ns : list Node)
    (brs : list (string * list Node)) (e : string) (body els : list Node) :
  fold_left appendCurrent ns (mkIfState (brs ++ [(e, body)]) els false)
  = mkIfState (brs ++ [(e, body ++ ns)]) els false.
Proof.
  revert body. induction ns as [|n ns IH]; intros body.
  - simpl. by rewrite List.app_nil_r.
  - simpl. rewrite appendCurrent_branch, IH. by rewrite <- app_assoc.
Qed.

Lemma fold_appendCurrent_first (ns : list Node) (e : string)
    (body els : list Node) :
  fold_left appendCurrent ns (mkIfState [(e, body)] els false)
  = mkIfState [(e, body ++ ns)] els false.
Proof. exact (fold_appendCurrent_branch ns [] e body els). Qed.

Lemma fold_appendCurrent_else (ns : list Node)
    (brs : list (string * list Node)) (els : list Node) :
  fold_left appendCurrent ns (mkIfState brs els true)
  = mkIfState brs (els ++ ns) true.
Proof.
  revert els. induction ns as [|n ns IH]; intros els.
  - simpl. by rewrite List.app_nil_r.
  - simpl. unfold appendCurrent at 2. cbn [inElse branches elseBody].
    rewrite IH. by rewrite <- app_assoc.
Qed.

Lemma fold_appendBody (ns : list Node) (node : ForState) :
  fold_left appendBody ns node
  = mkForState (IndexVar_ node) (ItemVar_ node) (ListExpr_ node)
               (Body_ node ++ ns).
Proof.
  revert node. induction ns as [|n ns IH]; intros node.
  - simpl. rewrite List.app_nil_r. by destruct node.
  - simpl. rewrite IH. simpl. by rewrite <- app_assoc.
Qed.

Lemma fold_appendCase (ns : list Node) (st : SwitchState) :
  fold_left appendCase ns st
  = mkSwitchState (Expr_ st) (Cases_ st) (SDefault st) (currentCond st)
                  (currentBody st ++ ns).
Proof.
  revert st. induction ns as [|n ns IH]; intros st.
  - simpl. rewrite List.app_nil_r. by destruct st.
  - simpl. rewrite IH. simpl. by rewrite <- app_assoc.
Qed.

Lemma fold_appendTo_if (ns : list Node) (s : nat) (st : IfState) :
  fold_left appendTo ns (FIf s st) = FIf s (fold_left appendCurrent ns st).
Proof. revert st. induction ns as [|n ns IH]; intros st; [done|]. simpl. apply IH. Qed.

Lemma fold_appendTo_for (ns : list Node) (s : nat) (st : ForState) :
  fold_left appendTo ns (FFor s st) = FFor s (fold_left appendBody ns st).
Proof. revert st. induction ns as [|n ns IH]; intros st; [done|]. simpl. apply IH. Qed.

Lemma fold_appendTo_switch (ns : list Node) (s : nat) (st : SwitchState) :
  fold_left appendTo ns (FSwitch s st) = FSwitch s (fold_left appendCase ns st).
Proof. revert st. induction ns as [|n ns IH]; intros st; [done|]. simpl. apply IH. Qed.

(** X1. [compileTokens] never panics: for every token sequence it returns
    a node list or an error.  The parsing functions never read a token
    past the end of the sequence, the two-way split of a for header always
    has its two parts, and the recursion ends with the tokens. *)
Theorem compileTokens_no_panic (tokens : list Token) :
  compileTokens tokens <> Panic.
Proof. rewrite compileTokens_exec. apply exec_no_panic. Qed.

(** X2. [compileTokens] returns a node list exactly when the tags are well
    nested: every closing, [elseif], [else], [case] and [default] tag
    stands in a construct of its kind, every for header splits, and no
    construct is open at the end ([run] ends with the empty stack). *)
Theorem compileTokens_well_nested (tokens : list Token) :
  (exists nodes, compileTokens tokens = OK nodes) <-> run [] 0 tokens = Some [].
Proof. exact (compileTokens_OK_iff tokens). Qed.

(** X3. Compilation is compositional: when two token sequences compile,
    their concatenation compiles to the concatenation of their node
    lists. *)
Theorem compileTokens_app (ts1 ts2 : list Token) (n1 n2 : list Node) :
  compileTokens ts1 = OK n1 -> compileTokens ts2 = OK n2 ->
  compileTokens (ts1 ++ ts2) = OK (n1 ++ n2).
Proof.
  intros H1 H2. rewrite compileTokens_exec.
  rewrite (exec_block ts1 n1 H1 [] [] 0 ts2), appendNodes_top. simpl.
  rewrite <- (List.app_nil_r ts2).
  rewrite (exec_block ts2 n2 H2 n1 [] (length ts1) []), appendNodes_top.
  done.
Qed.

Lemma compileTokens_app_witness :
  compileTokens ([mkToken TIf "a" "" "if a"; mkToken TText "x" "" "";
                  mkToken TEndIf "" "" "/if"]
                 ++ [mkToken TVar "v" "" "v"])
  = OK ([IfNode [("a", [TextNode "x"])] []] ++ [VarNode "v" "" []]).
Proof.
  refine (compileTokens_app _ _ _ _ _ _).
  - vm_compute. reflexivity.
  - vm_compute. reflexivity.
Defined.

(** X4. A tag that only continues or closes a construct ([elseif], [else],
    [/if], [/for], [case], [default], [/switch]) and stands at top level,
    behind a token sequence that compiles, makes [compileTokens] fail with
    the unexpected-token error that carries the type, the index and the raw
    text of that tag, whatever follows it. *)
Theorem compileTokens_stray (pre post : list Token) (t : Token)
    (nodes : list Node) :
  compileTokens pre = OK nodes ->
  closer (Type_ t) = true ->
  compileTokens (pre ++ t :: post)
  = Err (ErrUnexpectedToken (Type_ t) (length pre) (Raw t)).
Proof.
  intros Hpre Ht. rewrite compileTokens_exec.
  rewrite (exec_block pre nodes Hpre [] [] 0 (t :: post)), appendNodes_top.
  cbn [fst snd exec]. unfold unexpected.
  destruct (Type_ t); done.
Qed.

Lemma compileTokens_stray_witness :
  compileTokens ([mkToken TVar "v" "" "v"]
                 ++ mkToken TEndIf "" "" "/if" :: [mkToken TText "x" "" ""])
  = Err (ErrUnexpectedToken TEndIf 1 "/if").
Proof.
  refine (compileTokens_stray [mkToken TVar "v" "" "v"]
            [mkToken TText "x" "" ""] (mkToken TEndIf "" "" "/if")
            [VarNode "v" "" []] _ _).
  - vm_compute. reflexivity.
  - reflexivity.
Defined.

(** X5. The tree of an if with an [elseif] and an [else]: when the three
    bodies compile on their own, possibly with nested constructs, the
    whole compiles to one [IfNode] with the two branches, each with the
    expression of its tag and the nodes of its body, and the nodes of the
    third body as the else body. *)
Theorem compileTokens_if_chain (b1 b2 b3 : list Token)
    (n1 n2 n3 : list Node) (t_if t_elseif t_else t_end : Token) :
  Type_ t_if = TIf -> Type_ t_elseif = TElseIf -> Type_ t_else = TElse ->
  Type_ t_end = TEndIf ->
  compileTokens b1 = OK n1 -> compileTokens b2 = OK n2 ->
  compileTokens b3 = OK n3 ->
  compileTokens (t_if :: b1 ++ t_elseif :: b2 ++ t_else :: b3 ++ [t_end])
  = OK [IfNode [(Value t_if, n1); (Value t_elseif, n2)] n3].
Proof.
  intros Hi He1 He2 Hend H1 H2 H3. rewrite compileTokens_exec.
  cbn [exec]. rewrite Hi.
  rewrite (exec_block b1 n1 H1), appendNodes_frame, fold_appendTo_if.
  rewrite fold_appendCurrent_first.
  cbn [fst snd exec]. rewrite He1. cbn [branches elseBody].
  rewrite (exec_block b2 n2 H2), appendNodes_frame, fold_appendTo_if.
  rewrite fold_appendCurrent_branch.
  cbn [fst snd exec]. rewrite He2. cbn [branches elseBody].
  rewrite (exec_block b3 n3 H3), appendNodes_frame, fold_appendTo_if.
  rewrite fold_appendCurrent_else.
  cbn [fst snd exec]. rewrite Hend. done.
Qed.

Lemma compileTokens_if_chain_witness :
  compileTokens (mkToken TIf "a" "" "if a"
                   :: [mkToken TText "x" "" ""]
                   ++ mkToken TElseIf "b" "" "elseif b"
                   :: [mkToken TVar "v" "" "v"]
                   ++ mkToken TElse "" "" "else"
                   :: [] ++ [mkToken TEndIf "" "" "/if"])
  = OK [IfNode [("a", [TextNode "x"]); ("b", [VarNode "v" "" []])] []].
Proof.
  refine (compileTokens_if_chain _ _ _ _ _ _
            (mkToken TIf "a" "" "if a") (mkToken TElseIf "b" "" "elseif b")
            (mkToken TElse "" "" "else") (mkToken TEndIf "" "" "/if")
            _ _ _ _ _ _ _); try reflexivity; vm_compute; reflexivity.
Defined.

(** X6. A second [else] in one if starts the else body again: the nodes
    between the first and the second [else] are dropped from the tree, and
    no error is reported. *)
Theorem compileTokens_second_else (b1 b2 b3 : list Token)
    (n1 n2 n3 : list Node) (t_if t_else1 t_else2 t_end : Token) :
  Type_ t_if = TIf -> Type_ t_else1 = TElse -> Type_ t_else2 = TElse ->
  Type_ t_end = TEndIf ->
  compileTokens b1 = OK n1 -> compileTokens b2 = OK n2 ->
  compileTokens b3 = OK n3 ->
  compileTokens (t_if :: b1 ++ t_else1 :: b2 ++ t_else2 :: b3 ++ [t_end])
  = OK [IfNode [(Value t_if, n1)] n3].
Proof.
  intros Hi He1 He2 Hend H1 H2 H3. rewrite compileTokens_exec.
  cbn [exec]. rewrite Hi.
  rewrite (exec_block b1 n1 H1), appendNodes_frame, fold_appendTo_if.
  rewrite fold_appendCurrent_first.
  cbn [fst snd exec]. rewrite He1. cbn [branches elseBody].
  rewrite (exec_block b2 n2 H2), appendNodes_frame, fold_appendTo_if.
  rewrite fold_appendCurrent_else.
  cbn [fst snd exec]. rewrite He2. cbn [branches elseBody].
  rewrite (exec_block b3 n3 H3), appendNodes_frame, fold_appendTo_if.
  rewrite fold_appendCurrent_else.
  cbn [fst snd exec]. rewrite Hend. done.
Qed.

Lemma compileTokens_second_else_witness :
  compileTokens (mkToken TIf "a" "" "if a"
                   :: [mkToken TText "x" "" ""]
                   ++ mkToken TElse "" "" "else"
                   :: [mkToken TText "lost" "" ""]
                   ++ mkToken TElse "" "" "else"
                   :: [mkToken TText "kept" "" ""]
                   ++ [mkToken TEndIf "" "" "/if"])
  = OK [IfNode [("a", [TextNode "x"])] [TextNode "kept"]].
Proof.
  refine (compileTokens_second_else _ _ _ _ _ _
            (mkToken TIf "a" "" "if a") (mkToken TElse "" "" "else")
            (mkToken TElse "" "" "else") (mkToken TEndIf "" "" "/if")
            _ _ _ _ _ _ _); try reflexivity; vm_compute; reflexivity.
Defined.

Lemma flushCase_case (e : string) (cs : list (string * list Node))
    (d : list Node) (c : string) (body : list Node) :
  negb (String.eqb c "") = true ->
  flushCase (mkSwitchState e cs d c body)
  = mkSwitchState e (cs ++ [(c, body)]) d "" [].
Proof. intros Hc. unfold flushCase. simpl. by rewrite Hc. Qed.

Lemma flushCase_default (e : string) (cs : list (string * list Node))
    (d body : list Node) :
  flushCase (mkSwitchState e cs d "" body)
  = mkSwitchState e cs (match body with [] => d | _ => body end) "" [].
Proof. by destruct body. Qed.

(** X7. The default body of a switch: the nodes in front of the first
    [case] are the default body, unless the body behind a [default] tag is
    not empty, which then replaces them; an empty body behind [default]
    leaves the earlier default in place.  The case keeps the expression of
    its tag and the nodes of its body. *)
Theorem compileTokens_switch_default (b0 b1 b2 : list Token)
    (n0 n1 n2 : list Node) (t_switch t_case t_default t_end : Token) :
  Type_ t_switch = TSwitch -> Type_ t_case = TCase ->
  Type_ t_default = TDefault -> Type_ t_end = TEndSwitch ->
  Value t_case <> "" ->
  compileTokens b0 = OK n0 -> compileTokens b1 = OK n1 ->
  compileTokens b2 = OK n2 ->
  compileTokens (t_switch :: b0 ++ t_case :: b1 ++ t_default :: b2 ++ [t_end])
  = OK [SwitchNode (Value t_switch) [(Value t_case, n1)]
                   (match n2 with [] => n0 | _ => n2 end)].
Proof.
  intros Hs Hc Hd Hend Hv H0 H1 H2. rewrite compileTokens_exec.
  apply String.eqb_neq in Hv.
  cbn [exec]. rewrite Hs.
  rewrite (exec_block b0 n0 H0), appendNodes_frame, fold_appendTo_switch.
  rewrite fold_appendCase.
  cbn [fst snd exec Expr_ Cases_ SDefault currentCond currentBody app].
  rewrite Hc, flushCase_default.
  cbn [Expr_ Cases_ SDefault currentCond currentBody].
  rewrite (exec_block b1 n1 H1), appendNodes_frame, fold_appendTo_switch.
  rewrite fold_appendCase.
  cbn [fst snd exec Expr_ Cases_ SDefault currentCond currentBody app].
  rewrite Hd, flushCase_case by (by rewrite Hv).
  cbn [Expr_ Cases_ SDefault currentCond currentBody app].
  rewrite (exec_block b2 n2 H2), appendNodes_frame, fold_appendTo_switch.
  rewrite fold_appendCase.
  cbn [fst snd exec Expr_ Cases_ SDefault currentCond currentBody app].
  rewrite Hend, flushCase_default.
  cbn [appendNode fst snd exec Expr_ Cases_ SDefault app].
  by destruct n0, n2.
Qed.

Lemma compileTokens_switch_default_witness :
  compileTokens (mkToken TSwitch "k" "" "switch k"
                   :: [mkToken TText "lead" "" ""]
                   ++ mkToken TCase "1" "" "case 1"
                   :: [mkToken TText "one" "" ""]
                   ++ mkToken TDefault "" "" "default"
                   :: [] ++ [mkToken TEndSwitch "" "" "/switch"])
  = OK [SwitchNode "k" [("1", [TextNode "one"])] [TextNode "lead"]].
Proof.
  refine (compileTokens_switch_default
            [mkToken TText "lead" "" ""] [mkToken TText "one" "" ""] []
            [TextNode "lead"] [TextNode "one"] []
            (mkToken TSwitch "k" "" "switch k") (mkToken TCase "1" "" "case 1")
            (mkToken TDefault "" "" "default")
            (mkToken TEndSwitch "" "" "/switch")
            _ _ _ _ _ _ _ _); try reflexivity; try (simpl; discriminate);
    vm_compute; reflexivity.
Defined.

(** ** From a tree back to its tokens *)

(** Induction on a node with the hypothesis for every node of its
    bodies. *)
Lemma Node_nested_ind (P : Node -> Prop) :
  (forall s, P (TextNode s)) ->
  (forall n d f, P (VarNode n d f)) ->
  (forall brs els,
     Forall (fun b => Forall P b.2) brs -> Forall P els ->
     P (IfNode brs els)) ->
  (forall i v l body, Forall P body -> P (ForNode i v l body)) ->
  (forall e cases def,
     Forall (fun c => Forall P c.2) cases -> Forall P def ->
     P (SwitchNode e cases def)) ->
  forall n, P n.
Proof.
  intros HText HVar HIf HFor HSwitch.
  fix IH 1. intros [s|n d f|brs els|i v l body|e cases def].
  - apply HText.
  - apply HVar.
  - apply HIf.
    + induction brs as [|[e body] brs IHb]; constructor; [|exact IHb].
      simpl. induction body as [|x body IHbody]; constructor;
        [apply IH|exact IHbody].
    + induction els as [|x els IHe]; constructor; [apply IH|exact IHe].
  - apply HFor.
    induction body as [|x body IHbody]; constructor; [apply IH|exact IHbody].
  - apply HSwitch.
    + induction cases as [|[c body] cases IHc]; constructor; [|exact IHc].
      simpl. induction body as [|x body IHbody]; constructor;
        [apply IH|exact IHbody].
    + induction def as [|x def IHd]; constructor; [apply IH|exact IHd].
Qed.

Module HeaderFacts.
Import Strings StringFacts.

Lemma cut_app_None (x : ascii) (s t : string) :
  cut (String x "") s = None -> cut (String x "") t = None ->
  cut (String x "") (s +:+ t) = None.
Proof.
  intros Hs Ht. induction s as [|a s IH]; [by rewrite app_nil_l|].
  rewrite app_cons. cbn [cut HasPrefix] in Hs |- *.
  destruct (Ascii.eqb a x); [by rewrite HasPrefix_nil in Hs|].
  destruct (cut (String x "") s) as [[b r]|]; [done|].
  by rewrite IH.
Qed.

Lemma trimmed_eq (s : string) : trimmed s = true -> TrimSpace s = s.
Proof. unfold trimmed. by intros ?%String.eqb_eq. Qed.

Lemma forHeader_forValue (idx item lst : string) :
  forVars idx item lst = true ->
  forHeader (tok TFor (forValue idx item lst))
  = OK (mkForState idx item lst []).
Proof.
  unfold forVars. intros Hv.
  rewrite !andb_true_iff in Hv.
  destruct Hv as [[[[[[Hidx Hitem] Hlst] Hic] Hvc] Hik] Hor].
  apply trimmed_eq in Hidx, Hitem, Hlst.
  apply negb_true_iff, cut_None_Contains in Hic, Hvc, Hik.
  set (left := if String.eqb idx "" then item else idx +:+ "," +:+ item).
  assert (Hleft_colon : cut ":" left = None).
  { unfold left. destruct (String.eqb idx ""); [done|].
    apply cut_app_None; [done|]. by apply cut_app_None. }
  assert (Hleft_trim : TrimSpace left = left).
  { unfold left. destruct (String.eqb idx "") eqn:He; [done|].
    apply String.eqb_neq in He.
    apply TrimSpace_id.
    - apply startsNonSpace_app; [by apply TrimSpace_fix_starts|done].
    - destruct (String.eqb item "") eqn:Hi.
      + apply String.eqb_eq in Hi. subst item.
        assert (Hne : idx +:+ "," +:+ "" <> "") by (by destruct idx).
        destruct (idx +:+ "," +:+ "") as [|a u] eqn:Hu; [done|].
        cbn [endsNonSpace]. rewrite <- Hu, !rev_app.
        change (rev "" +:+ rev ",") with (String "," "").
        rewrite app_cons, app_nil_l.
        by rewrite spaceWidthLast_low.
      + apply String.eqb_neq in Hi. rewrite <- app_assoc.
        apply endsNonSpace_app; [|by apply TrimSpace_fix_ends].
        by rewrite rev_app. }
  unfold forHeader, forValue, tok, SplitN2. cbn [Value Raw genSplit].
  fold left.
  change (":" +:+ lst) with (String ":" lst).
  rewrite (cut_single ":" left lst Hleft_colon).
  rewrite Hleft_trim, Hlst. unfold Contains, left.
  destruct (String.eqb idx "") eqn:He.
  - apply String.eqb_eq in He. subst idx. simpl in Hor.
    apply negb_true_iff, cut_None_Contains in Hor. by rewrite Hor.
  - change ("," +:+ item) with (String "," item).
    rewrite (cut_single "," idx item Hik). by rewrite Hidx, Hitem.
Qed.

End HeaderFacts.

Lemma appendNodes_cons (nodes : list Node) (frames : list Frame) (n : Node)
    (ns : list Node) :
  appendNodes nodes frames (n :: ns)
  = appendNodes (appendNode nodes frames n).1 (appendNode nodes frames n).2 ns.
Proof. unfold appendNodes. simpl. by destruct (appendNode nodes frames n). Qed.

Lemma rebuilt_list (ns : list Node) :
  Forall rebuilt ns ->
  forall (nodes : list Node) (frames : list Frame) (i : nat)
         (ts : list Token),
  exec nodes frames i (flat_map tokensOf ns ++ ts)
  = exec (appendNodes nodes frames ns).1 (appendNodes nodes frames ns).2
         (i + length (flat_map tokensOf ns)) ts.
Proof.
  induction 1 as [|n ns Hn _ IH]; intros nodes frames i ts.
  - simpl. f_equal. lia.
  - cbn [flat_map]. rewrite <- app_assoc, Hn, IH, appendNodes_cons.
    rewrite length_app. f_equal. lia.
Qed.

Lemma rebuilt_body (ns : list Node) (f : Frame) :
  Forall rebuilt ns ->
  forall (nodes : list Node) (fs : list Frame) (i : nat) (ts : list Token),
  exec nodes (f :: fs) i (flat_map tokensOf ns ++ ts)
  = exec nodes (fold_left appendTo ns f :: fs)
         (i + length (flat_map tokensOf ns)) ts.
Proof.
  intros Hns nodes fs i ts.
  by rewrite (rebuilt_list ns Hns), appendNodes_frame.
Qed.

Lemma Forall_wellFormed (ns : list Node) :
  Forall (fun n => wellFormed n = true -> rebuilt n) ns ->
  forallb wellFormed ns = true -> Forall rebuilt ns.
Proof.
  induction 1 as [|n ns Hn _ IH]; [constructor|].
  simpl. intros [? ?]%andb_prop. constructor; auto.
Qed.

Lemma rebuilt_elseifs (brs : list (string * list Node)) :
  Forall (fun b => Forall rebuilt b.2) brs ->
  forall (done : list (string * list Node)) (s : nat) (nodes : list Node)
         (fs : list Frame) (i : nat) (ts : list Token),
  done <> [] ->
  exec nodes (FIf s (mkIfState done [] false) :: fs) i
       (flat_map elseifTokens brs ++ ts)
  = exec nodes (FIf s (mkIfState (done ++ brs) [] false) :: fs)
         (i + length (flat_map elseifTokens brs)) ts.
Proof.
  induction 1 as [|[e body] brs Hb _ IH]; intros done s nodes fs i ts Hd.
  - simpl. rewrite List.app_nil_r. f_equal. lia.
  - cbn [snd] in Hb. cbn [flat_map].
    change (elseifTokens (e, body)) with (tok TElseIf e :: flat_map tokensOf body).
    rewrite <- app_assoc.
    rewrite <- app_comm_cons. cbn [exec Type_ tok Value branches elseBody].
    rewrite (rebuilt_body body _ Hb), fold_appendTo_if.
    rewrite fold_appendCurrent_branch. simpl app at 1.
    rewrite IH by (by destruct done).
    rewrite <- app_assoc. simpl. rewrite !length_app. f_equal. lia.
Qed.

Lemma rebuilt_cases (cases : list (string * list Node)) :
  Forall (fun c => Forall rebuilt c.2) cases ->
  forallb (fun c => negb (String.eqb c.1 "")) cases = true ->
  forall (st : SwitchState) (s : nat) (nodes : list Node)
         (fs : list Frame) (i : nat) (ts : list Token),
  exists st',
    exec nodes (FSwitch s st :: fs) i (flat_map caseTokens cases ++ ts)
    = exec nodes (FSwitch s st' :: fs)
           (i + length (flat_map caseTokens cases)) ts
    /\ flushCase st'
       = mkSwitchState (Expr_ (flushCase st)) (Cases_ (flushCase st) ++ cases)
                       (SDefault (flushCase st)) "" [].
Proof.
  induction 1 as [|[c body] cases Hb _ IH]; intros Hne st s nodes fs i ts.
  - exists st. split; [simpl; f_equal; lia|].
    rewrite List.app_nil_r. unfold flushCase.
    by repeat (case_match; cbn [Expr_ Cases_ SDefault]).
  - cbn [forallb fst] in Hne. apply andb_prop in Hne as [Hc Hne].
    cbn [snd] in Hb. cbn [flat_map].
    change (caseTokens (c, body)) with (tok TCase c :: flat_map tokensOf body).
    rewrite <- app_assoc.
    rewrite <- app_comm_cons. cbn [exec Type_ tok Value].
    rewrite (rebuilt_body body _ Hb), fold_appendTo_switch, fold_appendCase.
    cbn [Expr_ Cases_ SDefault currentCond currentBody app].
    destruct (IH Hne
                (mkSwitchState (Expr_ (flushCase st)) (Cases_ (flushCase st))
                               (SDefault (flushCase st)) c body)
                s nodes fs (S i + length (flat_map tokensOf body)) ts)
      as (st' & Hexec & Hflush).
    exists st'. split.
    + rewrite Hexec. f_equal. simpl. rewrite !length_app. simpl. lia.
    + rewrite Hflush, (flushCase_case _ _ _ _ _ Hc).
      cbn [Expr_ Cases_ SDefault]. by rewrite <- app_assoc.
Qed.

Lemma tokensOf_exec (n : Node) : wellFormed n = true -> rebuilt n.
Proof.
  induction n as [s|name d f|brs els Hbrs Hels|idx item lst body Hbody
                  |e cases def Hcases Hdef] using Node_nested_ind;
    intros Hwf nodes frames i ts.
  - cbn [tokensOf app exec Type_ tok]. unfold leafNode. cbn [Type_ Value].
    destruct (appendNode _ _ _). simpl. f_equal. lia.
  - simpl in Hwf. destruct f; [|done].
    cbn [tokensOf app exec Type_ tok]. unfold leafNode.
    cbn [Type_ Value Default].
    destruct (appendNode _ _ _). simpl. f_equal. lia.
  - cbn [wellFormed] in Hwf.
    apply andb_prop in Hwf as [[Hne Hwb]%andb_prop Hwe].
    destruct brs as [|[e body] brs]; [done|].
    cbn [forallb snd] in Hwb. apply andb_prop in Hwb as [Hwbody Hwbrs].
    apply Forall_cons_1 in Hbrs as [Hbody Hbrs]. cbn [snd] in Hbody.
    apply Forall_wellFormed in Hbody; [|done].
    apply Forall_wellFormed in Hels; [|done].
    assert (Hbrs' : Forall (fun b => Forall rebuilt b.2) brs).
    { clear -Hbrs Hwbrs. induction Hbrs as [|b brs Hb _ IH]; [constructor|].
      cbn [forallb] in Hwbrs. apply andb_prop in Hwbrs as [? ?].
      constructor; [by apply Forall_wellFormed|auto]. }
    cbn [tokensOf fst snd]. cbn [app exec Type_ tok Value]. rewrite <- !app_assoc.
    rewrite (rebuilt_body body _ Hbody), fold_appendTo_if.
    rewrite fold_appendCurrent_first.
    change (flat_map (fun b' => tok TElseIf b'.1 :: flat_map tokensOf b'.2) brs)
      with (flat_map elseifTokens brs).
    rewrite rebuilt_elseifs by done.
    destruct els as [|x els].
    + cbn [app exec Type_ tok branches elseBody].
      destruct (appendNode _ _ _). f_equal.
      cbn [length]. rewrite !length_app. simpl. lia.
    + remember (x :: els) as els' eqn:Hels'.
      replace (match els' with
               | [] => []
               | _ :: _ => tok TElse "" :: flat_map tokensOf els'
               end) with (tok TElse "" :: flat_map tokensOf els')
        by (by subst els').
      cbn [app exec Type_ tok branches elseBody].
      rewrite (rebuilt_body els' _ Hels), fold_appendTo_if.
      rewrite fold_appendCurrent_else.
      cbn [app exec Type_ tok branches elseBody].
      destruct (appendNode _ _ _). f_equal.
      cbn [length]. rewrite !length_app. cbn [length]. rewrite !length_app.
      simpl. lia.
  - cbn [wellFormed] in Hwf. apply andb_prop in Hwf as [Hv Hwb].
    apply Forall_wellFormed in Hbody; [|done].
    cbn [tokensOf]. cbn [app exec Type_ tok]. fold (tok TFor (forValue idx item lst)).
    rewrite (HeaderFacts.forHeader_forValue _ _ _ Hv). rewrite <- app_assoc.
    rewrite (rebuilt_body body _ Hbody), fold_appendTo_for, fold_appendBody.
    cbn [app exec Type_ tok IndexVar_ ItemVar_ ListExpr_ Body_].
    destruct (appendNode _ _ _). f_equal.
    cbn [length]. rewrite !length_app. simpl. lia.
  - cbn [wellFormed] in Hwf. apply andb_prop in Hwf as [Hwc Hwd].
    apply Forall_wellFormed in Hdef; [|done].
    assert (Hcases' : Forall (fun c => Forall rebuilt c.2) cases
                      /\ forallb (fun c => negb (String.eqb c.1 "")) cases
                         = true).
    { clear -Hcases Hwc. induction Hcases as [|c cases Hc _ IH]; [done|].
      cbn [forallb] in Hwc |- *.
      apply andb_prop in Hwc as [[? ?]%andb_prop ?].
      destruct IH as [? ?]; [done|].
      split; [constructor; [by apply Forall_wellFormed|done]|].
      by apply andb_true_intro. }
    destruct Hcases' as [Hrc Hnc].
    cbn [tokensOf]. cbn [app exec Type_ tok Value]. rewrite <- !app_assoc.
    change (flat_map (fun c => tok TCase c.1 :: flat_map tokensOf c.2) cases)
      with (flat_map caseTokens cases).
    destruct (rebuilt_cases cases Hrc Hnc
                (mkSwitchState e [] [] "" []) i nodes frames (S i)
                (match def with
                 | [] => []
                 | _ :: _ => tok TDefault "" :: flat_map tokensOf def
                 end ++ [tok TEndSwitch ""] ++ ts))
      as (st' & Hexec & Hflush).
    rewrite Hexec. clear Hexec.
    change (flushCase (mkSwitchState e [] [] "" []))
      with (mkSwitchState e [] [] "" []) in Hflush.
    cbn [Expr_ Cases_ SDefault app] in Hflush.
    destruct def as [|x def].
    + cbn [app exec Type_ tok]. rewrite Hflush.
      cbn [Expr_ Cases_ SDefault].
      destruct (appendNode _ _ _). f_equal.
      cbn [length]. rewrite !length_app. simpl. lia.
    + remember (x :: def) as def' eqn:Hdef'.
      cbn [app exec Type_ tok]. rewrite Hflush.
      cbn [Expr_ Cases_ SDefault].
      rewrite (rebuilt_body def' _ Hdef), fold_appendTo_switch.
      rewrite fold_appendCase.
      cbn [app exec Type_ tok Expr_ Cases_ SDefault currentCond currentBody].
      unfold flushCase.
      cbn [Expr_ Cases_ SDefault currentCond currentBody String.eqb negb].
      replace (0 <? length def') with true by (by subst def').
      cbn [Expr_ Cases_ SDefault].
      destruct (appendNode _ _ _). f_equal.
      cbn [length]. rewrite !length_app. cbn [length]. rewrite !length_app.
      simpl. lia.
Qed.

(** X8. The parser reads every well-formed tree back from its tokens:
    for a list of nodes in which every variable has no filters, every if
    has a branch, every for has variables and a list expression that its
    header gives back (each is what [strings.TrimSpace] leaves, so it has
    no white space at its ends, that of Unicode included), and every case
    has an expression, [compileTokens] of the tokens that spell the nodes
    returns these nodes. *)
Theorem compileTokens_tokensOf (ns : list Node) :
  forallb wellFormed ns = true ->
  compileTokens (flat_map tokensOf ns) = OK ns.
Proof.
  intros Hwf. rewrite compileTokens_exec.
  rewrite <- (List.app_nil_r (flat_map tokensOf ns)).
  rewrite rebuilt_list, appendNodes_top; [done|].
  apply Forall_wellFormed; [|done].
  apply Forall_forall. intros n _. apply tokensOf_exec.
Qed.

Lemma compileTokens_tokensOf_witness :
  let ns :=
    [IfNode [("a", [TextNode "x";
                    ForNode "i" "v" "vs" [VarNode "v" "none" []]]);
             ("b", [])]
            [SwitchNode "k" [("1", [TextNode "one"])] [TextNode "other"]]] in
  compileTokens (flat_map tokensOf ns) = OK ns.
Proof.
  intros ns. refine (compileTokens_tokensOf ns _).
  vm_compute. reflexivity.
Defined.

(** A for node whose item variable starts with a no-break space is not
    well formed: [parseFor] would read the variable back without it. *)
Lemma wellFormed_nbsp_example :
  wellFormed (ForNode "" (Example.nbsp +:+ "v") "l" []) = false
  /\ compileTokens (tokensOf (ForNode "" (Example.nbsp +:+ "v") "l" []))
     = OK [ForNode "" "v" "l" []].
Proof. split; vm_compute; reflexivity. Qed.


(** ** The tokenizer *)

Module SplitFacts.
Import Strings StringFacts.

Lemma cut_sep_Some (x : ascii) (s t : string) :
  exists b r, cut (String x "") (s +:+ String x t) = Some (b, r).
Proof.
  induction s as [|a s (b & r & IH)].
  - rewrite app_nil_l. cbn [cut HasPrefix]. rewrite Ascii.eqb_refl.
    rewrite HasPrefix_nil. eauto.
  - rewrite app_cons. cbn [cut HasPrefix].
    destruct (Ascii.eqb a x); [rewrite HasPrefix_nil; eauto|].
    rewrite IH. eauto.
Qed.

Lemma HasPrefix_app (s sep x : string) :
  HasPrefix s sep = true -> HasPrefix (s +:+ x) sep = true.
Proof.
  revert s. induction sep as [|c sep IH]; intros s;
    [intros _; apply HasPrefix_nil|].
  destruct s as [|a s]; [done|]. rewrite app_cons. simpl.
  destruct (Ascii.eqb a c); [apply IH|done].
Qed.

Lemma drop_app (n : nat) (s x : string) :
  n <= String.length s -> drop n (s +:+ x) = drop n s +:+ x.
Proof.
  revert s. induction n as [|n IH]; intros s Hn; [done|].
  destruct s as [|a s]; [simpl in Hn; lia|].
  rewrite app_cons. simpl. apply IH. simpl in Hn. lia.
Qed.

Lemma HasPrefix_app_false (s sep x : string) :
  HasPrefix s sep = false -> String.length sep <= String.length s ->
  HasPrefix (s +:+ x) sep = false.
Proof.
  revert s. induction sep as [|c sep IH]; intros s;
    [by rewrite HasPrefix_nil|].
  destruct s as [|a s]; [simpl; lia|]. rewrite app_cons. simpl.
  destruct (Ascii.eqb a c); [|done]. intros Hp Hl. apply IH; [done|lia].
Qed.

Lemma cut_app_Some (sep s b r x : string) :
  cut sep s = Some (b, r) -> cut sep (s +:+ x) = Some (b, r +:+ x).
Proof.
  revert b. induction s as [|a s IH]; intros b.
  - cbn [cut]. destruct (HasPrefix "" sep) eqn:Hp; [|done].
    intros [= <- <-]. destruct sep; [|done]. simpl. rewrite app_nil_l.
    destruct x; by rewrite ?HasPrefix_nil.
  - intros Hc. pose proof (cut_length _ _ _ _ Hc) as Hlen.
    cbn [cut] in Hc. rewrite app_cons. cbn [cut].
    destruct (HasPrefix (String a s) sep) eqn:Hp.
    + injection Hc as <- <-.
      rewrite <- app_cons, (HasPrefix_app _ _ _ Hp).
      rewrite drop_app; [done|]. by apply HasPrefix_length in Hp; lia.
    + rewrite <- app_cons, HasPrefix_app_false by (done || lia).
      destruct (cut sep s) as [[b' r']|]; [|done].
      injection Hc as <- <-. by rewrite (IH b' eq_refl).
Qed.

Section TwoBytes.
Variables x y : ascii.
Hypothesis Hxy : Ascii.eqb y x = false.

Lemma cut2_sep (s t : string) :
  cut (sep2 x y) s = None ->
  cut (sep2 x y) (s +:+ sep2 x y +:+ t) = Some (s, t).
Proof.
  unfold sep2. induction s as [|a s IH]; intros Hs.
  - rewrite app_nil_l.
    change (String x (String y "") +:+ t) with (String x (String y t)).
    cbn [cut HasPrefix]. by rewrite !Ascii.eqb_refl, HasPrefix_nil.
  - cbn [cut] in Hs. rewrite app_cons. cbn [cut].
    destruct (HasPrefix (String a s) (String x (String y ""))) eqn:Hp;
      [done|].
    destruct (cut (String x (String y "")) s) as [[b r]|] eqn:Hc; [done|].
    assert (Hp' : HasPrefix (String a (s +:+ String x (String y "") +:+ t))
                            (String x (String y "")) = false).
    { cbn [HasPrefix] in Hp |- *. destruct (Ascii.eqb a x); [|done].
      destruct s as [|b s].
      - rewrite app_nil_l.
        change (String x (String y "") +:+ t) with (String x (String y t)).
        cbn [HasPrefix]. rewrite Ascii.eqb_sym. by rewrite Hxy.
      - rewrite app_cons. cbn [HasPrefix] in Hp |- *.
        destruct (Ascii.eqb b y); [|done]. by rewrite HasPrefix_nil in Hp. }
    rewrite Hp'. by rewrite IH.
Qed.

Lemma cut2_app_None (s t : string) :
  cut (sep2 x y) s = None -> cut (sep2 x y) t = None ->
  stops (Ascii.eqb y) t = true ->
  cut (sep2 x y) (s +:+ t) = None.
Proof.
  unfold sep2. intros Hs Ht Hstop. induction s as [|a s IH].
  - by rewrite app_nil_l.
  - cbn [cut] in Hs. rewrite app_cons. cbn [cut].
    destruct (HasPrefix (String a s) (String x (String y ""))) eqn:Hp;
      [done|].
    destruct (cut (String x (String y "")) s) as [[b r]|] eqn:Hc; [done|].
    assert (Hp' : HasPrefix (String a (s +:+ t)) (String x (String y ""))
                  = false).
    { cbn [HasPrefix] in Hp |- *. destruct (Ascii.eqb a x); [|done].
      destruct s as [|b s].
      - rewrite app_nil_l. destruct t as [|c t]; [done|].
        cbn [HasPrefix]. simpl in Hstop. rewrite Ascii.eqb_sym.
        by apply negb_true_iff in Hstop as ->.
      - rewrite app_cons. cbn [HasPrefix] in Hp |- *.
        destruct (Ascii.eqb b y); [|done]. by rewrite HasPrefix_nil in Hp. }
    rewrite Hp'. by rewrite IH.
Qed.

Lemma genSplit_app_sep (t : string) (k : nat) :
  forall (s : string) (n m1 m2 : nat),
  String.length s <= k ->
  String.length (s +:+ sep2 x y +:+ t) <= n ->
  String.length s <= m1 -> String.length t <= m2 ->
  genSplit n (s +:+ sep2 x y +:+ t) (sep2 x y)
  = genSplit m1 s (sep2 x y) ++ genSplit m2 t (sep2 x y).
Proof.
  induction k as [|k IH]; intros s n m1 m2 Hk Hn Hm1 Hm2.
  - destruct s; [|simpl in Hk; lia].
    rewrite !length_app in Hn. cbn [String.length sep2] in Hn.
    rewrite app_nil_l.
    destruct n as [|n]; [lia|]. cbn [genSplit].
    pose proof (cut2_sep "" t eq_refl) as Hc. rewrite app_nil_l in Hc.
    rewrite Hc. destruct m1; cbn [genSplit cut HasPrefix app]; f_equal;
      apply genSplit_fuel; (done || lia).
  - rewrite !length_app in Hn. cbn [String.length sep2] in Hn.
    destruct n as [|n]; [lia|]. cbn [genSplit].
    destruct (cut (sep2 x y) s) as [[b r]|] eqn:Hc.
    + pose proof (cut_length _ _ _ _ Hc) as Hlen.
      cbn [String.length sep2] in Hlen.
      rewrite (cut_app_Some _ _ _ _ _ Hc).
      destruct m1 as [|m1]; [lia|]. cbn [genSplit]. rewrite Hc.
      rewrite <- app_comm_cons. f_equal.
      apply IH; try lia.
      rewrite !length_app. cbn [String.length sep2]. lia.
    + rewrite (cut2_sep s t Hc).
      rewrite (genSplit_no_sep m1 s _ Hc). cbn [app]. f_equal.
      apply genSplit_fuel; (done || lia).
Qed.

Lemma Split_app_sep (s t : string) :
  Split (s +:+ sep2 x y +:+ t) (sep2 x y)
  = Split s (sep2 x y) ++ Split t (sep2 x y).
Proof.
  unfold Split. by apply (genSplit_app_sep t (String.length s)).
Qed.

End TwoBytes.
End SplitFacts.

Lemma tokenize_sep (s t : string) :
  tokenize (s +:+ "<{" +:+ t) = tokenize s ++ tokenize t.
Proof.
  unfold tokenize. rewrite <- flat_map_app. f_equal.
  exact (SplitFacts.Split_app_sep "<" "{" eq_refl s t).
Qed.

(** X9. [tokenize] treats every part between two open markers alike, the
    first one included: the tokens of [s], an open marker and [t] are the
    tokens of [s] followed by the tokens of [t].  So the text in front of
    the first tag is read as if it stood behind an open marker. *)
Theorem tokenize_app (s t : string) :
  tokenize (s +:+ "<{" +:+ t) = tokenize s ++ tokenize t.
Proof. exact (tokenize_sep s t). Qed.

Module TokenizeFacts.
Import Strings StringFacts.

Lemma tokenize_part (x : string) :
  Contains x "<{" = false -> tokenize x = tokenizePart x.
Proof.
  intros Hx. unfold tokenize. rewrite (Split_no_sep _ _ Hx). simpl.
  apply List.app_nil_r.
Qed.

Lemma forHeader_colon (a b raw : string) :
  exists node, forHeader (mkToken TFor (a +:+ ":" +:+ b) "" raw) = OK node.
Proof.
  pose proof (forHeader_no_panic (mkToken TFor (a +:+ ":" +:+ b) "" raw)) as Hp.
  unfold forHeader, SplitN2 in *. cbn [Value Raw genSplit] in *.
  change (":" +:+ b) with (String ":" b) in *.
  destruct (SplitFacts.cut_sep_Some ":" a b) as (p0 & p1 & Hc).
  rewrite Hc in *.
  destruct (Contains (TrimSpace p0) ","); [|eauto].
  destruct (match cut "," (TrimSpace p0) with
            | Some (b0, r) => b0 :: [r]
            | None => [TrimSpace p0]
            end) as [|? [|? [|? ?]]]; eauto; done.
Qed.

Lemma tagToken_for (tag : string) :
  Type_ (tagToken tag) = TFor ->
  exists a b, tagToken tag = mkToken TFor (a +:+ ":" +:+ b) "" tag.
Proof.
  unfold tagToken. repeat case_match; try done. eauto.
Qed.

Lemma tokenizePart_for (part : string) (t : Token) :
  In t (tokenizePart part) -> Type_ t = TFor ->
  exists node, forHeader t = OK node.
Proof.
  unfold tokenizePart. destruct (String.eqb part ""); [done|].
  assert (Htag : forall tag, t = tagToken tag -> Type_ t = TFor ->
                   exists node, forHeader t = OK node).
  { intros tag -> Ht. apply tagToken_for in Ht as (a & b & ->).
    apply forHeader_colon. }
  destruct (SplitN2 part "}>") as [|tag0 [|rest [|? ?]]]; simpl;
    try (intros [<-|[]]; done).
  intros [Heq|Hin]; [by eapply Htag|].
  destruct (negb (String.eqb rest "")); [|done].
  by destruct Hin as [<-|[]].
Qed.

Lemma tokenize_for (input : string) :
  Forall (fun t => Type_ t = TFor -> exists node, forHeader t = OK node)
         (tokenize input).
Proof.
  apply List.Forall_forall. intros t Hin. unfold tokenize in Hin.
  apply in_flat_map in Hin as (part & _ & Hin).
  by apply tokenizePart_for with part.
Qed.

Lemma exec_invalid_for (ts : list Token) (raw : string) :
  forall (nodes : list Node) (frames : list Frame) (i : nat),
  exec nodes frames i ts = Err (ErrInvalidFor raw) ->
  Exists (fun t => Type_ t = TFor /\ forHeader t = Err (ErrInvalidFor raw)) ts.
Proof.
  induction ts as [|t ts IH]; intros nodes frames i.
  - simpl. by destruct frames as [|[] ?].
  - cbn [exec]. intros Hex.
    destruct (Type_ t) eqn:Ht;
      try (destruct (appendNode nodes frames (leafNode t));
           apply Exists_cons_tl; by eapply IH);
      try (apply Exists_cons_tl; by eapply IH);
      try (destruct frames as [|[s st|s st|s st] fs]; try done;
           try (apply Exists_cons_tl; by eapply IH);
           match type of Hex with
           | context [appendNode ?a ?b ?c] => destruct (appendNode a b c)
           end; apply Exists_cons_tl; by eapply IH).
    destruct (forHeader t) as [node|e|] eqn:Hh; [|injection Hex as ->|done].
    + apply Exists_cons_tl. by eapply IH.
    + by apply Exists_cons_hd.
Qed.

End TokenizeFacts.

Lemma tokenize_one_tag (tag text : string) :
  Strings.Contains tag "<{" = false -> Strings.Contains tag "}>" = false ->
  Strings.Contains text "<{" = false ->
  tokenize ("<{" +:+ tag +:+ "}>" +:+ text)
  = tagToken (Strings.TrimSpace tag)
      :: (if String.eqb text "" then [] else [mkToken TText text "" ""]).
Proof.
  intros Htag1 Htag2 Htext.
  apply StringFacts.cut_None_Contains in Htag1, Htag2, Htext.
  rewrite <- (StringFacts.app_nil_l ("<{" +:+ tag +:+ "}>" +:+ text)).
  rewrite tokenize_sep. change (tokenize "") with (@nil Token). cbn [app].
  assert (Hx : Strings.cut "<{" (tag +:+ "}>" +:+ text) = None).
  { apply (SplitFacts.cut2_app_None "<" "{"); [done| |done].
    change ("}>" +:+ text) with (String "}" (String ">" text)).
    change (sep2 "<" "{") with "<{".
    cbn [Strings.cut Strings.HasPrefix Ascii.eqb Bool.eqb].
    fold (Strings.cut "<{" text).
    by rewrite Htext. }
  rewrite TokenizeFacts.tokenize_part
    by (unfold Strings.Contains; by rewrite Hx).
  unfold tokenizePart.
  assert (Hne : String.eqb (tag +:+ "}>" +:+ text) "" = false).
  { apply String.eqb_neq. intros He.
    apply (f_equal String.length) in He. rewrite !StringFacts.length_app in He.
    simpl in He. lia. }
  rewrite Hne. unfold Strings.SplitN2. cbn [Strings.genSplit].
  change (Strings.cut "}>" (tag +:+ "}>" +:+ text))
    with (Strings.cut (sep2 "}" ">") (tag +:+ sep2 "}" ">" +:+ text)).
  rewrite (SplitFacts.cut2_sep "}" ">" eq_refl tag text Htag2).
  by destruct (String.eqb text "").
Qed.

(** X10. One tag and the text behind it: when the tag text holds neither
    marker and the text behind the close marker holds no open marker, the
    tokens are the token of the tag text with the white space at its ends
    trimmed (the white space of Unicode, so a no-break space as well) and,
    unless the text is empty, one text token with the text as it is. *)
Theorem tokenize_tag_text (tag text : string) :
  Strings.Contains tag "<{" = false -> Strings.Contains tag "}>" = false ->
  Strings.Contains text "<{" = false ->
  tokenize ("<{" +:+ tag +:+ "}>" +:+ text)
  = tagToken (Strings.TrimSpace tag)
      :: (if String.eqb text "" then [] else [mkToken TText text "" ""]).
Proof. exact (tokenize_one_tag tag text). Qed.

Lemma tokenize_tag_text_witness :
  tokenize ("<{" +:+ (Example.nbsp +:+ "x ") +:+ "}>" +:+ "!")
  = tagToken (Strings.TrimSpace (Example.nbsp +:+ "x "))
      :: [mkToken TText "!" "" ""].
Proof.
  refine (tokenize_tag_text (Example.nbsp +:+ "x ") "!" _ _ _);
    vm_compute; reflexivity.
Defined.

(** A tag padded with no-break spaces is the tag without them. *)
Lemma tokenize_nbsp_example :
  Strings.TrimSpace (Example.nbsp +:+ "x" +:+ Example.nbsp) = "x"
  /\ tokenize ("<{" +:+ Example.nbsp +:+ "x" +:+ Example.nbsp +:+ "}>")
     = [mkToken TVar "x" "" "x"].
Proof. split; vm_compute; reflexivity. Qed.

(** ** Unknown tags *)

(** The token of a tag text that matches no pattern. *)
Lemma tagToken_unknown (tag : string) :
  unknownTag tag = true ->
  tagToken tag = mkToken TText ("<{" +:+ tag +:+ "}>") "" tag.
Proof.
  unfold unknownTag. cbn [forallb]. intros Hu.
  repeat (apply andb_prop in Hu as [?%negb_true_iff Hu]).
  unfold tagToken.
  repeat match goal with
         | Hm : Regexp.MatchString _ _ = false |- _ => rewrite Hm; clear Hm
         end.
  reflexivity.
Qed.

(** C5 (amended). The tag of the template [<{frobnicate}>] matches the
    variable grammar: tokenizing gives one variable token, compiling one
    variable node, and rendering emits the textual form of the value that
    [frobnicate] resolves to in the context, or nothing when it resolves to
    none.  For every tag that holds neither marker and whose text, with the
    white space at its ends trimmed, matches none of the eleven grammars,
    tokenizing gives one text token, compiling one text node, and rendering
    emits the open marker, the trimmed tag text and the close marker. *)
Theorem frobnicate_is_variable `{Strconv} (tag : string) (data : mapref)
    (h : heap) :
  Strings.Contains tag "<{" = false -> Strings.Contains tag "}>" = false ->
  unknownTag (Strings.TrimSpace tag) = true ->
  let text := "<{" +:+ Strings.TrimSpace tag +:+ "}>" in
  (tokenize "<{frobnicate}>" = [mkToken TVar "frobnicate" "" "frobnicate"]
   /\ compileTokens (tokenize "<{frobnicate}>")
      = OK [VarNode "frobnicate" "" []]
   /\ evalNodes [VarNode "frobnicate" "" []] data h
      = (match lookup (contents h data) "frobnicate" with
         | OK (Some v) => OK (Fmt.Sprint v)
         | OK None => OK ""
         | Err e => Err e
         | Panic => Panic
         end, h))
  /\ (tokenize ("<{" +:+ tag +:+ "}>")
      = [mkToken TText text "" (Strings.TrimSpace tag)]
      /\ compileTokens (tokenize ("<{" +:+ tag +:+ "}>")) = OK [TextNode text]
      /\ evalNodes [TextNode text] data h = (OK text, h)).
Proof.
  intros Htag1 Htag2 Hu text.
  assert (Htok : tokenize ("<{" +:+ tag +:+ "}>")
                 = [mkToken TText text "" (Strings.TrimSpace tag)]).
  { rewrite <- (StringFacts.app_nil_r ("<{" +:+ tag +:+ "}>")).
    rewrite !StringFacts.app_assoc.
    rewrite (tokenize_one_tag tag "" Htag1 Htag2 eq_refl).
    by rewrite (tagToken_unknown _ Hu). }
  split; split_and!.
  - reflexivity.
  - reflexivity.
  - apply evalNodes_var.
  - exact Htok.
  - by rewrite Htok.
  - apply evalNodes_text.
Qed.

Lemma frobnicate_is_variable_witness :
  tokenize "<{ frob nicate }>"
  = [mkToken TText "<{frob nicate}>" "" "frob nicate"]
  /\ compileTokens (tokenize "<{ frob nicate }>")
     = OK [TextNode "<{frob nicate}>"].
Proof.
  destruct (frobnicate_is_variable (H := Example.exampleStrconv)
              " frob nicate " None ∅ eq_refl eq_refl eq_refl)
    as [_ (Htok & Hc & _)].
  split; [exact Htok|exact Hc].
Defined.

(** C5, as stated, fails: rendering the template [<{frobnicate}>] with an
    empty context emits nothing, not the tag. *)
Lemma frobnicate_not_verbatim :
  (Render (H := Example.exampleStrconv)
          (Example.oneFile "/t.html" 1 "<{frobnicate}>") "/t.html" None
          Example.emptyWorld ∅).1.1
  = OK ""
  /\ tokenize "<{frobnicate}>"
     <> [mkToken TText "<{frobnicate}>" "" "frobnicate"].
Proof. split; [vm_compute; reflexivity | vm_compute; discriminate]. Qed.

Module LitFacts.
Import Regexp RegexpFacts StringFacts.

Lemma matches_Alt (r1 r2 : re) (st : state) (c : caps) :
  matches (Alt r1 r2) st c = matches r1 st c ++ matches r2 st c.
Proof. reflexivity. Qed.

Lemma matches_lit_cons (a b : ascii) (s t : string) (q : nat) (c : caps) :
  matches (lit (String a s)) (State q (String b t)) c
  = if Ascii.eqb a b then matches (lit s) (State (S q) t) c else [].
Proof.
  cbn [lit]. rewrite matches_Seq, matches_Chr.
  destruct (Ascii.eqb a b); [|done].
  cbn [flat_map fst snd]. apply List.app_nil_r.
Qed.

Lemma matches_lit_nil (st : state) (c : caps) :
  matches (lit "") st c = [(st, c)].
Proof. reflexivity. Qed.

Ltac lit_step Hb :=
  rewrite matches_lit_cons;
  first
    [ rewrite Hb
    | match goal with
      | |- context [Ascii.eqb ?x ?y] =>
          let v := eval vm_compute in (Ascii.eqb x y) in
          change (Ascii.eqb x y) with v
      end ];
  cbv iota.

Lemma take_app (l t : string) : Strings.take (String.length l) (l +:+ t) = l.
Proof.
  induction l as [|a l IH]; [by destruct t|].
  rewrite app_cons. simpl. by rewrite IH.
Qed.

Lemma drop_app_length (l t : string) :
  Strings.drop (String.length l) (l +:+ t) = t.
Proof.
  induction l as [|a l IH]; [by rewrite app_nil_l|].
  rewrite app_cons. simpl. exact IH.
Qed.

End LitFacts.

Module KeywordFacts.
Import Regexp RegexpFacts StringFacts LitFacts.

Lemma find_keyword (kw sp e : string) :
  sp <> "" -> all space sp = true ->
  stops space e = true -> e <> "" -> all any e = true ->
  find (keywordPattern kw) (kw +:+ sp +:+ e)
  = Some (Found 0 (kw +:+ sp +:+ e) [(1, e)]).
Proof.
  intros Hsp Hspace Hstop He Hany.
  destruct sp as [|b sp]; [done|]. destruct e as [|a e]; [done|].
  simpl in Hspace, Hany.
  apply andb_prop in Hspace as [Hb Hspace].
  apply andb_prop in Hany as [Ha Hany].
  unfold keywordPattern, cat. cbn [fold_right].
  rewrite find_Bos. rewrite matches_Seq, matches_lit_app.
  cbn [flat_map fst snd]. rewrite List.app_nil_r.
  rewrite matches_Seq. unfold s_plus.
  rewrite app_cons, matches_plus_chr by done.
  destruct (greedyRun_app space sp (String a e)
              (S (0 + String.length kw)) Hspace) as [shorter ->].
  rewrite (greedyRun_stops space (String a e)) by done.
  cbn [app map flat_map fst snd].
  unfold dot_plus. rewrite matches_group_plus_eos by done.
  cbn [app]. unfold consumed. cbn [rest String.length].
  rewrite Nat.sub_0_r, <- app_cons, take_length. reflexivity.
Qed.

Lemma keyword_mismatch (c b : ascii) (k t : string) (r : re) :
  Ascii.eqb c b = false ->
  MatchString (Seq Bos (Seq (lit (String c k)) r)) (String b t) = false.
Proof.
  intros Hcb. unfold MatchString. rewrite find_Bos.
  by rewrite matches_Seq, matches_lit_cons, Hcb.
Qed.

Lemma MatchString_keyword (kw sp e : string) :
  sp <> "" -> all space sp = true ->
  stops space e = true -> e <> "" -> all any e = true ->
  MatchString (keywordPattern kw) (kw +:+ sp +:+ e) = true
  /\ submatch (keywordPattern kw) (kw +:+ sp +:+ e) 1 = e.
Proof.
  intros. unfold MatchString, submatch. by rewrite find_keyword.
Qed.

End KeywordFacts.

(** X11. The expression of an [if], [elseif], [switch] or [case] tag is
    the tag text behind the keyword and the blanks that follow it, taken
    as it is: for every expression that starts with no blank and holds no
    line feed, the token has the type of the keyword, the expression as
    its value and the tag text as its raw text. *)
Theorem tagToken_keyword (sp e : string) :
  sp <> "" -> all Regexp.space sp = true ->
  stops Regexp.space e = true -> e <> "" -> all Regexp.any e = true ->
  tagToken ("if" +:+ sp +:+ e) = mkToken TIf e "" ("if" +:+ sp +:+ e)
  /\ tagToken ("elseif" +:+ sp +:+ e)
     = mkToken TElseIf e "" ("elseif" +:+ sp +:+ e)
  /\ tagToken ("switch" +:+ sp +:+ e)
     = mkToken TSwitch e "" ("switch" +:+ sp +:+ e)
  /\ tagToken ("case" +:+ sp +:+ e)
     = mkToken TCase e "" ("case" +:+ sp +:+ e).
Proof.
  intros Hsp Hspace Hstop He Hany.
  assert (Hk : forall kw,
            Regexp.MatchString (keywordPattern kw) (kw +:+ sp +:+ e) = true
            /\ Regexp.submatch (keywordPattern kw) (kw +:+ sp +:+ e) 1 = e)
    by (intros kw; by apply KeywordFacts.MatchString_keyword).
  assert (Hmis : forall (b : ascii) (t : string),
            (Ascii.eqb "i" b = false ->
             Regexp.MatchString ifPattern (String b t) = false)
            /\ (Ascii.eqb "e" b = false ->
                Regexp.MatchString elseifPattern (String b t) = false
                /\ Regexp.MatchString elsePattern (String b t) = false)
            /\ (Ascii.eqb "/" b = false ->
                Regexp.MatchString endifPattern (String b t) = false
                /\ Regexp.MatchString endforPattern (String b t) = false)
            /\ (Ascii.eqb "f" b = false ->
                Regexp.MatchString forPattern (String b t) = false)
            /\ (Ascii.eqb "s" b = false ->
                Regexp.MatchString switchPattern (String b t) = false)).
  { intros b t. split_and!; intros Hb; try split;
      by apply KeywordFacts.keyword_mismatch. }
  split_and!; unfold tagToken.
  - change ifPattern with (keywordPattern "if").
    destruct (Hk "if") as [-> ->]. done.
  - change ("elseif" +:+ sp +:+ e) with (String "e" ("lseif" +:+ sp +:+ e)).
    destruct (Hmis "e"%char ("lseif" +:+ sp +:+ e)) as (H1 & _).
    rewrite (H1 eq_refl).
    change (String "e" ("lseif" +:+ sp +:+ e)) with ("elseif" +:+ sp +:+ e).
    change elseifPattern with (keywordPattern "elseif").
    destruct (Hk "elseif") as [-> ->]. done.
  - change ("switch" +:+ sp +:+ e) with (String "s" ("witch" +:+ sp +:+ e)).
    destruct (Hmis "s"%char ("witch" +:+ sp +:+ e)) as (H1 & H2 & H3 & H4 & _).
    destruct (H2 eq_refl) as [-> ->]. destruct (H3 eq_refl) as [-> ->].
    rewrite (H1 eq_refl), (H4 eq_refl).
    change (String "s" ("witch" +:+ sp +:+ e)) with ("switch" +:+ sp +:+ e).
    change switchPattern with (keywordPattern "switch").
    destruct (Hk "switch") as [-> ->]. done.
  - change ("case" +:+ sp +:+ e) with (String "c" ("ase" +:+ sp +:+ e)).
    destruct (Hmis "c"%char ("ase" +:+ sp +:+ e)) as (H1 & H2 & H3 & H4 & H5).
    destruct (H2 eq_refl) as [-> ->]. destruct (H3 eq_refl) as [-> ->].
    rewrite (H1 eq_refl), (H4 eq_refl), (H5 eq_refl).
    change (String "c" ("ase" +:+ sp +:+ e)) with ("case" +:+ sp +:+ e).
    change casePattern with (keywordPattern "case").
    destruct (Hk "case") as [-> ->]. done.
Qed.

Lemma tagToken_keyword_witness :
  tagToken "if a > b" = mkToken TIf "a > b" "" "if a > b".
Proof.
  refine (proj1 (tagToken_keyword " " "a > b" _ _ _ _ _)).
  - done.
  - vm_compute. reflexivity.
  - vm_compute. reflexivity.
  - done.
  - vm_compute. reflexivity.
Defined.

(** X12. Every for token that [tokenize] produces has a header that
    [parseFor] accepts, so compiling the tokens of a template text never
    fails with the invalid-for-tag error. *)
Theorem compile_tokenize_for_header (input : string) (raw : string) :
  Forall (fun t => Type_ t = TFor -> exists node, forHeader t = OK node)
         (tokenize input)
  /\ compileTokens (tokenize input) <> Err (ErrInvalidFor raw).
Proof.
  split; [apply TokenizeFacts.tokenize_for|].
  rewrite compileTokens_exec. intros Hex.
  apply TokenizeFacts.exec_invalid_for in Hex.
  apply List.Exists_exists in Hex as (t & Hin & Ht & Herr).
  pose proof (TokenizeFacts.tokenize_for input) as Hall.
  rewrite List.Forall_forall in Hall.
  destruct (Hall t Hin Ht) as [node Hok]. congruence.
Qed.

(** ** The expression evaluator *)

Module OperatorFacts.
Import Regexp RegexpFacts.

Lemma matches_compOps (st st' : state) (c c' : caps) :
  In (st', c') (matches compOps st c) ->
  c' = c /\ exists op, In op comparisons /\ rest st = op +:+ rest st'.
Proof.
  unfold compOps. cbn [matches]. rewrite !in_app_iff.
  assert (Hlit : forall op, In (st', c') (matches (lit op) st c) ->
                   c' = c /\ rest st = op +:+ rest st').
  { intros op Hin.
    destruct (matches_lit_cases op st c) as [Hnil | (t & Hr & Hm)].
    - rewrite Hnil in Hin. done.
    - rewrite Hm in Hin. destruct Hin as [Heq|[]].
      injection Heq as <- <-. by simpl. }
  unfold comparisons.
  intros [Hin|[Hin|[Hin|[Hin|[Hin|Hin]]]]];
    apply Hlit in Hin as [-> Hr]; (split; [done|]);
    eexists; (split; [|exact Hr]); simpl; tauto.
Qed.

Lemma matches_star_caps (p : ascii -> bool) (st st' : state) (c c' : caps) :
  In (st', c') (matches (Seq (Star true (Chr p)) Eps) st c) -> c' = c.
Proof.
  destruct st as [q s]. rewrite matches_Seq, matches_star_chr.
  rewrite flat_map_map'. intros Hin. apply in_flat_map in Hin as (x & _ & Hin).
  simpl in Hin. destruct Hin as [Heq|[]]. by injection Heq.
Qed.

(** Every way to match [compOpRe] records one of the six operators as
    group 1, and the operator stands in the input. *)
Lemma matches_compOpRe (st st' : state) (c' : caps) :
  In (st', c') (matches compOpRe st []) ->
  exists op pre post,
    In op comparisons /\ c' = [(1, op)]
    /\ rest st = pre +:+ op +:+ post.
Proof.
  destruct st as [q s]. unfold compOpRe, cat, s_star. cbn [fold_right].
  fold compOps.
  rewrite matches_Seq, matches_star_chr, flat_map_map'.
  intros Hin. apply in_flat_map in Hin as (st1 & Hrun & Hin).
  cbn [fst snd] in Hin.
  rewrite matches_Seq, matches_Group, flat_map_map' in Hin.
  apply in_flat_map in Hin as ([st2 c2] & Hops & Hin).
  cbn [fst snd] in Hin.
  apply matches_compOps in Hops as (-> & op & Hop & Hrest).
  apply matches_star_caps in Hin as ->.
  apply In_greedyRun in Hrun as (pre & Hs & _).
  exists op, pre, (rest st2). split; [done|]. split.
  - unfold consumed. rewrite Hrest. by rewrite take_app_length.
  - simpl. by rewrite Hs, Hrest.
Qed.

Lemma findFrom_compOpRe (s : string) (q : nat) (m : found) :
  findFrom compOpRe q s = Some m ->
  In (group 1 (m_caps m)) comparisons.
Proof.
  revert q. induction s as [|a s IH]; intros q; cbn [findFrom].
  - destruct (matches compOpRe (State q "") []) as [|[st' c'] l] eqn:Hm;
      [done|].
    intros [= <-]. simpl.
    destruct (matches_compOpRe (State q "") st' c') as (op & ? & ? & ? & -> & _);
      [rewrite Hm; by left|].
    simpl. done.
  - destruct (matches compOpRe (State q (String a s)) []) as [|[st' c'] l]
      eqn:Hm; [apply IH|].
    intros [= <-]. simpl.
    destruct (matches_compOpRe (State q (String a s)) st' c')
      as (op & ? & ? & ? & -> & _); [rewrite Hm; by left|].
    simpl. done.
Qed.

Lemma submatch_compOpRe (s : string) :
  MatchString compOpRe s = true ->
  In (submatch compOpRe s 1) comparisons.
Proof.
  unfold MatchString, submatch, find.
  destruct (findFrom compOpRe 0 s) as [m|] eqn:Hm; [|done].
  intros _. by apply findFrom_compOpRe in Hm.
Qed.

Lemma Split2_compOpRe (s : string) :
  MatchString compOpRe s = true ->
  exists part0 part1, Split2 compOpRe s = [part0; part1].
Proof.
  unfold MatchString, Split2.
  destruct (find compOpRe s) as [m|]; [eauto|done].
Qed.

End OperatorFacts.

Section EvalFacts.
Context `{Strconv}.

Lemma compareValues_supported (a b : value) (op : string) :
  In op comparisons -> exists r, compareValues a b op = OK r.
Proof.
  unfold comparisons. simpl.
  intros [<-|[<-|[<-|[<-|[<-|[<-|[]]]]]]]; unfold compareValues;
    cbn [String.eqb Ascii.eqb Bool.eqb];
    destruct (toFloat a), (toFloat b); eauto;
    destruct a; eauto; destruct b; eauto.
Qed.

Lemma compareValues_unsupported (a b : value) (op : string) :
  ~ In op comparisons ->
  compareValues a b op = Err (ErrUnsupportedComparison a b).
Proof.
  unfold comparisons. simpl. intros Hop.
  assert (Hneq : forall s, In s ["=="; "!="; ">="; "<="; ">"; "<"] ->
                   String.eqb op s = false).
  { intros s Hs. apply String.eqb_neq. intros ->. apply Hop.
    simpl in Hs. tauto. }
  unfold compareValues.
  rewrite !Hneq by (simpl; tauto).
  destruct (toFloat a), (toFloat b); destruct a; try done; by destruct b.
Qed.

Lemma literalFromString_no_error (s : string) (e : Error) :
  literalFromString s <> Err e.
Proof.
  unfold literalFromString, unwrap.
  repeat case_match; done.
Qed.

Lemma lookupSeg_no_error (cur : value) (seg : string) (e : Error) :
  lookupSeg cur seg <> Err e.
Proof. unfold lookupSeg. repeat case_match; done. Qed.

Lemma lookupPath_no_error (parts : list string) (cur : value) (e : Error) :
  lookupPath cur parts <> Err e.
Proof.
  revert cur. induction parts as [|seg parts IH]; intros cur; [done|].
  cbn [lookupPath]. pose proof (lookupSeg_no_error cur seg e).
  destruct (lookupSeg cur seg) as [[v|]| |]; [apply IH|done|done|done].
Qed.

Lemma lookup_no_error (data : gmap string value) (s : string) (e : Error) :
  lookup data s <> Err e.
Proof.
  unfold lookup. repeat case_match; try done; apply lookupPath_no_error.
Qed.

Lemma operand_no_error (data : gmap string value) (s : string) (e : Error) :
  operand data s <> Err e.
Proof.
  unfold operand.
  destruct (lookup data s) as [[v|]|e0|] eqn:Hl; simpl; [done| | |done].
  - apply literalFromString_no_error.
  - by destruct (lookup_no_error data s e0).
Qed.

Lemma evalSimpleCond_no_error_lemma (cond : string) (data : gmap string value)
    (e : Error) :
  evalSimpleCond cond data <> Err e.
Proof.
  unfold evalSimpleCond.
  destruct (Regexp.MatchString compOpRe cond) eqn:Hm.
  - destruct (OperatorFacts.Split2_compOpRe cond Hm) as (p0 & p1 & ->).
    pose proof (OperatorFacts.submatch_compOpRe cond Hm) as Hop.
    pose proof (operand_no_error data (Strings.TrimSpace p0)) as H0.
    pose proof (operand_no_error data (Strings.TrimSpace p1)) as H1.
    destruct (operand data (Strings.TrimSpace p0)) as [lv|e0|]; simpl;
      [|by destruct (H0 e0)|done].
    destruct (operand data (Strings.TrimSpace p1)) as [rv|e1|]; simpl;
      [|by destruct (H1 e1)|done].
    destruct (compareValues_supported lv rv _ Hop) as [r ->]. done.
  - pose proof (operand_no_error data cond) as H0.
    destruct (operand data cond) as [v|e0|]; simpl; [done| |done].
    by destruct (H0 e0).
Qed.

Lemma splitLogicalLoop_shape (words : list string) :
  forall (parts : list string) (cur : string),
  exists (ps : list (string * string)) (last : list string),
    splitLogicalLoop parts cur words = parts ++ flatPairs ps ++ last
    /\ Forall (fun p => isKeyword p.2) ps
    /\ length last <= 1.
Proof.
  induction words as [|w words IH]; intros parts cur.
  - cbn [splitLogicalLoop]. destruct (negb (String.eqb cur "")).
    + exists [], [Strings.TrimSpace cur]. simpl. auto.
    + exists [], []. simpl. rewrite List.app_nil_r. auto.
  - cbn [splitLogicalLoop].
    destruct (String.eqb w "and" || String.eqb w "or") eqn:Hk.
    + destruct (IH (parts ++ [Strings.TrimSpace cur] ++ [w]) "")
        as (ps & last & -> & Hps & Hlast).
      exists ((Strings.TrimSpace cur, w) :: ps), last.
      split; [by rewrite <- !app_assoc|]. split; [|done].
      constructor; [|done]. simpl.
      apply orb_prop in Hk as [?%String.eqb_eq|?%String.eqb_eq];
        [by left|by right].
    + destruct (String.eqb cur ""); apply IH.
Qed.

Lemma evalConditionLoop_no_error (data : gmap string value) (e : Error)
    (ps : list (string * string)) :
  forall (last : list string) (res : bool) (k : string),
  isKeyword k -> Forall (fun p => isKeyword p.2) ps -> length last <= 1 ->
  evalConditionLoop res (k :: flatPairs ps ++ last) data <> Err e.
Proof.
  induction ps as [|[o k'] ps IH]; intros last res k Hk Hps Hlast.
  - simpl. destruct last as [|c [|? ?]]; [done| |simpl in Hlast; lia].
    cbn [app evalConditionLoop].
    pose proof (evalSimpleCond_no_error_lemma (Strings.TrimSpace c) data) as Hc.
    destruct (evalSimpleCond (Strings.TrimSpace c) data) as [r|e0|]; simpl;
      [|by destruct (Hc e0)|done].
    by destruct Hk as [-> | ->].
  - apply Forall_cons_1 in Hps as [Hk' Hps]. simpl in Hk'.
    cbn [flatPairs flat_map fst snd app evalConditionLoop].
    pose proof (evalSimpleCond_no_error_lemma (Strings.TrimSpace o) data) as Hc.
    destruct (evalSimpleCond (Strings.TrimSpace o) data) as [r|e0|]; simpl;
      [|by destruct (Hc e0)|done].
    destruct Hk as [-> | ->]; cbn; by apply IH.
Qed.

Lemma evalCondition_no_error_lemma (expr : string) (data : gmap string value)
    (e : Error) :
  evalCondition expr data <> Err e.
Proof.
  unfold evalCondition, splitLogical.
  destruct (splitLogicalLoop_shape
              (Strings.Fields (Strings.TrimSpace expr)) [] "")
    as (ps & last & -> & Hps & Hlast).
  cbn [app].
  destruct ps as [|[o k] ps].
  - simpl. destruct last as [|c [|? ?]]; [done| |simpl in Hlast; lia].
    pose proof (evalSimpleCond_no_error_lemma (Strings.TrimSpace c) data) as Hc.
    destruct (evalSimpleCond (Strings.TrimSpace c) data) as [r|e0|]; simpl;
      [done|by destruct (Hc e0)|done].
  - apply Forall_cons_1 in Hps as [Hk Hps]. simpl in Hk.
    cbn [flatPairs flat_map fst snd app].
    pose proof (evalSimpleCond_no_error_lemma (Strings.TrimSpace o) data) as Hc.
    destruct (evalSimpleCond (Strings.TrimSpace o) data) as [r|e0|]; simpl;
      [|by destruct (Hc e0)|done].
    by apply evalConditionLoop_no_error.
Qed.

End EvalFacts.

Module LiteralFacts.

Lemma digits_all (s : string) (acc n : Z) :
  Strconv_.digits acc s = Some n -> all signOrDigit s = true.
Proof.
  revert acc. induction s as [|a s IH]; intros acc; [done|].
  simpl. unfold signOrDigit at 1.
  destruct (Strconv_.digit a); [|done]. intros Hd. simpl. eauto.
Qed.

Lemma Atoi_digits (s : string) (n : Z) :
  Strconv_.Atoi s = Some n ->
  exists ds k,
    Strconv_.digits 0 ds = Some k
    /\ (s = ds \/ s = String "-" ds \/ s = String "+" ds).
Proof.
  unfold Strconv_.Atoi. destruct s as [|a s]; [done|].
  destruct a as [[] [] [] [] [] [] [] []]; intros Hs;
    match type of Hs with
    | match Strconv_.digits 0 ?ds with _ => _ end = _ =>
        destruct (Strconv_.digits 0 ds) as [k|] eqn:Hd;
        [exists ds, k; split; [exact Hd|tauto]|done]
    | match ?ds with _ => _ end = _ =>
        destruct ds as [|b ds'] eqn:Hds; [done|];
        destruct (Strconv_.digits 0 (String b ds')) as [k|] eqn:Hd;
        [exists (String b ds'), k; split; [exact Hd|tauto]|done]
    end.
Qed.

Lemma Atoi_all (s : string) (n : Z) :
  Strconv_.Atoi s = Some n -> s <> "" /\ all signOrDigit s = true.
Proof.
  intros Hs. split; [by intros ->|].
  apply Atoi_digits in Hs as (ds & k & Hd & [->|[->| ->]]);
    apply digits_all in Hd; simpl; by rewrite ?Hd.
Qed.

End LiteralFacts.

Module IntegerFacts.
Import Strings StringFacts.
Import Regexp RegexpFacts LiteralFacts.

Lemma signOrDigit_byte (a : ascii) :
  signOrDigit a = true ->
  negb (isSpace a) = true /\ notOpByte a = true
  /\ Ascii.eqb a "034" = false /\ Ascii.eqb a "039" = false.
Proof. by destruct a as [[] [] [] [] [] [] [] []]. Qed.

Lemma signOrDigit_low (a : ascii) :
  signOrDigit a = true -> lowByte a && negb (isSpace a) = true.
Proof. by destruct a as [[] [] [] [] [] [] [] []]. Qed.

Lemma matches_compOpRe_none (s : string) (q : nat) :
  all notOpByte s = true -> matches compOpRe (State q s) [] = [].
Proof.
  intros Hs.
  destruct (matches compOpRe (State q s) []) as [|[st' c'] l] eqn:Hm; [done|].
  destruct (OperatorFacts.matches_compOpRe (State q s) st' c')
    as (op & pre & post & Hop & _ & Hrest); [rewrite Hm; by left|].
  simpl in Hrest. rewrite Hrest, !all_app in Hs.
  apply andb_prop in Hs as [_ [Hs _]%andb_prop].
  unfold comparisons in Hop. simpl in Hop.
  by destruct Hop as [<-|[<-|[<-|[<-|[<-|[<-|[]]]]]]].
Qed.

Lemma findFrom_compOpRe_none (s : string) (q : nat) :
  all notOpByte s = true -> findFrom compOpRe q s = None.
Proof.
  revert q. induction s as [|a s IH]; intros q Hs; cbn [findFrom];
    rewrite matches_compOpRe_none by done; [done|].
  apply IH. simpl in Hs. by apply andb_prop in Hs as [_ ?].
Qed.

Lemma MatchString_compOpRe_none (s : string) :
  all notOpByte s = true -> MatchString compOpRe s = false.
Proof.
  intros Hs. unfold MatchString, find. by rewrite findFrom_compOpRe_none.
Qed.

Section Integer.
Context `{Strconv}.
Variables (c : string) (n : Z).
Hypothesis Hc : Strconv_.Atoi c = Some n.

Lemma integer_isWord : isWord c = true.
Proof.
  destruct (Atoi_all c n Hc) as [Hne Hall].
  unfold isWord. apply String.eqb_neq in Hne. rewrite Hne. simpl.
  apply noSpace_low. eapply all_impl; [|exact Hall].
  apply signOrDigit_low.
Qed.

Lemma integer_not (w : string) :
  all signOrDigit w = false -> String.eqb c w = false.
Proof.
  intros Hw. apply String.eqb_neq. intros ->.
  destruct (Atoi_all _ n Hc) as [_ Hall]. congruence.
Qed.

Lemma integer_plainWord : plainWord c = true.
Proof.
  unfold plainWord. rewrite integer_isWord, !integer_not; done.
Qed.

Lemma integer_TrimSpace : TrimSpace c = c.
Proof.
  pose proof integer_isWord as Hw.
  exact (TrimSpace_join [c] ltac:(done) ltac:(by simpl; rewrite Hw)).
Qed.

Lemma integer_no_operator : MatchString compOpRe c = false.
Proof.
  apply MatchString_compOpRe_none.
  destruct (Atoi_all c n Hc) as [_ Hall].
  eapply all_impl; [|exact Hall].
  intros a Ha. by apply signOrDigit_byte in Ha as (_ & ? & _).
Qed.

Lemma integer_not_quoted : isQuoted c = false.
Proof.
  destruct (Atoi_all c n Hc) as [Hne Hall].
  destruct c as [|a s]; [done|]. simpl in Hall.
  apply andb_prop in Hall as [Ha _].
  apply signOrDigit_byte in Ha as (_ & _ & Hd & Hs).
  unfold isQuoted, dquote, squote. cbn [HasPrefix].
  by rewrite Hd, Hs.
Qed.

Lemma lookup_integer (data : gmap string value) :
  lookup data c = OK (Some (VInt n)).
Proof.
  unfold lookup. rewrite integer_TrimSpace.
  destruct (LiteralFacts.Atoi_all c n Hc) as [Hne%String.eqb_neq _].
  by rewrite Hne, integer_not_quoted, Hc.
Qed.

Lemma literalFromString_integer : literalFromString c = OK (VInt n).
Proof.
  unfold literalFromString. rewrite integer_TrimSpace.
  rewrite integer_not_quoted, !integer_not by done.
  by rewrite Hc.
Qed.

Lemma evalSimpleCond_integer (data : gmap string value) :
  evalSimpleCond c data = OK (negb (n =? 0)%Z).
Proof.
  unfold evalSimpleCond, operand.
  by rewrite integer_no_operator, lookup_integer.
Qed.

End Integer.
End IntegerFacts.

Module SingleFacts.
Import Strings StringFacts.
Section Single.
Context `{Strconv}.

Lemma splitLogical_operand (a : list string) :
  operandWords a -> splitLogical (Fmt.join " " a) = [Fmt.join " " a].
Proof.
  intros Ha. pose proof Ha as [Hne Hw].
  pose proof (plainWord_isWord _ Hw) as Hw'.
  unfold splitLogical. rewrite TrimSpace_join, Fields_join by done.
  rewrite <- (List.app_nil_r a) at 1.
  rewrite ConditionFacts.splitLogicalLoop_operand by done.
  cbn [splitLogicalLoop].
  rewrite (proj2 (String.eqb_neq _ _) (join_nonempty a Hne Hw')).
  by rewrite TrimSpace_join.
Qed.

Lemma evalCondition_operand (a : list string) (data : gmap string value) :
  operandWords a ->
  evalCondition (Fmt.join " " a) data = evalSimpleCond (Fmt.join " " a) data.
Proof.
  intros Ha. unfold evalCondition. rewrite splitLogical_operand by done.
  destruct Ha as [Hne Hw]. apply plainWord_isWord in Hw.
  rewrite TrimSpace_join by done.
  by destruct (evalSimpleCond (Fmt.join " " a) data).
Qed.

End Single.
End SingleFacts.

Module ComparisonFacts.
Import Regexp RegexpFacts StringFacts LitFacts.

Lemma matches_compOps_none (a : ascii) (s : string) (q : nat) (c : caps) :
  notOpByte a = true -> matches compOps (State q (String a s)) c = [].
Proof.
  intros Ha.
  destruct (matches compOps (State q (String a s)) c) as [|[st' c'] l] eqn:Hm;
    [done|].
  destruct (OperatorFacts.matches_compOps (State q (String a s)) st' c c')
    as (_ & op & Hop & Hrest); [rewrite Hm; by left|].
  simpl in Hrest. unfold comparisons in Hop. simpl in Hop.
  destruct Hop as [<-|[<-|[<-|[<-|[<-|[<-|[]]]]]]];
    injection Hrest as -> _; done.
Qed.

Lemma matches_compOpRe_skip (a : ascii) (s : string) (q : nat) :
  notOpByte a = true -> space a = false ->
  matches compOpRe (State q (String a s)) [] = [].
Proof.
  intros Ha Hs. unfold compOpRe, cat, s_star. cbn [fold_right].
  fold compOps.
  rewrite matches_Seq, matches_star_chr.
  rewrite greedyRun_stops by (simpl; by rewrite Hs).
  cbn [map flat_map fst snd]. rewrite List.app_nil_r.
  rewrite matches_Seq, matches_Group, matches_compOps_none by done.
  done.
Qed.

Lemma findFrom_compOpRe_skip (l t : string) (q : nat) :
  all notOpByte l = true -> noSpace l = true ->
  findFrom compOpRe q (l +:+ t) = findFrom compOpRe (q + String.length l) t.
Proof.
  revert q. induction l as [|a l IH]; intros q Hop Hsp.
  - rewrite app_nil_l. simpl. by rewrite Nat.add_0_r.
  - simpl in Hop. apply andb_prop in Hop as [Ha Hop].
    unfold noSpace in Hsp. simpl in Hsp. apply andb_prop in Hsp as [Hb Hsp].
    rewrite app_cons. cbn [findFrom].
    rewrite matches_compOpRe_skip; [|done|].
    + rewrite IH by done. f_equal. simpl. lia.
    + destruct (space a) eqn:Hs; [|done].
      apply space_isSpace in Hs. by rewrite Hs in Hb.
Qed.

(** The alternatives at an operator that is followed by a byte other than
    [=]: the operator itself is the first one to match. *)
Lemma matches_compOps_head (op : string) (b : ascii) (u : string) (q : nat) :
  In op comparisons -> Ascii.eqb "=" b = false ->
  exists tl,
    matches compOps (State q (op +:+ String b u)) []
    = (State (q + String.length op) (String b u), []) :: tl.
Proof.
  intros Hop Hb.
  assert (Hcases : op = "==" \/ op = "!=" \/ op = ">=" \/ op = "<="
                   \/ op = ">" \/ op = "<").
  { unfold comparisons in Hop. cbn [In] in Hop. intuition. }
  unfold compOps. rewrite !matches_Alt.
  destruct Hcases as [->|[->|[->|[->|[->| ->]]]]];
    match goal with
    | |- context [State q (?o +:+ String b u)] =>
        let v := eval cbv in (o +:+ String b u) in
        change (o +:+ String b u) with v
    end;
    repeat lit_step Hb; rewrite ?matches_lit_nil; cbn [app String.length];
    eexists; repeat f_equal; lia.
Qed.

Lemma first_byte (r : string) :
  plainOperand r = true ->
  exists b u, r = String b u /\ Ascii.eqb "=" b = false /\ space b = false.
Proof.
  unfold plainOperand, isWord, noSpace. destruct r as [|b u]; [done|].
  intros [[_ Hsp]%andb_prop Hop]%andb_prop. simpl in Hsp, Hop.
  apply andb_prop in Hsp as [Hb _]. apply andb_prop in Hop as [Ho _].
  exists b, u. split; [done|]. split.
  - unfold notOpByte in Ho. rewrite Ascii.eqb_sym.
    by destruct (Ascii.eqb b "=").
  - destruct (space b) eqn:Hs; [|done].
    apply space_isSpace in Hs. by rewrite Hs in Hb.
Qed.

Lemma op_first_byte (op t : string) :
  In op comparisons -> stops space (op +:+ t) = true.
Proof.
  unfold comparisons. simpl.
  by intros [<-|[<-|[<-|[<-|[<-|[<-|[]]]]]]].
Qed.

Lemma space_not_eq (sr r : string) :
  all space sr = true -> plainOperand r = true ->
  exists b u, sr +:+ r = String b u /\ Ascii.eqb "=" b = false.
Proof.
  intros Hsr Hr. destruct (first_byte r Hr) as (b & u & -> & Hb & _).
  destruct sr as [|a sr].
  - exists b, u. by rewrite app_nil_l.
  - exists a, (sr +:+ String b u). rewrite app_cons. split; [done|].
    simpl in Hsr. apply andb_prop in Hsr as [Ha _].
    destruct (Ascii.eqb "=" a) eqn:He; [|done].
    apply Ascii.eqb_eq in He. by subst a.
Qed.

Lemma matches_compOpRe_head (sl op sr r : string) (q : nat) :
  all space sl = true -> all space sr = true ->
  In op comparisons -> plainOperand r = true ->
  exists tl,
    matches compOpRe (State q (sl +:+ op +:+ sr +:+ r)) []
    = (State (q + String.length sl + String.length op + String.length sr) r,
       [(1, op)]) :: tl.
Proof.
  intros Hsl Hsr Hop Hr.
  unfold compOpRe, cat, s_star. cbn [fold_right]. fold compOps.
  rewrite matches_Seq, matches_star_chr.
  destruct (greedyRun_app space sl (op +:+ sr +:+ r) q Hsl) as [sh1 ->].
  rewrite (greedyRun_stops space (op +:+ sr +:+ r))
    by (by apply op_first_byte).
  cbn [app map flat_map fst snd].
  rewrite matches_Seq, matches_Group.
  destruct (space_not_eq sr r Hsr Hr) as (b & u & Hu & Hb).
  rewrite Hu.
  destruct (matches_compOps_head op b u (q + String.length sl) Hop Hb)
    as [tl1 ->].
  cbn [map flat_map fst snd]. rewrite <- Hu.
  unfold consumed at 1. cbn [rest]. rewrite take_app_length.
  rewrite matches_Seq, matches_star_chr.
  destruct (greedyRun_app space sr r
              (q + String.length sl + String.length op) Hsr) as [sh2 ->].
  destruct (first_byte r Hr) as (b' & u' & Hr' & _ & Hb').
  rewrite (greedyRun_stops space r) by (rewrite Hr'; simpl; by rewrite Hb').
  cbn [app map flat_map fst snd matches]. eauto.
Qed.

Lemma plainOperand_parts (s : string) :
  plainOperand s = true ->
  all notOpByte s = true /\ noSpace s = true /\ Strings.TrimSpace s = s.
Proof.
  unfold plainOperand. intros [Hw Hop]%andb_prop.
  split; [done|]. split.
  - unfold isWord in Hw. by apply andb_prop in Hw as [_ ?].
  - exact (TrimSpace_join [s] ltac:(done) ltac:(by simpl; rewrite Hw)).
Qed.

Lemma find_compOpRe (l sl op sr r : string) :
  plainOperand l = true -> plainOperand r = true ->
  all space sl = true -> all space sr = true -> In op comparisons ->
  find compOpRe (l +:+ sl +:+ op +:+ sr +:+ r)
  = Some (Found (String.length l) (sl +:+ op +:+ sr) [(1, op)]).
Proof.
  intros Hl Hr Hsl Hsr Hop.
  destruct (plainOperand_parts l Hl) as (Hlo & Hls & _).
  unfold find. rewrite findFrom_compOpRe_skip by done. cbn [Nat.add].
  destruct (matches_compOpRe_head sl op sr r (String.length l)
              Hsl Hsr Hop Hr) as [tl Hm].
  assert (Hfind : forall t q, findFrom compOpRe q t
                    = match matches compOpRe (State q t) [] with
                      | (st', c) :: _ =>
                          Some (Found q (consumed (State q t) st') c)
                      | [] => match t with
                              | "" => None
                              | String _ s' => findFrom compOpRe (S q) s'
                              end
                      end).
  { intros t q. by destruct t. }
  rewrite Hfind, Hm. do 2 f_equal. unfold consumed. cbn [rest].
  replace (sl +:+ op +:+ sr +:+ r) with ((sl +:+ op +:+ sr) +:+ r)
    by (by rewrite !app_assoc).
  apply take_app_length.
Qed.

End ComparisonFacts.

(** X13. [compareValues] fails exactly on an operator outside the six
    comparison operators, whatever the operands are: with one of the six it
    returns a boolean for every pair of values, and with any other operator
    it returns the unsupported-comparison error. *)
Theorem compareValues_total `{Strconv} (a b : value) (op : string) :
  ((exists r, compareValues a b op = OK r) <-> In op comparisons)
  /\ (~ In op comparisons ->
      compareValues a b op = Err (ErrUnsupportedComparison a b)).
Proof.
  split; [split|].
  - intros [r Hr]. destruct (decide (In op comparisons)) as [|Hn]; [done|].
    rewrite compareValues_unsupported in Hr by done. done.
  - apply compareValues_supported.
  - apply compareValues_unsupported.
Qed.

(** X14. [evalSimpleCond] and [evalCondition] never return an error: the
    invalid-comparison, unsupported-comparison and unknown-operator errors
    cannot arise, since the operator is always one that the pattern
    matched and every second part that [splitLogical] returns is [and] or
    [or].  An evaluation returns a boolean, or it panics. *)
Theorem evalCondition_no_error `{Strconv} (expr : string)
    (data : gmap string value) (e : Error) :
  evalSimpleCond expr data <> Err e /\ evalCondition expr data <> Err e.
Proof.
  split; [apply evalSimpleCond_no_error_lemma|apply evalCondition_no_error_lemma].
Qed.

(** X15. A comparison is split at its operator: for two operands that are
    words without an operator byte, one of the six operators between them
    and any blanks around the operator, [evalSimpleCond] resolves the left
    operand, then the right one, each by [lookup] and else as a literal,
    and compares them with that operator. *)
Theorem evalSimpleCond_comparison `{Strconv} (l sl op sr r : string)
    (data : gmap string value) :
  plainOperand l = true -> plainOperand r = true ->
  all Regexp.space sl = true -> all Regexp.space sr = true ->
  In op comparisons ->
  evalSimpleCond (l +:+ sl +:+ op +:+ sr +:+ r) data
  = (lv ← operand data l; rv ← operand data r; compareValues lv rv op).
Proof.
  intros Hl Hr Hsl Hsr Hop.
  pose proof (ComparisonFacts.find_compOpRe l sl op sr r Hl Hr Hsl Hsr Hop)
    as Hfind.
  destruct (ComparisonFacts.plainOperand_parts l Hl) as (_ & _ & Htl).
  destruct (ComparisonFacts.plainOperand_parts r Hr) as (_ & _ & Htr).
  unfold evalSimpleCond, Regexp.MatchString, Regexp.submatch, Regexp.Split2.
  rewrite Hfind. cbn [Regexp.m_caps Regexp.m_start Regexp.m_text Regexp.group
                      Nat.eqb].
  rewrite LitFacts.take_app.
  rewrite <- StringFacts.length_app.
  replace (l +:+ sl +:+ op +:+ sr +:+ r)
    with ((l +:+ sl +:+ op +:+ sr) +:+ r)
    by (by rewrite !StringFacts.app_assoc).
  rewrite LitFacts.drop_app_length.
  by rewrite Htl, Htr.
Qed.

Lemma evalSimpleCond_comparison_witness :
  evalSimpleCond (H := Example.exampleStrconv) "age  >=18" {[ "age" := VInt 20 ]}
  = OK true.
Proof.
  refine (eq_trans
            (evalSimpleCond_comparison (H := Example.exampleStrconv)
               "age" "  " ">=" "" "18" {[ "age" := VInt 20 ]} _ _ _ _ _) _).
  - vm_compute. reflexivity.
  - vm_compute. reflexivity.
  - vm_compute. reflexivity.
  - vm_compute. reflexivity.
  - unfold comparisons. simpl. tauto.
  - vm_compute. reflexivity.
Defined.

(** X16. An expression that ends with [and] or [or] makes [evalCondition]
    panic: behind any operand the keyword is read as an operator and the
    operand on its right is read past the end of the parts. *)
Theorem evalCondition_trailing_keyword `{Strconv} (a : list string)
    (kw : string) (data : gmap string value) :
  operandWords a -> kw = "and" \/ kw = "or" ->
  evalCondition (Fmt.join " " a +:+ " " +:+ kw) data = Panic.
Proof.
  intros Ha Hkw. pose proof Ha as [Hne Hw].
  pose proof (StringFacts.plainWord_isWord _ Hw) as Hw'.
  assert (Hkww : isWord kw = true) by (by destruct Hkw as [-> | ->]).
  assert (Hws : forallb isWord (a ++ [kw]) = true).
  { rewrite forallb_app, Hw'. simpl. by rewrite Hkww. }
  unfold evalCondition, splitLogical.
  rewrite <- StringFacts.join_snoc by done.
  rewrite StringFacts.TrimSpace_join by (done || by destruct a).
  rewrite StringFacts.Fields_join by done.
  rewrite ConditionFacts.splitLogicalLoop_operand by done.
  rewrite ConditionFacts.splitLogicalLoop_keyword by done.
  cbn [splitLogicalLoop String.eqb negb app].
  rewrite !StringFacts.TrimSpace_join by done.
  pose proof (evalSimpleCond_no_error_lemma (Fmt.join " " a) data) as Herr.
  destruct (evalSimpleCond (Fmt.join " " a) data) as [r|e|]; simpl;
    [done|by destruct (Herr e)|done].
Qed.

Lemma evalCondition_trailing_keyword_witness :
  evalCondition (H := Example.exampleStrconv)
                (Fmt.join " " ["a"; "=="; "1"] +:+ " " +:+ "and") ∅
  = Panic.
Proof.
  refine (evalCondition_trailing_keyword (H := Example.exampleStrconv)
            ["a"; "=="; "1"] "and" ∅ _ _).
  - split; [discriminate|vm_compute; reflexivity].
  - by left.
Defined.

(** X17. A condition that is one word naming nothing in the context is
    true: the word holds no white space (that of Unicode included), is no
    keyword, holds no comparison operator, is not quoted, and [lookup]
    returns without a value for it (it finds nothing, and does not panic),
    so it is read as a string literal, which is not empty. *)
Theorem evalCondition_missing_variable `{Strconv} (w : string)
    (data : gmap string value) :
  plainWord w = true ->
  Regexp.MatchString compOpRe w = false ->
  isQuoted w = false ->
  lookup data w = OK None ->
  evalCondition w data = OK true.
Proof.
  intros Hw Hop Hq Hl.
  assert (Ha : operandWords [w]) by (split; [done|by simpl; rewrite Hw]).
  rewrite (SingleFacts.evalCondition_operand [w] data Ha). simpl Fmt.join.
  assert (Hiw : isWord w = true).
  { unfold plainWord in Hw. by apply andb_prop in Hw as [[? _]%andb_prop _]. }
  assert (Ht : Strings.TrimSpace w = w)
    by (by apply StringFacts.isWord_TrimSpace).
  assert (Hne : String.eqb w "" = false).
  { unfold isWord in Hiw. apply andb_prop in Hiw as [Hn _].
    by apply negb_true_iff in Hn. }
  unfold evalSimpleCond, operand. rewrite Hop, Hl. cbn [mbind Result_bind].
  unfold lookup in Hl. rewrite Ht, Hne, Hq in Hl.
  unfold literalFromString. rewrite Ht, Hq.
  destruct (Strconv_.Atoi w); [done|].
  destruct (ParseFloat w); [done|].
  destruct (String.eqb w "true"); [done|].
  destruct (String.eqb w "false"); [done|].
  simpl. by rewrite Hne.
Qed.

Lemma evalCondition_missing_variable_witness :
  evalCondition (H := Example.exampleStrconv) "user.admin" ∅ = OK true.
Proof.
  refine (evalCondition_missing_variable (H := Example.exampleStrconv)
            "user.admin" ∅ _ _ _ _); vm_compute; reflexivity.
Defined.

(** X18. A condition of blanks only, or the empty one, is false and
    neither an error nor a panic. *)
Theorem evalCondition_blank `{Strconv} (expr : string)
    (data : gmap string value) :
  all Strings.isSpace expr = true -> evalCondition expr data = OK false.
Proof.
  intros Hs. unfold evalCondition, splitLogical, Strings.TrimSpace.
  by rewrite (StringFacts.TrimLeft_all_space expr Hs).
Qed.

Lemma evalCondition_blank_witness :
  evalCondition (H := Example.exampleStrconv) "  " {[ "x" := VInt 1 ]}
  = OK false.
Proof.
  refine (evalCondition_blank (H := Example.exampleStrconv) "  " _ _).
  reflexivity.
Defined.

(** X19. A path that reads as an integer is that integer, whatever the
    context holds: an entry of the context under such a key is never
    found. *)
Theorem lookup_integer_literal `{Strconv} (data : gmap string value)
    (path : string) (i : Z) :
  Strconv_.Atoi (Strings.TrimSpace path) = Some i ->
  lookup data path = OK (Some (VInt i)).
Proof.
  intros Hi.
  pose proof (IntegerFacts.lookup_integer _ _ Hi data) as Hl.
  unfold lookup in Hl |- *.
  by rewrite (IntegerFacts.integer_TrimSpace _ _ Hi) in Hl.
Qed.

Lemma lookup_integer_literal_witness :
  lookup (H := Example.exampleStrconv) {[ "7" := VStr "seven" ]} " 7 "
  = OK (Some (VInt 7)).
Proof.
  refine (lookup_integer_literal (H := Example.exampleStrconv) _ " 7 " 7 _).
  vm_compute. reflexivity.
Defined.

Module PathFacts.
Import Strings StringFacts.

Lemma genSplit_join_dot (segs : list string) :
  forall n : nat,
  segs <> [] ->
  Forall (fun s => Contains s "." = false) segs ->
  String.length (Fmt.join "." segs) <= n ->
  genSplit n (Fmt.join "." segs) "." = segs.
Proof.
  induction segs as [|x segs IH]; intros n Hne Hdots Hlen; [done|].
  apply Forall_cons_1 in Hdots as [Hx Hdots].
  apply cut_None_Contains in Hx.
  destruct segs as [|y segs].
  - simpl. destruct n; [done|]. simpl. by rewrite Hx.
  - change (Fmt.join "." (x :: y :: segs))
      with (x +:+ "." +:+ Fmt.join "." (y :: segs)) in *.
    change ("." +:+ Fmt.join "." (y :: segs))
      with (String "." (Fmt.join "." (y :: segs))) in *.
    rewrite length_app in Hlen. cbn [String.length] in Hlen.
    destruct n as [|n]; [lia|]. cbn [genSplit].
    rewrite (cut_single "." x _ Hx). f_equal.
    apply IH; [done|done|lia].
Qed.

End PathFacts.

(** X20. A dotted path is resolved segment by segment: for segments
    without a dot whose joined text is what [strings.TrimSpace] leaves and
    is no literal (not quoted, no number, neither [true] nor [false]),
    [lookup] follows the segments from the context through the nested maps
    and structs.  It returns the value it reaches, or nothing at the first
    segment that names nothing, and it panics at a segment that names a
    field of a struct that is not exported. *)
Theorem lookup_dotted `{Strconv} (data : gmap string value)
    (segs : list string) :
  let p := Fmt.join "." segs in
  segs <> [] ->
  Forall (fun s => Strings.Contains s "." = false) segs ->
  Strings.TrimSpace p = p -> p <> "" ->
  isQuoted p = false -> Strconv_.Atoi p = None -> ParseFloat p = None ->
  p <> "true" -> p <> "false" ->
  lookup data p = lookupPath (VMap data) segs.
Proof.
  intros p Hne Hdots Ht Hp Hq Ha Hf Htrue Hfalse.
  unfold lookup. rewrite Ht.
  apply String.eqb_neq in Hp, Htrue, Hfalse.
  rewrite Hp, Hq, Ha, Hf, Htrue, Hfalse.
  unfold Strings.Split. unfold p. by rewrite PathFacts.genSplit_join_dot.
Qed.

Lemma lookup_dotted_witness :
  let user := VStruct [("Name", true, VStr "Ann"); ("age", false, VInt 7)] in
  lookup (H := Example.exampleStrconv) {[ "user" := user ]} "user.Name"
  = OK (Some (VStr "Ann"))
  /\ lookup (H := Example.exampleStrconv) {[ "user" := user ]} "user.age"
     = Panic
  /\ lookup (H := Example.exampleStrconv) {[ "user" := user ]} "user.name"
     = OK None.
Proof.
  intros user. split_and!.
  - refine (eq_trans
              (lookup_dotted (H := Example.exampleStrconv)
                 {[ "user" := user ]} ["user"; "Name"] _ _ _ _ _ _ _ _ _) _);
      try done; try (vm_compute; reflexivity); repeat constructor.
  - refine (eq_trans
              (lookup_dotted (H := Example.exampleStrconv)
                 {[ "user" := user ]} ["user"; "age"] _ _ _ _ _ _ _ _ _) _);
      try done; try (vm_compute; reflexivity); repeat constructor.
  - refine (eq_trans
              (lookup_dotted (H := Example.exampleStrconv)
                 {[ "user" := user ]} ["user"; "name"] _ _ _ _ _ _ _ _ _) _);
      try done; try (vm_compute; reflexivity); repeat constructor.
Defined.

(** A path is trimmed of the white space of Unicode before it is read. *)
Lemma lookup_nbsp_example :
  lookup (H := Example.exampleStrconv) {[ "x" := VInt 1 ]}
         (Example.nbsp +:+ "x" +:+ Example.ideographicSpace)
  = OK (Some (VInt 1)).
Proof. vm_compute. reflexivity. Qed.


(** X21. [literalFromString] panics exactly on a text that, with the
    white space at its ends trimmed (that of Unicode included), is a single
    quote character, double or single, which [strconv.Unquote] rejects: the
    slice between the two quotes has its end in front of its start. *)
Theorem literalFromString_panic `{Strconv} (s : string) :
  literalFromString s = Panic
  <-> ((Strings.TrimSpace s = dquote \/ Strings.TrimSpace s = squote)
       /\ Unquote (Strings.TrimSpace s) = None).
Proof.
  unfold literalFromString, unwrap.
  set (p := Strings.TrimSpace s). split.
  - destruct (isQuoted p) eqn:Hq.
    + destruct (Unquote p) as [unq|]; [done|].
      destruct (String.length p <? 2) eqn:Hlen; [|done]. intros _.
      split; [|done]. apply Nat.ltb_lt in Hlen.
      destruct p as [|a [|b p']]; [done| |simpl in Hlen; lia].
      unfold isQuoted, dquote, squote in Hq. cbn [Strings.HasPrefix] in Hq.
      destruct (Ascii.eqb a "034") eqn:Hd.
      * apply Ascii.eqb_eq in Hd. subst a. by left.
      * destruct (Ascii.eqb a "039") eqn:Hs; [|done].
        apply Ascii.eqb_eq in Hs. subst a. by right.
    + repeat case_match; done.
  - intros [[-> | ->] ->]; reflexivity.
Qed.

(** A quote behind a no-break space is a lone quote once trimmed. *)
Lemma literalFromString_nbsp_example :
  literalFromString (H := Example.exampleStrconv) (Example.nbsp +:+ "'")
  = Panic.
Proof. vm_compute. reflexivity. Qed.


(** X22. A case whose expression is an integer literal other than zero
    matches every subject of the switch: when the subject differs from the
    literal, the expression is evaluated as a condition, where the literal
    is true. *)
Theorem evalConditionWithValue_integer_case `{Strconv} (c : string) (n : Z)
    (v : value) (data : mapref) (h : heap) :
  Strconv_.Atoi c = Some n -> n <> 0%Z ->
  (evalConditionWithValue c v data h).1 = OK true.
Proof.
  intros Hc Hn. unfold evalConditionWithValue.
  rewrite shallowCopyMap_eq.
  rewrite (IntegerFacts.integer_no_operator c n Hc).
  rewrite (IntegerFacts.integer_TrimSpace c n Hc).
  rewrite (IntegerFacts.literalFromString_integer c n Hc).
  assert (Hcond : forall d, evalCondition c d = OK true).
  { intros d.
    assert (Ha : operandWords [c]).
    { split; [done|]. simpl.
      by rewrite (IntegerFacts.integer_plainWord c n Hc). }
    rewrite (SingleFacts.evalCondition_operand [c] d Ha). simpl Fmt.join.
    rewrite (IntegerFacts.evalSimpleCond_integer c n Hc).
    by apply Z.eqb_neq in Hn as ->. }
  rewrite Hcond.
  destruct (compareValues v (VInt n) "==") as [[|]| |]; try done;
    by destruct (String.eqb _ _).
Qed.

Lemma evalConditionWithValue_integer_case_witness :
  (evalConditionWithValue (H := Example.exampleStrconv) "6" (VInt 5) None ∅).1
  = OK true.
Proof.
  refine (evalConditionWithValue_integer_case (H := Example.exampleStrconv)
            "6" 6 (VInt 5) None ∅ _ _).
  - reflexivity.
  - discriminate.
Defined.

(** X23. [shallowCopyMap] returns a new map with the entries of its
    argument: the copy lives at a location that was not allocated, it has
    the contents of the original, and a store to the copy changes the copy
    and leaves the original as it was. *)
Theorem shallowCopyMap_copy (h : heap) (m : mapref) (k : string) (v : value) :
  validRef h m ->
  let n := (shallowCopyMap h m).1 in
  let h' := (shallowCopyMap h m).2 in
  h !! n = None
  /\ contents h' (Some n) = contents h m
  /\ contents h' m = contents h m
  /\ contents (store h' n k v) (Some n) = <[k := v]> (contents h m)
  /\ contents (store h' n k v) m = contents h m.
Proof.
  intros Hm. rewrite shallowCopyMap_eq. cbn [fst snd].
  pose proof (fresh_not_allocated h) as Hf.
  assert (Hne : forall l, m = Some l -> l <> fresh (dom h)).
  { intros l -> ->. simpl in Hm. rewrite Hf in Hm. by destruct Hm. }
  split; [done|].
  assert (Hnew : forall c : gmap string value,
            contents (<[fresh (dom h) := c]> h) (Some (fresh (dom h))) = c).
  { intros c. unfold contents. by rewrite lookup_insert_eq. }
  assert (Hold : forall c : gmap string value,
            contents (<[fresh (dom h) := c]> h) m = contents h m).
  { intros c. destruct m as [l|]; [|done]. unfold contents.
    by rewrite lookup_insert_ne by (apply not_eq_sym, Hne; done). }
  unfold store. rewrite !insert_insert_eq.
  rewrite !Hnew, !Hold.
  replace (default ∅ (<[fresh (dom h) := contents h m]> h !! fresh (dom h)))
    with (contents h m) by (by rewrite lookup_insert_eq).
  done.
Qed.

Lemma shallowCopyMap_copy_witness :
  let h : heap := {[ 1%positive := {[ "x" := VInt 5 ]} ]} in
  let h' := (shallowCopyMap h (Some 1%positive)).2 in
  let n := (shallowCopyMap h (Some 1%positive)).1 in
  contents (store h' n "x" (VInt 6)) (Some 1%positive) = {[ "x" := VInt 5 ]}.
Proof.
  intros h h' n.
  refine (eq_trans
            (proj2 (proj2 (proj2 (proj2
               (shallowCopyMap_copy h (Some 1%positive) "x" (VInt 6) _)))))
            _).
  - simpl. unfold h. rewrite lookup_singleton_eq. eauto.
  - unfold contents, h. by rewrite lookup_singleton_eq.
Defined.

(** ** The cache *)

Lemma compileFile_result (fs : FileSystem) (path : string) (mod_ : Z)
    (w : World) :
  match (compileFile fs path mod_ w).1 with
  | OK tpl =>
      tpl = mkTemplate path (Nodes tpl) mod_
      /\ tplCache (compileFile fs path mod_ w).2 = <[path := tpl]> (tplCache w)
  | _ => tplCache (compileFile fs path mod_ w).2 = tplCache w
  end.
Proof.
  unfold compileFile. destruct (ReadFile fs path) as [content|]; [|done].
  by destruct (compileTokens (tokenize content)).
Qed.

(** X24. A call of [getOrCompile] that returns no template leaves the
    cache as it was, whether the stat, the read or the compilation
    failed: an entry that was cached before is still there. *)
Theorem getOrCompile_failure_keeps_cache (fs : FileSystem) (path : string)
    (w : World) :
  (forall tpl, (getOrCompile fs path w).1 <> OK tpl) ->
  tplCache (getOrCompile fs path w).2 = tplCache w.
Proof.
  unfold getOrCompile. intros Hfail.
  destruct (Stat fs path) as [mod_|]; [|done].
  cbn [tplCache logEvent] in *.
  set (w1 := logEvent (EvStat path) w) in *.
  pose proof (compileFile_result fs path mod_ w1) as Hc.
  destruct (tplCache w !! path) as [tpl|].
  - destruct (ModTime tpl =? mod_)%Z; [by destruct (Hfail tpl)|].
    destruct (compileFile fs path mod_ w1) as [[tpl'| |] w2];
      [by destruct (Hfail tpl')|exact Hc|exact Hc].
  - destruct (compileFile fs path mod_ w1) as [[tpl'| |] w2];
      [by destruct (Hfail tpl')|exact Hc|exact Hc].
Qed.

Lemma getOrCompile_failure_keeps_cache_witness :
  let cached := mkTemplate "/t.html" [TextNode "old"] 1 in
  let w := mkWorld {[ "/t.html" := cached ]} [] in
  tplCache (getOrCompile (Example.oneFile "/t.html" 2 "<{if a}>x")
                         "/t.html" w).2
  = {[ "/t.html" := cached ]}.
Proof.
  intros cached w.
  refine (getOrCompile_failure_keeps_cache
            (Example.oneFile "/t.html" 2 "<{if a}>x") "/t.html" w _).
  intros tpl. vm_compute. discriminate.
Defined.

Lemma getOrCompile_cached (fs : FileSystem) (path : string) (w : World)
    (tpl : Template) :
  (getOrCompile fs path w).1 = OK tpl ->
  let w' := (getOrCompile fs path w).2 in
  tplCache w' !! path = Some tpl
  /\ Stat fs path = Some (ModTime tpl)
  /\ (forall p, p <> path -> tplCache w' !! p = tplCache w !! p).
Proof.
  unfold getOrCompile.
  destruct (Stat fs path) as [mod_|]; [|done].
  cbn [tplCache logEvent].
  set (w1 := logEvent (EvStat path) w).
  pose proof (compileFile_result fs path mod_ w1) as Hc.
  assert (Hmiss : (compileFile fs path mod_ w1).1 = OK tpl ->
            tplCache (compileFile fs path mod_ w1).2 !! path = Some tpl
            /\ Some mod_ = Some (ModTime tpl)
            /\ (forall p, p <> path ->
                  tplCache (compileFile fs path mod_ w1).2 !! p
                  = tplCache w !! p)).
  { intros Hok. rewrite Hok in Hc. destruct Hc as [Htpl ->].
    split; [apply lookup_insert_eq|]. split; [by rewrite Htpl|].
    intros p Hp. by rewrite lookup_insert_ne. }
  destruct (tplCache w !! path) as [tpl0|] eqn:Hcache; [|exact Hmiss].
  destruct (ModTime tpl0 =? mod_)%Z eqn:Hmod; [|exact Hmiss].
  cbn [fst snd tplCache logEvent]. intros [= <-].
  apply Z.eqb_eq in Hmod. by rewrite Hmod.
Qed.

(** X25. A call of [getOrCompile] that returns a template leaves that
    template in the cache under the path, with the modification time that
    the stat reported, and changes no entry of another path. *)
Theorem getOrCompile_success (fs : FileSystem) (path : string) (w : World)
    (tpl : Template) :
  (getOrCompile fs path w).1 = OK tpl ->
  let w' := (getOrCompile fs path w).2 in
  tplCache w' !! path = Some tpl
  /\ Stat fs path = Some (ModTime tpl)
  /\ (forall p, p <> path -> tplCache w' !! p = tplCache w !! p).
Proof. exact (getOrCompile_cached fs path w tpl). Qed.

Lemma getOrCompile_success_witness :
  let fs := Example.oneFile "/t.html" 5 "<{x}>" in
  tplCache (getOrCompile fs "/t.html" Example.emptyWorld).2 !! "/t.html"
  = Some (mkTemplate "/t.html" [VarNode "x" "" []] 5).
Proof.
  intros fs.
  refine (proj1 (getOrCompile_success fs "/t.html" Example.emptyWorld
                   (mkTemplate "/t.html" [VarNode "x" "" []] 5) _)).
  vm_compute. reflexivity.
Defined.

(** X26. Calling [getOrCompile] again, with the file system unchanged,
    returns the same template from the cache: the second call stats the
    file, reads nothing and leaves the cache as the first call left it. *)
Theorem getOrCompile_twice (fs : FileSystem) (path : string) (w w' : World)
    (tpl : Template) :
  getOrCompile fs path w = (OK tpl, w') ->
  getOrCompile fs path w'
  = (OK tpl, mkWorld (tplCache w') (trace w' ++ [EvStat path])).
Proof.
  intros Hfirst.
  destruct (getOrCompile_cached fs path w tpl) as (Hcache & Hstat & _);
    [by rewrite Hfirst|].
  rewrite Hfirst in Hcache. cbn [snd] in Hcache.
  by apply (getOrCompile_hit fs path w' (ModTime tpl) tpl).
Qed.

Lemma getOrCompile_twice_witness :
  let fs := Example.oneFile "/t.html" 5 "<{x}>" in
  let tpl := mkTemplate "/t.html" [VarNode "x" "" []] 5 in
  let w' := mkWorld {[ "/t.html" := tpl ]}
                    [EvStat "/t.html"; EvReadFile "/t.html"] in
  getOrCompile fs "/t.html" w'
  = (OK tpl, mkWorld (tplCache w')
                     [EvStat "/t.html"; EvReadFile "/t.html"; EvStat "/t.html"]).
Proof.
  intros fs tpl w'.
  refine (getOrCompile_twice fs "/t.html" Example.emptyWorld w' tpl _).
  vm_compute. reflexivity.
Defined.

(** ** Variable tags *)

Module VariableFacts.
Import Strings StringFacts.
Import Regexp RegexpFacts LitFacts.

Lemma matches_Seq_head (r1 r2 : re) (st : state) (c : caps)
    (x y : state * caps) (tl tl' : list (state * caps)) :
  matches r1 st c = x :: tl -> matches r2 x.1 x.2 = y :: tl' ->
  exists tl'', matches (Seq r1 r2) st c = y :: tl''.
Proof.
  intros H1 H2. rewrite matches_Seq, H1. cbn [flat_map]. rewrite H2.
  rewrite <- app_comm_cons. eauto.
Qed.

Lemma identifier_cons (s : string) :
  identifier s = true ->
  exists a s', s = String a s' /\ word a = true /\ all word s' = true.
Proof.
  unfold identifier. destruct s as [|a s']; [done|]. simpl.
  intros [Ha Hs]%andb_prop. eauto.
Qed.

Lemma dotsOf_stops (segs : list string) (u : string) :
  stops (fun a => word a || Ascii.eqb a ".") u = true ->
  stops word (dotsOf segs +:+ u) = true.
Proof.
  intros Hu. destruct segs; [|done]. cbn [dotsOf fold_right].
  rewrite app_nil_l. destruct u as [|a u]; [done|]. simpl in *.
  by destruct (word a).
Qed.

Lemma matches_dotWord_none (u : string) (q : nat) (c : caps) :
  stops (fun a => word a || Ascii.eqb a ".") u = true ->
  matches dotWord (State q u) c = [].
Proof.
  intros Hu. unfold dotWord, cat. cbn [fold_right]. rewrite matches_Seq.
  destruct u as [|a u]; [done|]. rewrite matches_lit_cons.
  simpl in Hu. rewrite Ascii.eqb_sym.
  destruct (Ascii.eqb a "."); [|done]. by rewrite orb_true_r in Hu.
Qed.

Lemma join_dotsOf (s0 : string) (segs : list string) :
  Fmt.join "." (s0 :: segs) = s0 +:+ dotsOf segs.
Proof.
  revert s0. induction segs as [|s segs IH]; intros s0.
  - simpl. by rewrite app_nil_r.
  - change (Fmt.join "." (s0 :: s :: segs))
      with (s0 +:+ "." +:+ Fmt.join "." (s :: segs)).
    rewrite IH. reflexivity.
Qed.

(** A word and what follows it, when that starts with no word byte: the
    greedy run over the word comes first. *)
Lemma matches_w_plus_head (s t : string) (q : nat) (c : caps) :
  identifier s = true -> stops word t = true ->
  exists tl,
    matches w_plus (State q (s +:+ t)) c
    = (State (q + String.length s) t, c) :: tl.
Proof.
  intros Hs Ht. apply identifier_cons in Hs as (a & s' & -> & Ha & Hs').
  unfold w_plus. rewrite app_cons, matches_plus_chr by done.
  destruct (greedyRun_app word s' t (S q) Hs') as [shorter ->].
  rewrite (greedyRun_stops word t) by done.
  cbn [app map String.length]. rewrite Nat.add_succ_r. eauto.
Qed.

Lemma matches_dotWord_head (s t : string) (q : nat) (c : caps) :
  identifier s = true -> stops word t = true ->
  exists tl,
    matches dotWord (State q ("." +:+ s +:+ t)) c
    = (State (q + 1 + String.length s) t, c) :: tl.
Proof.
  intros Hs Ht. unfold dotWord, cat. cbn [fold_right].
  destruct (matches_w_plus_head s t (q + 1) c Hs Ht) as [tl Hw].
  destruct (matches_Seq_head w_plus Eps (State (q + 1) (s +:+ t)) c
              _ (State (q + 1 + String.length s) t, c) _ [] Hw eq_refl)
    as [tl' Hwe].
  eapply matches_Seq_head; [apply matches_lit_app|exact Hwe].
Qed.

Lemma starLoop_dots (segs : list string) (u : string) :
  forall (n q : nat) (c : caps),
  Forall (fun s => identifier s = true) segs ->
  stops (fun a => word a || Ascii.eqb a ".") u = true ->
  String.length (dotsOf segs +:+ u) < n ->
  exists tl,
    starLoop (matches dotWord) true n (State q (dotsOf segs +:+ u)) c
    = (State (q + String.length (dotsOf segs)) u, c) :: tl.
Proof.
  induction segs as [|s segs IH]; intros n q c Hsegs Hu Hn.
  - destruct n as [|n]; [lia|]. cbn [dotsOf fold_right] in *.
    rewrite app_nil_l in *. cbn [starLoop].
    rewrite matches_dotWord_none by done.
    exists []. cbn. by rewrite Nat.add_0_r.
  - apply Forall_cons_1 in Hsegs as [Hs Hsegs].
    cbn [dotsOf fold_right] in *. fold (dotsOf segs) in *.
    rewrite !app_assoc in *.
    destruct n as [|n]; [lia|]. cbn [starLoop].
    destruct (matches_dotWord_head s (dotsOf segs +:+ u) q c Hs
                (dotsOf_stops segs u Hu)) as [tl1 ->].
    cbn [flat_map fst snd rest].
    rewrite !length_app in Hn |- *. cbn [String.length] in Hn |- *.
    destruct (IH n (q + 1 + String.length s) c Hsegs Hu
                ltac:(rewrite length_app; lia)) as [tl2 ->].
    assert (Hlt : (String.length (dotsOf segs) + String.length u
                   <? 1 + (String.length s
                           + (String.length (dotsOf segs) + String.length u)))
                  = true) by (apply Nat.ltb_lt; lia).
    rewrite !length_app. cbn [String.length]. rewrite Hlt. rewrite <- !app_comm_cons.
    eexists. f_equal. f_equal. f_equal. lia.
Qed.

(** The first way to match the group of [varPattern] on a dotted path
    that is followed by no word byte and no dot: all of the path. *)
Lemma matches_path_head (s0 : string) (segs : list string) (u : string)
    (c : caps) :
  identifier s0 = true -> Forall (fun s => identifier s = true) segs ->
  stops (fun a => word a || Ascii.eqb a ".") u = true ->
  exists tl,
    matches (Group 1 (cat [w_plus; Star true dotWord]))
            (State 0 (Fmt.join "." (s0 :: segs) +:+ u)) c
    = (State (String.length (Fmt.join "." (s0 :: segs))) u,
       (1, Fmt.join "." (s0 :: segs)) :: c) :: tl.
Proof.
  intros Hs0 Hsegs Hu. rewrite join_dotsOf, matches_Group.
  unfold cat. cbn [fold_right]. rewrite app_assoc.
  destruct (matches_w_plus_head s0 (dotsOf segs +:+ u) 0 c Hs0
              (dotsOf_stops segs u Hu)) as [tl1 Hw].
  destruct (starLoop_dots segs u (S (String.length (dotsOf segs +:+ u)))
              (0 + String.length s0) c Hsegs Hu ltac:(lia)) as [tl2 Hstar].
  assert (Hse : exists tl,
            matches (Seq (Star true dotWord) Eps)
                    (State (0 + String.length s0) (dotsOf segs +:+ u)) c
            = (State (0 + String.length s0 + String.length (dotsOf segs)) u, c)
                :: tl).
  { eapply matches_Seq_head; [exact Hstar|reflexivity]. }
  destruct Hse as [tl3 Hse].
  destruct (matches_Seq_head _ _ _ _ _ _ _ _ Hw Hse) as [tl4 ->].
  cbn [map fst snd]. eexists. f_equal. f_equal.
  - f_equal. rewrite length_app. lia.
  - f_equal. f_equal. unfold consumed. cbn [rest].
    rewrite <- app_assoc. apply take_app_length.
Qed.

Lemma find_varPattern (s0 : string) (segs : list string) :
  identifier s0 = true -> Forall (fun s => identifier s = true) segs ->
  let name := Fmt.join "." (s0 :: segs) in
  find varPattern name = Some (Found 0 name [(1, name)]).
Proof.
  intros Hs0 Hsegs name. unfold varPattern.
  change (cat [Bos; s_star;
               Group 1 (cat [w_plus; Star true (cat [lit "."; w_plus])]);
               opt (cat [s_star; lit "|"; s_star; lit dquote;
                         Group 2 (Star false (Chr any)); lit dquote]);
               s_star; Eos])
    with (Seq Bos (Seq s_star
            (Seq (Group 1 (cat [w_plus; Star true dotWord]))
               (cat [opt (cat [s_star; lit "|"; s_star; lit dquote;
                               Group 2 (Star false (Chr any)); lit dquote]);
                     s_star; Eos])))).
  rewrite find_Bos.
  destruct (matches_path_head s0 segs "" [] Hs0 Hsegs eq_refl) as [tl1 Hg].
  rewrite app_nil_r in Hg. fold name in Hg.
  assert (Hs : matches s_star (State 0 name) [] = [(State 0 name, [])]).
  { unfold s_star. rewrite matches_star_chr, greedyRun_stops; [done|].
    unfold name. apply identifier_cons in Hs0 as (a & s' & -> & Ha & _).
    rewrite join_dotsOf, app_cons. simpl.
    by destruct a as [[] [] [] [] [] [] [] []]. }
  assert (Htail : forall q c,
            matches (cat [opt (cat [s_star; lit "|"; s_star; lit dquote;
                                    Group 2 (Star false (Chr any));
                                    lit dquote]);
                          s_star; Eos]) (State q "") c
            = [(State q "", c)]).
  { intros q c. reflexivity. }
  destruct (matches_Seq_head _ _ _ _ _ _ _ _ Hg (Htail _ _)) as [tl2 Hgt].
  destruct (matches_Seq_head s_star _ _ _ (State 0 name, []) _ _ _ Hs Hgt)
    as [tl3 ->].
  do 2 f_equal. unfold consumed. cbn [rest String.length].
  rewrite Nat.sub_0_r. apply take_length.
Qed.

(** A text without a blank matches no pattern that wants blanks behind its
    keyword. *)
Lemma blankPattern_none (kw s : string) (r : re) :
  all nonSpace s = true -> MatchString (blankPattern kw r) s = false.
Proof.
  intros Hs. unfold MatchString, blankPattern. rewrite find_Bos.
  rewrite matches_Seq.
  destruct (matches_lit_cases kw (State 0 s) []) as [-> | (t & Hr & ->)];
    [done|].
  cbn [flat_map fst snd]. rewrite List.app_nil_r, matches_Seq.
  unfold s_plus. rewrite matches_plus_stops; [done|].
  simpl in Hr. rewrite Hr, all_app in Hs.
  apply andb_prop in Hs as [_ Ht]. by apply all_not_stops.
Qed.

Lemma exactPattern_none (kw s : string) :
  s <> kw -> MatchString (exactPattern kw) s = false.
Proof.
  intros Hs. unfold MatchString, exactPattern, cat. cbn [fold_right].
  rewrite find_Bos, matches_Seq.
  destruct (matches_lit_cases kw (State 0 s) []) as [-> | (t & Hr & ->)];
    [done|].
  cbn [flat_map fst snd matches rest]. simpl in Hr.
  destruct t; [|done]. rewrite app_nil_r in Hr. done.
Qed.

Lemma word_nonSpace (a : ascii) :
  word a = true \/ a = "."%char -> nonSpace a = true.
Proof.
  intros [Ha | ->]; [|done]. by destruct a as [[] [] [] [] [] [] [] []].
Qed.

Lemma path_bytes (s0 : string) (segs : list string) :
  identifier s0 = true -> Forall (fun s => identifier s = true) segs ->
  all (fun a => word a || Ascii.eqb a ".") (Fmt.join "." (s0 :: segs)) = true.
Proof.
  intros Hs0 Hsegs. rewrite join_dotsOf, all_app.
  assert (Hid : forall s, identifier s = true ->
                  all (fun a => word a || Ascii.eqb a ".") s = true).
  { intros s [_ Hs]%andb_prop. eapply all_impl; [|exact Hs].
    intros a ->. done. }
  rewrite (Hid s0 Hs0). simpl.
  induction Hsegs as [|s segs Hs _ IH]; [done|].
  cbn [dotsOf fold_right]. fold (dotsOf segs).
  change ("." +:+ s +:+ dotsOf segs) with (String "." (s +:+ dotsOf segs)).
  cbn [all]. rewrite all_app, (Hid s Hs), IH. done.
Qed.

End VariableFacts.

(** X27. A dotted path of words is a variable tag: for one segment or
    more, each of word bytes, the token of the path has the type of a
    variable, the path as its name and no default, unless the path is
    [else] or [default].  So a closing or keyword tag that is misspelt as
    one word is a variable. *)
Theorem tagToken_variable (s0 : string) (segs : list string) :
  identifier s0 = true -> Forall (fun s => identifier s = true) segs ->
  let name := Fmt.join "." (s0 :: segs) in
  name <> "else" -> name <> "default" ->
  tagToken name = mkToken TVar name "" name.
Proof.
  intros Hs0 Hsegs name Helse Hdefault.
  pose proof (VariableFacts.path_bytes s0 segs Hs0 Hsegs) as Hbytes.
  fold name in Hbytes.
  assert (Hns : all nonSpace name = true).
  { eapply StringFacts.all_impl; [|exact Hbytes].
    intros a Ha. apply VariableFacts.word_nonSpace.
    apply orb_prop in Ha as [Ha|Ha]; [by left|right].
    by apply Ascii.eqb_eq in Ha. }
  assert (Hslash : forall kw,
            all (fun a => Regexp.word a || Ascii.eqb a ".") kw = false ->
            name <> kw).
  { intros kw Hkw ->. congruence. }
  pose proof (VariableFacts.find_varPattern s0 segs Hs0 Hsegs) as Hfind.
  fold name in Hfind.
  unfold tagToken.
  change ifPattern with (blankPattern "if" (cat [Group 1 dot_plus; Eos])).
  change elseifPattern
    with (blankPattern "elseif" (cat [Group 1 dot_plus; Eos])).
  change forPattern
    with (blankPattern "for" (cat [Group 1 dot_plus; s_plus; Regexp.lit "in";
                                   s_plus; Group 2 dot_plus; Eos])).
  change switchPattern
    with (blankPattern "switch" (cat [Group 1 dot_plus; Eos])).
  change casePattern with (blankPattern "case" (cat [Group 1 dot_plus; Eos])).
  change elsePattern with (exactPattern "else").
  change endifPattern with (exactPattern "/if").
  change endforPattern with (exactPattern "/for").
  change defaultPattern with (exactPattern "default").
  change endswitchPattern with (exactPattern "/switch").
  rewrite !VariableFacts.blankPattern_none by done.
  rewrite !VariableFacts.exactPattern_none by (done || by apply Hslash).
  unfold Regexp.MatchString, Regexp.submatch. rewrite Hfind. reflexivity.
Qed.

Lemma tagToken_variable_witness :
  tagToken "user.name" = mkToken TVar "user.name" "" "user.name".
Proof.
  refine (tagToken_variable "user" ["name"] _ _ _ _).
  - reflexivity.
  - repeat constructor.
  - discriminate.
  - discriminate.
Defined.

Module DefaultFacts.
Import Strings StringFacts.
Import Regexp RegexpFacts LitFacts VariableFacts.

Lemma starLoop_chr_lazy (p : ascii -> bool) (s : string) (n q : nat)
    (c : caps) :
  String.length s < n ->
  starLoop (matches (Chr p)) false n (State q s) c
  = map (fun st => (st, c)) (lazyRun p q s).
Proof.
  revert n q. induction s as [|a s IH]; intros n q Hn.
  - destruct n; [simpl in Hn; lia|]. reflexivity.
  - destruct n as [|n]; [lia|]. simpl in Hn.
    cbn [starLoop matches lazyRun rest pos].
    destruct (p a); [|reflexivity].
    cbn [flat_map fst snd rest String.length].
    replace (String.length s <? S (String.length s)) with true
      by (symmetry; apply Nat.ltb_lt; lia).
    rewrite IH by lia. by rewrite List.app_nil_r.
Qed.

Lemma matches_star_lazy (p : ascii -> bool) (s : string) (q : nat)
    (c : caps) :
  matches (Star false (Chr p)) (State q s) c
  = map (fun st => (st, c)) (lazyRun p q s).
Proof. cbn [matches rest]. apply starLoop_chr_lazy. lia. Qed.

(** The first lazy run that is followed by the closing quote is the run
    over all of the default text. *)
Lemma lazy_first (d : string) :
  forall (q : nat) (g : state -> caps),
  all defaultByte d = true ->
  exists tl,
    flat_map (fun st => matches (Seq (lit dquote) Eps) st (g st))
             (lazyRun any q (d +:+ dquote))
    = (State (q + String.length d + 1) "",
       g (State (q + String.length d) dquote)) :: tl.
Proof.
  induction d as [|a d IH]; intros q g Hd.
  - rewrite app_nil_l. eexists. cbn. rewrite !Nat.add_0_r.
    replace (S q) with (q + 1) by lia. reflexivity.
  - simpl in Hd. apply andb_prop in Hd as [Ha Hd].
    unfold defaultByte in Ha. apply andb_prop in Ha as [Hany Hq].
    apply negb_true_iff in Hq.
    rewrite app_cons. cbn [lazyRun]. rewrite Hany. cbn [flat_map].
    rewrite matches_Seq. unfold dquote at 1. rewrite matches_lit_cons.
    rewrite Ascii.eqb_sym, Hq. cbn [flat_map app].
    destruct (IH (S q) g Hd) as [tl ->].
    eexists. cbn [String.length]. f_equal. f_equal; [f_equal; lia|].
    f_equal. f_equal. lia.
Qed.

Lemma matches_default_text (d : string) (q : nat) (c : caps) :
  all defaultByte d = true ->
  exists tl,
    matches (Seq (Group 2 (Star false (Chr any))) (Seq (lit dquote) Eps))
            (State q (d +:+ dquote)) c
    = (State (q + String.length d + 1) "", (2, d) :: c) :: tl.
Proof.
  intros Hd. rewrite matches_Seq, matches_Group, matches_star_lazy.
  rewrite map_map, flat_map_map'. cbn [fst snd].
  destruct (lazy_first d q
              (fun st => (2, consumed (State q (d +:+ dquote)) st) :: c) Hd)
    as [tl ->].
  eexists. f_equal. f_equal. f_equal. f_equal.
  unfold consumed. cbn [rest]. apply take_app_length.
Qed.

Lemma matches_s_star_head (sp t : string) (q : nat) (c : caps) :
  all space sp = true -> stops space t = true ->
  exists tl,
    matches s_star (State q (sp +:+ t)) c
    = (State (q + String.length sp) t, c) :: tl.
Proof.
  intros Hsp Ht. unfold s_star. rewrite matches_star_chr.
  destruct (greedyRun_app space sp t q Hsp) as [shorter ->].
  rewrite (greedyRun_stops space t) by done. cbn [app map]. eauto.
Qed.

(** The first way to match [defaultPart]: up to the last quote, with the
    default text as group 2. *)
Lemma matches_defaultPart (sp1 sp2 d : string) (q : nat) (c : caps) :
  all space sp1 = true -> all space sp2 = true ->
  all defaultByte d = true ->
  exists tl,
    matches defaultPart
            (State q (sp1 +:+ "|" +:+ sp2 +:+ dquote +:+ d +:+ dquote)) c
    = (State (q + String.length sp1 + 1 + String.length sp2 + 1
              + String.length d + 1) "", (2, d) :: c) :: tl.
Proof.
  intros Hsp1 Hsp2 Hd. unfold defaultPart, cat. cbn [fold_right].
  destruct (matches_default_text d
              (q + String.length sp1 + 1 + String.length sp2 + 1) c Hd)
    as [tl1 H5].
  pose proof (matches_lit_app dquote (d +:+ dquote)
                (q + String.length sp1 + 1 + String.length sp2) c) as H4.
  destruct (matches_Seq_head _ _ _ _ _ _ _ _ H4 H5) as [tl2 H45].
  destruct (matches_s_star_head sp2 (dquote +:+ d +:+ dquote)
              (q + String.length sp1 + 1) c Hsp2 eq_refl) as [tl3 H3].
  destruct (matches_Seq_head _ _ _ _ _ _ _ _ H3 H45) as [tl4 H345].
  pose proof (matches_lit_app "|" (sp2 +:+ dquote +:+ d +:+ dquote)
                (q + String.length sp1) c) as H2.
  destruct (matches_Seq_head _ _ _ _ _ _ _ _ H2 H345) as [tl5 H2345].
  destruct (matches_s_star_head sp1 ("|" +:+ sp2 +:+ dquote +:+ d +:+ dquote)
              q c Hsp1 eq_refl) as [tl6 H1].
  exact (matches_Seq_head _ _ _ _ _ _ _ _ H1 H2345).
Qed.

Lemma find_varPattern_default (s0 : string) (segs : list string)
    (sp1 sp2 d : string) :
  identifier s0 = true -> Forall (fun s => identifier s = true) segs ->
  all space sp1 = true -> all space sp2 = true ->
  all defaultByte d = true ->
  let name := Fmt.join "." (s0 :: segs) in
  let tag := name +:+ sp1 +:+ "|" +:+ sp2 +:+ dquote +:+ d +:+ dquote in
  find varPattern tag = Some (Found 0 tag [(2, d); (1, name)]).
Proof.
  intros Hs0 Hsegs Hsp1 Hsp2 Hd name tag. unfold varPattern.
  change (cat [Bos; s_star;
               Group 1 (cat [w_plus; Star true (cat [lit "."; w_plus])]);
               opt (cat [s_star; lit "|"; s_star; lit dquote;
                         Group 2 (Star false (Chr any)); lit dquote]);
               s_star; Eos])
    with (Seq Bos (Seq s_star
            (Seq (Group 1 (cat [w_plus; Star true dotWord]))
               (Seq (Alt defaultPart Eps) (Seq s_star (Seq Eos Eps)))))).
  rewrite find_Bos.
  set (u := sp1 +:+ "|" +:+ sp2 +:+ dquote +:+ d +:+ dquote).
  assert (Hu : stops (fun a => word a || Ascii.eqb a ".") u = true).
  { unfold u. destruct sp1 as [|a sp1]; [done|]. simpl in Hsp1.
    apply andb_prop in Hsp1 as [Ha _]. rewrite app_cons. simpl.
    by destruct a as [[] [] [] [] [] [] [] []]. }
  destruct (matches_path_head s0 segs u [] Hs0 Hsegs Hu) as [tl1 Hg].
  fold name in Hg. fold tag in Hg.
  destruct (matches_defaultPart sp1 sp2 d (String.length name) [(1, name)]
              Hsp1 Hsp2 Hd) as [tl2 Hx].
  fold u in Hx.
  assert (Hopt : exists tl,
            matches (Seq (Alt defaultPart Eps) (Seq s_star (Seq Eos Eps)))
                    (State (String.length name) u) [(1, name)]
            = (State (String.length name + String.length sp1 + 1
                      + String.length sp2 + 1 + String.length d + 1) "",
               [(2, d); (1, name)]) :: tl).
  { assert (Ha : matches (Alt defaultPart Eps)
                          (State (String.length name) u) [(1, name)]
                  = (State (String.length name + String.length sp1 + 1
                            + String.length sp2 + 1 + String.length d + 1) "",
                     [(2, d); (1, name)])
                      :: (tl2 ++ [(State (String.length name) u,
                                   [(1, name)])])).
    { rewrite matches_Alt, Hx. reflexivity. }
    assert (Hr : forall q c,
              matches (Seq s_star (Seq Eos Eps)) (State q "") c
              = [(State q "", c)]) by reflexivity.
    exact (matches_Seq_head _ _ _ _ _ _ _ _ Ha (Hr _ _)). }
  destruct Hopt as [tl3 Hopt].
  destruct (matches_Seq_head _ _ _ _ _ _ _ _ Hg Hopt) as [tl4 Hgo].
  assert (Hs : matches s_star (State 0 tag) [] = [(State 0 tag, [])]).
  { unfold s_star. rewrite matches_star_chr, greedyRun_stops; [done|].
    unfold tag, name. apply identifier_cons in Hs0 as (a & s' & -> & Ha & _).
    rewrite join_dotsOf, !app_cons. simpl.
    by destruct a as [[] [] [] [] [] [] [] []]. }
  destruct (matches_Seq_head s_star _ _ _ (State 0 tag, []) _ _ _ Hs Hgo)
    as [tl5 ->].
  do 2 f_equal. unfold consumed. cbn [rest String.length].
  rewrite Nat.sub_0_r. apply take_length.
Qed.

(** A keyword in front of blanks matches no tag that starts with another
    path. *)
Lemma keyword_none (kw : string) (r : re) (u : string) :
  forall (name : string) (q : nat) (c : caps),
  all word kw = true ->
  all (fun a => word a || Ascii.eqb a ".") name = true ->
  name <> kw ->
  stops (fun a => word a || Ascii.eqb a ".") u = true ->
  matches (Seq (lit kw) (Seq s_plus r)) (State q (name +:+ u)) c = [].
Proof.
  induction kw as [|k kw IH]; intros name q c Hkw Hname Hne Hu.
  - cbn [lit]. rewrite matches_Seq.
    change (matches Eps (State q (name +:+ u)) c)
      with [(State q (name +:+ u), c)].
    cbn [flat_map fst snd].
    rewrite List.app_nil_r, matches_Seq. unfold s_plus.
    rewrite matches_plus_stops; [done|].
    destruct name as [|a name]; [done|]. rewrite app_cons. simpl in *.
    apply andb_prop in Hname as [Ha _].
    by destruct a as [[] [] [] [] [] [] [] []].
  - simpl in Hkw. apply andb_prop in Hkw as [Hk Hkw].
    rewrite matches_Seq.
    destruct name as [|a name].
    + rewrite app_nil_l. destruct u as [|b u]; [done|].
      rewrite matches_lit_cons. simpl in Hu.
      destruct (Ascii.eqb k b) eqn:Hkb; [|done].
      apply Ascii.eqb_eq in Hkb. subst b. by rewrite Hk in Hu.
    + rewrite app_cons, matches_lit_cons.
      destruct (Ascii.eqb k a) eqn:Hka; [|done].
      apply Ascii.eqb_eq in Hka. subst a.
      simpl in Hname. apply andb_prop in Hname as [_ Hname].
      rewrite <- matches_Seq. apply IH; try done.
      intros ->. done.
Qed.

End DefaultFacts.

(** X28. A variable tag with a default: for a dotted path of words that is
    none of [if], [elseif], [for], [switch] and [case], then blanks, a bar,
    blanks and a text between double quotes that holds no double quote and
    no line feed, the token is a variable with the path as its name and
    the text between the quotes as its default. *)
Theorem tagToken_variable_default (s0 : string) (segs : list string)
    (sp1 sp2 d : string) :
  identifier s0 = true -> Forall (fun s => identifier s = true) segs ->
  all Regexp.space sp1 = true -> all Regexp.space sp2 = true ->
  all defaultByte d = true ->
  let name := Fmt.join "." (s0 :: segs) in
  let tag := name +:+ sp1 +:+ "|" +:+ sp2 +:+ dquote +:+ d +:+ dquote in
  ~ In name blankKeywords ->
  tagToken tag = mkToken TVar name d tag.
Proof.
  intros Hs0 Hsegs Hsp1 Hsp2 Hd name tag Hkw.
  pose proof (VariableFacts.path_bytes s0 segs Hs0 Hsegs) as Hbytes.
  fold name in Hbytes.
  set (u := sp1 +:+ "|" +:+ sp2 +:+ dquote +:+ d +:+ dquote).
  assert (Hu : stops (fun a => Regexp.word a || Ascii.eqb a ".") u = true).
  { unfold u. destruct sp1 as [|a sp1]; [done|]. simpl in Hsp1.
    apply andb_prop in Hsp1 as [Ha _]. rewrite StringFacts.app_cons. simpl.
    by destruct a as [[] [] [] [] [] [] [] []]. }
  assert (Hblank : forall kw r,
            In kw blankKeywords ->
            Regexp.MatchString (blankPattern kw r) tag = false).
  { intros kw r Hin. unfold Regexp.MatchString, blankPattern.
    rewrite RegexpFacts.find_Bos. change tag with (name +:+ u).
    rewrite (DefaultFacts.keyword_none kw r u name 0 []); try done.
    - unfold blankKeywords in Hin. simpl in Hin.
      by destruct Hin as [<-|[<-|[<-|[<-|[<-|[]]]]]].
    - intros ->. by apply Hkw. }
  assert (Hbar : all (fun a => negb (Ascii.eqb a "|")) tag = false).
  { unfold tag. rewrite !StringFacts.all_app.
    change (all (fun a => negb (Ascii.eqb a "|")) "|") with false.
    by rewrite !andb_false_r, ?andb_false_l. }
  assert (Hexact : forall kw,
            all (fun a => negb (Ascii.eqb a "|")) kw = true ->
            Regexp.MatchString (exactPattern kw) tag = false).
  { intros kw Hk. apply VariableFacts.exactPattern_none.
    intros Heq. rewrite Heq in Hbar. congruence. }
  pose proof (DefaultFacts.find_varPattern_default s0 segs sp1 sp2 d
                Hs0 Hsegs Hsp1 Hsp2 Hd) as Hfind.
  fold name in Hfind. subst tag.
  unfold tagToken.
  change ifPattern with (blankPattern "if" (cat [Group 1 dot_plus; Eos])).
  change elseifPattern
    with (blankPattern "elseif" (cat [Group 1 dot_plus; Eos])).
  change forPattern
    with (blankPattern "for" (cat [Group 1 dot_plus; s_plus; Regexp.lit "in";
                                   s_plus; Group 2 dot_plus; Eos])).
  change switchPattern
    with (blankPattern "switch" (cat [Group 1 dot_plus; Eos])).
  change casePattern with (blankPattern "case" (cat [Group 1 dot_plus; Eos])).
  change elsePattern with (exactPattern "else").
  change endifPattern with (exactPattern "/if").
  change endforPattern with (exactPattern "/for").
  change defaultPattern with (exactPattern "default").
  change endswitchPattern with (exactPattern "/switch").
  rewrite !Hblank by (unfold blankKeywords; simpl; tauto).
  rewrite !Hexact by done.
  unfold Regexp.MatchString, Regexp.submatch. rewrite Hfind. reflexivity.
Qed.

Lemma tagToken_variable_default_witness :
  tagToken ("user.name" +:+ " " +:+ "|" +:+ " " +:+ dquote +:+ "N/A"
              +:+ dquote)
  = mkToken TVar "user.name" "N/A"
      ("user.name" +:+ " " +:+ "|" +:+ " " +:+ dquote +:+ "N/A" +:+ dquote).
Proof.
  refine (tagToken_variable_default "user" ["name"] " " " " "N/A" _ _ _ _ _ _).
  - reflexivity.
  - repeat constructor.
  - reflexivity.
  - reflexivity.
  - reflexivity.
  - vm_compute. intuition discriminate.
Defined.

(** ** Chains of conditions *)

Module ChainFacts.
Import Strings StringFacts.

Section Chain.
Context `{Strconv}.

Lemma splitLogicalLoop_chain (rest : list (string * list string)) :
  forall (parts : list string) (a : list string),
  operandWords a ->
  Forall (fun r => isKeyword r.1 /\ operandWords r.2) rest ->
  splitLogicalLoop parts "" (chainWords a rest)
  = parts ++ Fmt.join " " a
      :: flat_map (fun r => [r.1; Fmt.join " " r.2]) rest.
Proof.
  unfold chainWords.
  induction rest as [|[kw a'] rest IH]; intros parts a Ha Hrest.
  - simpl. rewrite ConditionFacts.splitLogicalLoop_operand by done.
    destruct Ha as [Hne Hw]. pose proof (plainWord_isWord _ Hw) as Hw'.
    cbn [splitLogicalLoop].
    rewrite (proj2 (String.eqb_neq _ _) (join_nonempty a Hne Hw')).
    by rewrite TrimSpace_join.
  - apply Forall_cons_1 in Hrest as [[Hkw Ha'] Hrest]. cbn [fst snd] in *.
    cbn [flat_map fst snd].
    rewrite ConditionFacts.splitLogicalLoop_operand by done.
    rewrite <- app_comm_cons.
    rewrite ConditionFacts.splitLogicalLoop_keyword by done.
    rewrite IH by done.
    destruct Ha as [Hne Hw]. pose proof (plainWord_isWord _ Hw) as Hw'.
    rewrite TrimSpace_join by done.
    rewrite <- !List.app_assoc. reflexivity.
Qed.

Lemma chainWords_isWord (a0 : list string)
    (rest : list (string * list string)) :
  operandWords a0 ->
  Forall (fun r => isKeyword r.1 /\ operandWords r.2) rest ->
  chainWords a0 rest <> [] /\ forallb isWord (chainWords a0 rest) = true.
Proof.
  intros [Hne Hw] Hrest. unfold chainWords. split; [by destruct a0|].
  rewrite forallb_app, (plainWord_isWord _ Hw). cbn [andb].
  induction Hrest as [|[kw a] rest [Hkw [_ Ha]] _ IH]; [done|].
  cbn [flat_map fst snd app forallb] in *.
  rewrite forallb_app, (plainWord_isWord _ Ha), IH.
  by destruct Hkw as [-> | ->].
Qed.

Lemma evalConditionLoop_chain (val : list string -> bool)
    (data : gmap string value) (rest : list (string * list string)) :
  forall res : bool,
  Forall (fun r => isKeyword r.1 /\ operandWords r.2) rest ->
  Forall (fun r => evalSimpleCond (Fmt.join " " r.2) data = OK (val r.2))
         rest ->
  evalConditionLoop res (flat_map (fun r => [r.1; Fmt.join " " r.2]) rest)
                    data
  = OK (fold_left (fun acc r => if String.eqb r.1 "and" then acc && val r.2
                                else acc || val r.2) rest res).
Proof.
  induction rest as [|[kw a] rest IH]; intros res Hrest Hval; [done|].
  apply Forall_cons_1 in Hrest as [[Hkw [Hne Hw]] Hrest].
  apply Forall_cons_1 in Hval as [Ha Hval]. cbn [fst snd] in *.
  cbn [flat_map fst snd app evalConditionLoop fold_left].
  apply plainWord_isWord in Hw.
  rewrite TrimSpace_join by done. rewrite Ha. simpl.
  destruct Hkw as [-> | ->]; cbn; by apply IH.
Qed.

End Chain.
End ChainFacts.

(** X29. A chain of any length is evaluated strictly from left to right:
    for operands that are each one or more words joined by single blanks,
    no word holding white space (that of Unicode included) and none of
    them being [and] or [or], chained by [and] and [or], each operand
    evaluating to a boolean, [evalCondition] returns the operators applied
    one after the other to the value so far, with no precedence of [and]
    over [or].  An operand that holds [and] or [or] as a word, as a quoted
    text may, is not such an operand: it is split at that word. *)
Theorem evalCondition_chain `{Strconv} (val : list string -> bool)
    (a0 : list string) (rest : list (string * list string))
    (data : gmap string value) :
  operandWords a0 ->
  Forall (fun r => isKeyword r.1 /\ operandWords r.2) rest ->
  evalSimpleCond (Fmt.join " " a0) data = OK (val a0) ->
  Forall (fun r => evalSimpleCond (Fmt.join " " r.2) data = OK (val r.2))
         rest ->
  evalCondition (Fmt.join " " (chainWords a0 rest)) data
  = OK (chainValue val a0 rest).
Proof.
  intros Ha0 Hrest Hv0 Hval.
  destruct (ChainFacts.chainWords_isWord a0 rest Ha0 Hrest) as [Hne Hw].
  unfold evalCondition, splitLogical.
  rewrite StringFacts.TrimSpace_join, StringFacts.Fields_join by done.
  rewrite (ChainFacts.splitLogicalLoop_chain rest [] a0 Ha0 Hrest).
  cbn [app]. destruct Ha0 as [Hne0 Hw0].
  apply StringFacts.plainWord_isWord in Hw0.
  rewrite StringFacts.TrimSpace_join by done. rewrite Hv0. simpl.
  by apply ChainFacts.evalConditionLoop_chain.
Qed.

Lemma evalCondition_chain_witness :
  evalCondition (H := Example.exampleStrconv)
    (Fmt.join " " (chainWords ["true"]
                     [("and", ["false"]); ("or", ["1"; "<"; "2"]);
                      ("and", ["true"])])) ∅
  = OK true.
Proof.
  refine (evalCondition_chain (H := Example.exampleStrconv)
            (fun a => match a with ["false"] => false | _ => true end)
            ["true"]
            [("and", ["false"]); ("or", ["1"; "<"; "2"]); ("and", ["true"])]
            ∅ _ _ _ _).
  - split; [discriminate|vm_compute; reflexivity].
  - repeat apply Forall_cons_2; try apply Forall_nil_2;
      (split; [unfold isKeyword; tauto
              |split; [discriminate|vm_compute; reflexivity]]).
  - vm_compute. reflexivity.
  - repeat apply Forall_cons_2; try apply Forall_nil_2;
      vm_compute; reflexivity.
Defined.

(** X30. [and] and [or] do not short-circuit: when the operand on the right
    of the keyword panics, [evalCondition] panics, whatever the operand on
    the left evaluates to. *)
Theorem evalCondition_no_short_circuit `{Strconv} (a b : list string)
    (kw : string) (data : gmap string value) :
  operandWords a -> operandWords b -> isKeyword kw ->
  evalSimpleCond (Fmt.join " " b) data = Panic ->
  evalCondition (Fmt.join " " (chainWords a [(kw, b)])) data = Panic.
Proof.
  intros Ha Hb Hkw Hpanic.
  assert (Hrest : Forall (fun r : string * list string =>
                            isKeyword r.1 /\ operandWords r.2) [(kw, b)])
    by (apply Forall_cons_2; [done|apply Forall_nil_2]).
  destruct (ChainFacts.chainWords_isWord a _ Ha Hrest) as [Hne Hw].
  unfold evalCondition, splitLogical.
  rewrite StringFacts.TrimSpace_join, StringFacts.Fields_join by done.
  rewrite (ChainFacts.splitLogicalLoop_chain _ [] a Ha Hrest).
  cbn [app flat_map fst snd]. destruct Ha as [Hnea Hwa], Hb as [Hneb Hwb].
  apply StringFacts.plainWord_isWord in Hwa, Hwb.
  rewrite StringFacts.TrimSpace_join by done.
  destruct (evalSimpleCond (Fmt.join " " a) data) as [r|e|] eqn:Hr; simpl;
    [|by destruct (evalSimpleCond_no_error_lemma (Fmt.join " " a) data e)
     |done].
  rewrite StringFacts.TrimSpace_join by done. by rewrite Hpanic.
Qed.

Lemma evalCondition_no_short_circuit_witness :
  evalCondition (H := Example.exampleStrconv)
    (Fmt.join " " (chainWords ["false"] [("and", ["x"; "=="; "'"])])) ∅
  = Panic.
Proof.
  refine (evalCondition_no_short_circuit (H := Example.exampleStrconv)
            ["false"] ["x"; "=="; "'"] "and" ∅ _ _ _ _).
  - split; [discriminate|vm_compute; reflexivity].
  - split; [discriminate|vm_compute; reflexivity].
  - by left.
  - vm_compute. reflexivity.
Defined.
